(** * Robotling HexBug: obstacle/cliff scanning, tilt interlock and turn memory

    A shallow embedding of [code/robotling/hexbug.py] (class [HexBug]) and
    of the constants of [code/robotling/hexbug_config.py].

    Conventions of the embedding:
    - Python [int] values are [Z]; Python [float] values (drive times after
      the bias scaling, compass angles, range readings) are the rationals
      [Q] they denote.  The float sums and products of the bias scaling
      in [__init__] are rounded to the nearest double ([float_round]);
      sums of a float and an [int] elsewhere are taken exactly;
    - the configuration switches [USE_LOAD_SENSING] and [SEND_TELEMETRY]
      are taken as shipped (both 0): the blocks they guard in [__init__]
      and in [housekeeper] are not part of the embedding;
    - the object [self], the module-level list [IR_SCAN_POS] and the
      actuators form one record [World], threaded through a state and
      exception monad [M];
    - what the hardware delivers (range readings, compass samples, random
      draws, what happens during a wait) is read from an environment [Env],
      a family of total functions indexed by how many values of that kind
      were consumed before. *)

From Stdlib Require Import ZArith QArith Qabs List Bool Lia.
Import ListNotations.

Open Scope Z_scope.

(** ** Numbers *)

Module PyNum.

(** [a < b] on floats, as a boolean. *)
Definition Qltb (a b : Q) : bool :=
  (Qnum a * QDen b <? Qnum b * QDen a)%Z.

(** Python's [int(x)] on a float: truncation towards zero. *)
Definition py_int (q : Q) : Z := Z.quot (Qnum q) (QDen q).

(** A configuration switch written [const(0)] / [const(1)] is used as a
    condition: any non-zero value is true. *)
Definition truthy (z : Z) : bool := negb (z =? 0).

Definition Qsum (l : list Q) : Q := fold_right Qplus 0%Q l.

(** *** Rounding to a double

    A finite Python [float] is an IEEE 754 double: a rational with a
    significand of 53 bits.  The result of a float operation is the
    double nearest to the exact result, a tie going to the even
    significand.  The range of the exponent is not modelled: no
    overflow to infinity, no subnormal numbers. *)

(** [n * 2 ** k] for [k >= 0], and [n] for a negative [k]. *)
Definition shl (n k : Z) : Z := n * 2 ^ Z.max 0 k.

(** For [n, d > 0], the [e] with [2 ** e <= n / d < 2 ** (e + 1)]. *)
Definition float_exponent (n d : Z) : Z :=
  let e0 := Z.log2 n - Z.log2 d in
  if shl d e0 <=? shl n (- e0) then e0 else e0 - 1.

(** The integer nearest to [n / d], a tie going to the even one. *)
Definition round_half_even (n d : Z) : Z :=
  let q := n / d in
  match 2 * (n mod d) ?= d with
  | Lt => q
  | Gt => q + 1
  | Eq => if Z.even q then q else q + 1
  end.

(** The double nearest to [q], in lowest terms. *)
Definition float_round (q : Q) : Q :=
  let n := Z.abs (Qnum q) in
  let d := QDen q in
  if n =? 0 then 0%Q
  else
    let s := float_exponent n d - 52 in
    let m := round_half_even (shl n (- s)) (shl d s) in
    Qred (Qmake (Z.sgn (Qnum q) * shl m s) (Z.to_pos (shl 1 (- s)))).

End PyNum.
Import PyNum.

(** ** Configuration ([hexbug_config.py]) *)

Record Config : Type := mkConfig {
  PIRO_MAX_ANGLE   : Z;
  IR_SCAN_POS_DEG  : list Z;
  IR_SCAN_BIAS_F   : Q;
  AI_CH_IR_RANGING : Z + list Z;   (* a constant, or a list of channels *)
  DIST_OBST_CM     : Z;
  DIST_CLIFF_CM    : Z;
  DIST_SMOOTH      : Z;
  AI_CH_LIGHT_R    : nat;
  AI_CH_LIGHT_L    : nat;
  MIN_DIST_SERVO   : Z;
  MAX_DIST_SERVO   : Z;
  SCAN_DIST_SERVO  : Z;
  SPEED_TURN       : Z;
  SPEED_SCAN       : Z;
  SPEED_BACK_DELAY : Z;
  DO_FIND_LIGHT    : Z;
  DO_WALK_STRAIGHT : Z;
  HEAD_ADJUST_FACT : Z;
  HEAD_ADJUST_THR  : Z;
  MEM_INC          : Z
}.

(** The values of the configuration file as shipped. *)
Definition hexbug_config : Config := {|
  PIRO_MAX_ANGLE   := 25;
  IR_SCAN_POS_DEG  := [-35; 0; 35; 0];
  IR_SCAN_BIAS_F   := 0%Q;
  AI_CH_IR_RANGING := inl 0;
  DIST_OBST_CM     := 9;
  DIST_CLIFF_CM    := 25;
  DIST_SMOOTH      := 0;
  AI_CH_LIGHT_R    := 3%nat;
  AI_CH_LIGHT_L    := 2%nat;
  MIN_DIST_SERVO   := 45;
  MAX_DIST_SERVO   := -45;
  SCAN_DIST_SERVO  := -25;
  SPEED_TURN       := 35;
  SPEED_SCAN       := 40;
  SPEED_BACK_DELAY := 600;
  DO_FIND_LIGHT    := 0;
  DO_WALK_STRAIGHT := 0;
  HEAD_ADJUST_FACT := -1;
  HEAD_ADJUST_THR  := 5;
  MEM_INC          := 1
|}.

(** The list the module binds to [IR_SCAN_POS] when it is imported. *)
Definition IR_SCAN_POS_shipped : list Q := [-300#1; 300#1; 300#1; -300#1]%Q.

Definition STATE_IDLE      : Z := 0.
Definition STATE_WALKING   : Z := 1.
Definition STATE_LOOKING   : Z := 2.
Definition STATE_ON_HOLD   : Z := 3.
Definition STATE_OBSTACLE  : Z := 4.
Definition STATE_CLIFF     : Z := 5.
Definition STATE_WAKING_UP : Z := 6.

(** NeoPixel colours (r,g,b) of the states, one flat byte array. *)
Definition STATE_COLORS : list Z :=
  [10;10;10;  20;70;0;  40;30;0;  20;0;50;  90;30;0;  90;0;30;  10;60;60].

(** ** Temporal filter *)

(** Modelled from the spec: class [TemporalFilter] of [misc/helpers.py],
    which is not part of the sources at hand.  A filter owns a window of
    at most [window] past values; pushing a value evicts the oldest one
    once the window is full and returns the arithmetic mean of the values
    held, without zero padding. *)
Record TemporalFilter : Type := mkFilter {
  window : nat;
  held   : list Q
}.

Definition TemporalFilter_new (n : Z) : TemporalFilter :=
  {| window := Z.to_nat n; held := [] |}.

Definition arith_mean (l : list Q) : Q :=
  (Qsum l / inject_Z (Z.of_nat (length l)))%Q.

Definition filter_push (v : Q) (f : TemporalFilter) : TemporalFilter :=
  let h := held f ++ [v] in
  {| window := window f;
     held := if (window f <? length h)%nat then tl h else h |}.

(** [f.mean(v)]: the smoothed value and the filter after the push. *)
Definition filter_mean (v : Q) (f : TemporalFilter) : Q * TemporalFilter :=
  let f' := filter_push v f in (arith_mean (held f'), f').

(** ** Commands issued by the behaviours *)

Inductive Event : Type :=
| EvTurnSpeed (v : Z)             (* MotorTurn.speed = v *)
| EvWalkSpeed (v : Z)             (* MotorWalk.speed = v *)
| EvServoAngle (a : Z)            (* ServoRangingSensor.angle = a *)
| EvSpin (ms : Q)                 (* spin_ms(ms) *)
| EvRange (sensor : nat) (d : Z)  (* d = int(RangingSensor[sensor].range_cm) *)
| EvStore (slot : nat) (d : Z).   (* _distData[slot] = d *)

Inductive Exn : Type :=
| IndexError
| AttributeError
| ValueError
| Fault.   (* an exception raised by a collaborator during a wait *)

(** ** The world: module state, [self] and the board *)

Record World : Type := mkWorld {
  heap : list (list Q);                       (* list objects of the interpreter, by address *)
  IR_SCAN_POS : nat;                          (* address bound to hexbug_config.IR_SCAN_POS *)
  nRangingSensor : option nat;                (* self.nRangingSensor *)
  _scanPos : nat;                             (* self._scanPos (an address) *)
  _iScanPos : list nat;                       (* self._iScanPos *)
  onTrouble : bool;                           (* self.onTrouble *)
  _distData : list Z;                         (* self._distData *)
  _distDataFilters : list TemporalFilter;     (* self._distDataFilters *)
  _turnBias : Z;                              (* self._turnBias *)
  turnStats : Z;                              (* self.turnStats *)
  cpsTargetHead : option Q;                   (* self.cpsTargetHead *)
  _targetHead : option Q;                     (* self._targetHead *)
  currHead : option Q;                        (* self.currHead *)
  lightDiff : Z;                              (* self.lightDiff *)
  LightDiffFilter : TemporalFilter;           (* self.LightDiffFilter *)
  onHold : bool;                              (* self.onHold *)
  PitchFilter : TemporalFilter;               (* self.PitchFilter *)
  RollFilter : TemporalFilter;                (* self.RollFilter *)
  state : Z;                                  (* self.state *)
  MotorTurn_speed : Z;                        (* self.MotorTurn.speed *)
  MotorWalk_speed : Z;                        (* self.MotorWalk.speed *)
  Servo_angle : Z;                            (* self.ServoRangingSensor.angle *)
  Servo_on : bool;                            (* servo powered *)
  pixel : list Z;                             (* colour handed to startPulseNeoPixel *)
  n_range : nat;                              (* range readings taken so far *)
  n_rand : nat;                               (* random draws so far *)
  n_compass : nat;                            (* compass samples so far *)
  n_spin : nat;                               (* waits so far *)
  log : list Event                            (* commands issued by the behaviours, oldest first *)
}.

Definition set_heap (v : list (list Q)) (w : World) : World :=
  mkWorld v (IR_SCAN_POS w) (nRangingSensor w) (_scanPos w) (_iScanPos w)
    (onTrouble w) (_distData w) (_distDataFilters w) (_turnBias w)
    (turnStats w) (cpsTargetHead w) (_targetHead w) (currHead w)
    (lightDiff w) (LightDiffFilter w) (onHold w) (PitchFilter w)
    (RollFilter w) (state w) (MotorTurn_speed w) (MotorWalk_speed w)
    (Servo_angle w) (Servo_on w) (pixel w) (n_range w) (n_rand w)
    (n_compass w) (n_spin w) (log w).

Definition set_IR_SCAN_POS (v : nat) (w : World) : World :=
  mkWorld (heap w) v (nRangingSensor w) (_scanPos w) (_iScanPos w)
    (onTrouble w) (_distData w) (_distDataFilters w) (_turnBias w)
    (turnStats w) (cpsTargetHead w) (_targetHead w) (currHead w)
    (lightDiff w) (LightDiffFilter w) (onHold w) (PitchFilter w)
    (RollFilter w) (state w) (MotorTurn_speed w) (MotorWalk_speed w)
    (Servo_angle w) (Servo_on w) (pixel w) (n_range w) (n_rand w)
    (n_compass w) (n_spin w) (log w).

Definition set_nRangingSensor (v : option nat) (w : World) : World :=
  mkWorld (heap w) (IR_SCAN_POS w) v (_scanPos w) (_iScanPos w)
    (onTrouble w) (_distData w) (_distDataFilters w) (_turnBias w)
    (turnStats w) (cpsTargetHead w) (_targetHead w) (currHead w)
    (lightDiff w) (LightDiffFilter w) (onHold w) (PitchFilter w)
    (RollFilter w) (state w) (MotorTurn_speed w) (MotorWalk_speed w)
    (Servo_angle w) (Servo_on w) (pixel w) (n_range w) (n_rand w)
    (n_compass w) (n_spin w) (log w).

Definition set__scanPos (v : nat) (w : World) : World :=
  mkWorld (heap w) (IR_SCAN_POS w) (nRangingSensor w) v (_iScanPos w)
    (onTrouble w) (_distData w) (_distDataFilters w) (_turnBias w)
    (turnStats w) (cpsTargetHead w) (_targetHead w) (currHead w)
    (lightDiff w) (LightDiffFilter w) (onHold w) (PitchFilter w)
    (RollFilter w) (state w) (MotorTurn_speed w) (MotorWalk_speed w)
    (Servo_angle w) (Servo_on w) (pixel w) (n_range w) (n_rand w)
    (n_compass w) (n_spin w) (log w).

Definition set__iScanPos (v : list nat) (w : World) : World :=
  mkWorld (heap w) (IR_SCAN_POS w) (nRangingSensor w) (_scanPos w) v
    (onTrouble w) (_distData w) (_distDataFilters w) (_turnBias w)
    (turnStats w) (cpsTargetHead w) (_targetHead w) (currHead w)
    (lightDiff w) (LightDiffFilter w) (onHold w) (PitchFilter w)
    (RollFilter w) (state w) (MotorTurn_speed w) (MotorWalk_speed w)
    (Servo_angle w) (Servo_on w) (pixel w) (n_range w) (n_rand w)
    (n_compass w) (n_spin w) (log w).

Definition set_onTrouble (v : bool) (w : World) : World :=
  mkWorld (heap w) (IR_SCAN_POS w) (nRangingSensor w) (_scanPos w)
    (_iScanPos w) v (_distData w) (_distDataFilters w) (_turnBias w)
    (turnStats w) (cpsTargetHead w) (_targetHead w) (currHead w)
    (lightDiff w) (LightDiffFilter w) (onHold w) (PitchFilter w)
    (RollFilter w) (state w) (MotorTurn_speed w) (MotorWalk_speed w)
    (Servo_angle w) (Servo_on w) (pixel w) (n_range w) (n_rand w)
    (n_compass w) (n_spin w) (log w).

Definition set__distData (v : list Z) (w : World) : World :=
  mkWorld (heap w) (IR_SCAN_POS w) (nRangingSensor w) (_scanPos w)
    (_iScanPos w) (onTrouble w) v (_distDataFilters w) (_turnBias w)
    (turnStats w) (cpsTargetHead w) (_targetHead w) (currHead w)
    (lightDiff w) (LightDiffFilter w) (onHold w) (PitchFilter w)
    (RollFilter w) (state w) (MotorTurn_speed w) (MotorWalk_speed w)
    (Servo_angle w) (Servo_on w) (pixel w) (n_range w) (n_rand w)
    (n_compass w) (n_spin w) (log w).

Definition set__distDataFilters (v : list TemporalFilter) (w : World) : World :=
  mkWorld (heap w) (IR_SCAN_POS w) (nRangingSensor w) (_scanPos w)
    (_iScanPos w) (onTrouble w) (_distData w) v (_turnBias w) (turnStats w)
    (cpsTargetHead w) (_targetHead w) (currHead w) (lightDiff w)
    (LightDiffFilter w) (onHold w) (PitchFilter w) (RollFilter w) (state w)
    (MotorTurn_speed w) (MotorWalk_speed w) (Servo_angle w) (Servo_on w)
    (pixel w) (n_range w) (n_rand w) (n_compass w) (n_spin w) (log w).

Definition set__turnBias (v : Z) (w : World) : World :=
  mkWorld (heap w) (IR_SCAN_POS w) (nRangingSensor w) (_scanPos w)
    (_iScanPos w) (onTrouble w) (_distData w) (_distDataFilters w) v
    (turnStats w) (cpsTargetHead w) (_targetHead w) (currHead w)
    (lightDiff w) (LightDiffFilter w) (onHold w) (PitchFilter w)
    (RollFilter w) (state w) (MotorTurn_speed w) (MotorWalk_speed w)
    (Servo_angle w) (Servo_on w) (pixel w) (n_range w) (n_rand w)
    (n_compass w) (n_spin w) (log w).

Definition set_turnStats (v : Z) (w : World) : World :=
  mkWorld (heap w) (IR_SCAN_POS w) (nRangingSensor w) (_scanPos w)
    (_iScanPos w) (onTrouble w) (_distData w) (_distDataFilters w)
    (_turnBias w) v (cpsTargetHead w) (_targetHead w) (currHead w)
    (lightDiff w) (LightDiffFilter w) (onHold w) (PitchFilter w)
    (RollFilter w) (state w) (MotorTurn_speed w) (MotorWalk_speed w)
    (Servo_angle w) (Servo_on w) (pixel w) (n_range w) (n_rand w)
    (n_compass w) (n_spin w) (log w).

Definition set_cpsTargetHead (v : option Q) (w : World) : World :=
  mkWorld (heap w) (IR_SCAN_POS w) (nRangingSensor w) (_scanPos w)
    (_iScanPos w) (onTrouble w) (_distData w) (_distDataFilters w)
    (_turnBias w) (turnStats w) v (_targetHead w) (currHead w) (lightDiff w)
    (LightDiffFilter w) (onHold w) (PitchFilter w) (RollFilter w) (state w)
    (MotorTurn_speed w) (MotorWalk_speed w) (Servo_angle w) (Servo_on w)
    (pixel w) (n_range w) (n_rand w) (n_compass w) (n_spin w) (log w).

Definition set__targetHead (v : option Q) (w : World) : World :=
  mkWorld (heap w) (IR_SCAN_POS w) (nRangingSensor w) (_scanPos w)
    (_iScanPos w) (onTrouble w) (_distData w) (_distDataFilters w)
    (_turnBias w) (turnStats w) (cpsTargetHead w) v (currHead w)
    (lightDiff w) (LightDiffFilter w) (onHold w) (PitchFilter w)
    (RollFilter w) (state w) (MotorTurn_speed w) (MotorWalk_speed w)
    (Servo_angle w) (Servo_on w) (pixel w) (n_range w) (n_rand w)
    (n_compass w) (n_spin w) (log w).

Definition set_currHead (v : option Q) (w : World) : World :=
  mkWorld (heap w) (IR_SCAN_POS w) (nRangingSensor w) (_scanPos w)
    (_iScanPos w) (onTrouble w) (_distData w) (_distDataFilters w)
    (_turnBias w) (turnStats w) (cpsTargetHead w) (_targetHead w) v
    (lightDiff w) (LightDiffFilter w) (onHold w) (PitchFilter w)
    (RollFilter w) (state w) (MotorTurn_speed w) (MotorWalk_speed w)
    (Servo_angle w) (Servo_on w) (pixel w) (n_range w) (n_rand w)
    (n_compass w) (n_spin w) (log w).

Definition set_lightDiff (v : Z) (w : World) : World :=
  mkWorld (heap w) (IR_SCAN_POS w) (nRangingSensor w) (_scanPos w)
    (_iScanPos w) (onTrouble w) (_distData w) (_distDataFilters w)
    (_turnBias w) (turnStats w) (cpsTargetHead w) (_targetHead w)
    (currHead w) v (LightDiffFilter w) (onHold w) (PitchFilter w)
    (RollFilter w) (state w) (MotorTurn_speed w) (MotorWalk_speed w)
    (Servo_angle w) (Servo_on w) (pixel w) (n_range w) (n_rand w)
    (n_compass w) (n_spin w) (log w).

Definition set_LightDiffFilter (v : TemporalFilter) (w : World) : World :=
  mkWorld (heap w) (IR_SCAN_POS w) (nRangingSensor w) (_scanPos w)
    (_iScanPos w) (onTrouble w) (_distData w) (_distDataFilters w)
    (_turnBias w) (turnStats w) (cpsTargetHead w) (_targetHead w)
    (currHead w) (lightDiff w) v (onHold w) (PitchFilter w) (RollFilter w)
    (state w) (MotorTurn_speed w) (MotorWalk_speed w) (Servo_angle w)
    (Servo_on w) (pixel w) (n_range w) (n_rand w) (n_compass w) (n_spin w)
    (log w).

Definition set_onHold (v : bool) (w : World) : World :=
  mkWorld (heap w) (IR_SCAN_POS w) (nRangingSensor w) (_scanPos w)
    (_iScanPos w) (onTrouble w) (_distData w) (_distDataFilters w)
    (_turnBias w) (turnStats w) (cpsTargetHead w) (_targetHead w)
    (currHead w) (lightDiff w) (LightDiffFilter w) v (PitchFilter w)
    (RollFilter w) (state w) (MotorTurn_speed w) (MotorWalk_speed w)
    (Servo_angle w) (Servo_on w) (pixel w) (n_range w) (n_rand w)
    (n_compass w) (n_spin w) (log w).

Definition set_PitchFilter (v : TemporalFilter) (w : World) : World :=
  mkWorld (heap w) (IR_SCAN_POS w) (nRangingSensor w) (_scanPos w)
    (_iScanPos w) (onTrouble w) (_distData w) (_distDataFilters w)
    (_turnBias w) (turnStats w) (cpsTargetHead w) (_targetHead w)
    (currHead w) (lightDiff w) (LightDiffFilter w) (onHold w) v
    (RollFilter w) (state w) (MotorTurn_speed w) (MotorWalk_speed w)
    (Servo_angle w) (Servo_on w) (pixel w) (n_range w) (n_rand w)
    (n_compass w) (n_spin w) (log w).

Definition set_RollFilter (v : TemporalFilter) (w : World) : World :=
  mkWorld (heap w) (IR_SCAN_POS w) (nRangingSensor w) (_scanPos w)
    (_iScanPos w) (onTrouble w) (_distData w) (_distDataFilters w)
    (_turnBias w) (turnStats w) (cpsTargetHead w) (_targetHead w)
    (currHead w) (lightDiff w) (LightDiffFilter w) (onHold w)
    (PitchFilter w) v (state w) (MotorTurn_speed w) (MotorWalk_speed w)
    (Servo_angle w) (Servo_on w) (pixel w) (n_range w) (n_rand w)
    (n_compass w) (n_spin w) (log w).

Definition set_state (v : Z) (w : World) : World :=
  mkWorld (heap w) (IR_SCAN_POS w) (nRangingSensor w) (_scanPos w)
    (_iScanPos w) (onTrouble w) (_distData w) (_distDataFilters w)
    (_turnBias w) (turnStats w) (cpsTargetHead w) (_targetHead w)
    (currHead w) (lightDiff w) (LightDiffFilter w) (onHold w)
    (PitchFilter w) (RollFilter w) v (MotorTurn_speed w) (MotorWalk_speed w)
    (Servo_angle w) (Servo_on w) (pixel w) (n_range w) (n_rand w)
    (n_compass w) (n_spin w) (log w).

Definition set_MotorTurn_speed (v : Z) (w : World) : World :=
  mkWorld (heap w) (IR_SCAN_POS w) (nRangingSensor w) (_scanPos w)
    (_iScanPos w) (onTrouble w) (_distData w) (_distDataFilters w)
    (_turnBias w) (turnStats w) (cpsTargetHead w) (_targetHead w)
    (currHead w) (lightDiff w) (LightDiffFilter w) (onHold w)
    (PitchFilter w) (RollFilter w) (state w) v (MotorWalk_speed w)
    (Servo_angle w) (Servo_on w) (pixel w) (n_range w) (n_rand w)
    (n_compass w) (n_spin w) (log w).

Definition set_MotorWalk_speed (v : Z) (w : World) : World :=
  mkWorld (heap w) (IR_SCAN_POS w) (nRangingSensor w) (_scanPos w)
    (_iScanPos w) (onTrouble w) (_distData w) (_distDataFilters w)
    (_turnBias w) (turnStats w) (cpsTargetHead w) (_targetHead w)
    (currHead w) (lightDiff w) (LightDiffFilter w) (onHold w)
    (PitchFilter w) (RollFilter w) (state w) (MotorTurn_speed w) v
    (Servo_angle w) (Servo_on w) (pixel w) (n_range w) (n_rand w)
    (n_compass w) (n_spin w) (log w).

Definition set_Servo_angle (v : Z) (w : World) : World :=
  mkWorld (heap w) (IR_SCAN_POS w) (nRangingSensor w) (_scanPos w)
    (_iScanPos w) (onTrouble w) (_distData w) (_distDataFilters w)
    (_turnBias w) (turnStats w) (cpsTargetHead w) (_targetHead w)
    (currHead w) (lightDiff w) (LightDiffFilter w) (onHold w)
    (PitchFilter w) (RollFilter w) (state w) (MotorTurn_speed w)
    (MotorWalk_speed w) v (Servo_on w) (pixel w) (n_range w) (n_rand w)
    (n_compass w) (n_spin w) (log w).

Definition set_Servo_on (v : bool) (w : World) : World :=
  mkWorld (heap w) (IR_SCAN_POS w) (nRangingSensor w) (_scanPos w)
    (_iScanPos w) (onTrouble w) (_distData w) (_distDataFilters w)
    (_turnBias w) (turnStats w) (cpsTargetHead w) (_targetHead w)
    (currHead w) (lightDiff w) (LightDiffFilter w) (onHold w)
    (PitchFilter w) (RollFilter w) (state w) (MotorTurn_speed w)
    (MotorWalk_speed w) (Servo_angle w) v (pixel w) (n_range w) (n_rand w)
    (n_compass w) (n_spin w) (log w).

Definition set_pixel (v : list Z) (w : World) : World :=
  mkWorld (heap w) (IR_SCAN_POS w) (nRangingSensor w) (_scanPos w)
    (_iScanPos w) (onTrouble w) (_distData w) (_distDataFilters w)
    (_turnBias w) (turnStats w) (cpsTargetHead w) (_targetHead w)
    (currHead w) (lightDiff w) (LightDiffFilter w) (onHold w)
    (PitchFilter w) (RollFilter w) (state w) (MotorTurn_speed w)
    (MotorWalk_speed w) (Servo_angle w) (Servo_on w) v (n_range w)
    (n_rand w) (n_compass w) (n_spin w) (log w).

Definition set_n_range (v : nat) (w : World) : World :=
  mkWorld (heap w) (IR_SCAN_POS w) (nRangingSensor w) (_scanPos w)
    (_iScanPos w) (onTrouble w) (_distData w) (_distDataFilters w)
    (_turnBias w) (turnStats w) (cpsTargetHead w) (_targetHead w)
    (currHead w) (lightDiff w) (LightDiffFilter w) (onHold w)
    (PitchFilter w) (RollFilter w) (state w) (MotorTurn_speed w)
    (MotorWalk_speed w) (Servo_angle w) (Servo_on w) (pixel w) v (n_rand w)
    (n_compass w) (n_spin w) (log w).

Definition set_n_rand (v : nat) (w : World) : World :=
  mkWorld (heap w) (IR_SCAN_POS w) (nRangingSensor w) (_scanPos w)
    (_iScanPos w) (onTrouble w) (_distData w) (_distDataFilters w)
    (_turnBias w) (turnStats w) (cpsTargetHead w) (_targetHead w)
    (currHead w) (lightDiff w) (LightDiffFilter w) (onHold w)
    (PitchFilter w) (RollFilter w) (state w) (MotorTurn_speed w)
    (MotorWalk_speed w) (Servo_angle w) (Servo_on w) (pixel w) (n_range w) v
    (n_compass w) (n_spin w) (log w).

Definition set_n_compass (v : nat) (w : World) : World :=
  mkWorld (heap w) (IR_SCAN_POS w) (nRangingSensor w) (_scanPos w)
    (_iScanPos w) (onTrouble w) (_distData w) (_distDataFilters w)
    (_turnBias w) (turnStats w) (cpsTargetHead w) (_targetHead w)
    (currHead w) (lightDiff w) (LightDiffFilter w) (onHold w)
    (PitchFilter w) (RollFilter w) (state w) (MotorTurn_speed w)
    (MotorWalk_speed w) (Servo_angle w) (Servo_on w) (pixel w) (n_range w)
    (n_rand w) v (n_spin w) (log w).

Definition set_n_spin (v : nat) (w : World) : World :=
  mkWorld (heap w) (IR_SCAN_POS w) (nRangingSensor w) (_scanPos w)
    (_iScanPos w) (onTrouble w) (_distData w) (_distDataFilters w)
    (_turnBias w) (turnStats w) (cpsTargetHead w) (_targetHead w)
    (currHead w) (lightDiff w) (LightDiffFilter w) (onHold w)
    (PitchFilter w) (RollFilter w) (state w) (MotorTurn_speed w)
    (MotorWalk_speed w) (Servo_angle w) (Servo_on w) (pixel w) (n_range w)
    (n_rand w) (n_compass w) v (log w).

Definition set_log (v : list Event) (w : World) : World :=
  mkWorld (heap w) (IR_SCAN_POS w) (nRangingSensor w) (_scanPos w)
    (_iScanPos w) (onTrouble w) (_distData w) (_distDataFilters w)
    (_turnBias w) (turnStats w) (cpsTargetHead w) (_targetHead w)
    (currHead w) (lightDiff w) (LightDiffFilter w) (onHold w)
    (PitchFilter w) (RollFilter w) (state w) (MotorTurn_speed w)
    (MotorWalk_speed w) (Servo_angle w) (Servo_on w) (pixel w) (n_range w)
    (n_rand w) (n_compass w) (n_spin w) v.

(** ** State and exception monad *)

Inductive Res (A : Type) : Type :=
| Ok (a : A)
| Raise (e : Exn).
Arguments Ok {A} a.
Arguments Raise {A} e.

Definition M (A : Type) : Type := World -> Res A * World.

Definition ret {A} (a : A) : M A := fun w => (Ok a, w).

Definition bind {A B} (m : M A) (k : A -> M B) : M B :=
  fun w =>
    match m w with
    | (Ok a, w') => k a w'
    | (Raise e, w') => (Raise e, w')
    end.

Definition raise {A} (e : Exn) : M A := fun w => (Raise e, w).

Definition get {A} (f : World -> A) : M A := fun w => (Ok (f w), w).

Definition modify (f : World -> World) : M unit := fun w => (Ok tt, f w).

(** Reading an attribute that may not have been assigned yet. *)
Definition attr {A} (f : World -> option A) : M A :=
  fun w =>
    match f w with
    | Some a => (Ok a, w)
    | None => (Raise AttributeError, w)
    end.

(** [try: body finally: fin]. *)
Definition try_finally {A} (body : M A) (fin : M unit) : M A :=
  fun w =>
    match body w with
    | (Ok a, w1) =>
        match fin w1 with
        | (Ok _, w2) => (Ok a, w2)
        | (Raise e, w2) => (Raise e, w2)
        end
    | (Raise e, w1) =>
        match fin w1 with
        | (Ok _, w2) => (Raise e, w2)
        | (Raise e', w2) => (Raise e', w2)
        end
    end.

Declare Scope monad_scope.
Delimit Scope monad_scope with monad.
Notation "x <- c1 ;; c2" := (bind c1 (fun x => c2))
  (at level 61, c1 at next level, right associativity) : monad_scope.
Notation "c1 ;; c2" := (bind c1 (fun _ => c2))
  (at level 61, right associativity) : monad_scope.
Open Scope monad_scope.

Definition emit (e : Event) : M unit :=
  modify (fun w => set_log (log w ++ [e]) w).

(** ** Environment *)

(** One compass sample, the tuple returned by [Compass.getHeading3D()]. *)
Record EHPR : Type := mkEHPR {
  ehpr_err : Z; ehpr_heading : Q; ehpr_pitch : Q; ehpr_roll : Q
}.

Record Env : Type := mkEnv {
  range_cm     : nat -> nat -> Q;   (* sensor, n-th reading: its range_cm *)
  rand_raw     : nat -> nat;        (* n-th draw of the generator *)
  getHeading3D : nat -> EHPR;       (* n-th compass sample *)
  getHeading   : nat -> Q;          (* n-th compass sample, heading only *)
  MCP3208_data : nat -> nat -> Z;   (* n-th sample, channel: buffered A/D value *)
  spin_ticks   : nat -> nat;        (* housekeeper calls during the n-th wait *)
  spin_fault   : nat -> bool        (* the n-th wait ends in an exception *)
}.

Section HexBug.

Variable E : Env.
Variable cfg : Config.

(** [random.randint(a, b)]: an integer of [a .. b]. *)
Definition randint (a b : Z) : M Z :=
  n <- get n_rand ;;
  modify (set_n_rand (S n)) ;;
  ret (a + Z.of_nat (rand_raw E n) mod (b - a + 1)).

Definition Compass_getHeading : M Q :=
  n <- get n_compass ;;
  modify (set_n_compass (S n)) ;;
  ret (getHeading E n).

Definition Compass_getHeading3D : M EHPR :=
  n <- get n_compass ;;
  modify (set_n_compass (S n)) ;;
  ret (getHeading3D E n).

(** [int(self.RangingSensor[i].range_cm)] *)
Definition read_range (i : nat) : M Z :=
  n <- get n_range ;;
  modify (set_n_range (S n)) ;;
  let d := py_int (range_cm E i n) in
  emit (EvRange i d) ;;
  ret d.

Definition MotorTurn_set_speed (v : Z) : M unit :=
  modify (set_MotorTurn_speed v) ;; emit (EvTurnSpeed v).

Definition MotorWalk_set_speed (v : Z) : M unit :=
  modify (set_MotorWalk_speed v) ;; emit (EvWalkSpeed v).

Definition Servo_set_angle (a : Z) : M unit :=
  modify (fun w => set_Servo_on true (set_Servo_angle a w)) ;;
  emit (EvServoAngle a).

(** *** [housekeeper] *)

(** [STATE_COLORS[i:i+3]] *)
Definition color_of_state (s : Z) : list Z :=
  firstn 3 (skipn (Z.to_nat (s * 3)) STATE_COLORS).

(** The timer callback, for [USE_LOAD_SENSING = 0] and
    [SEND_TELEMETRY = 0] as shipped.  The blocks these switches guard
    (lines 222-224 and 230-250) are not embedded: they write
    [_loadData] and the MQTT dictionary, which are not part of [World],
    through attributes that [__init__] creates under the same switches
    only.  The writes to the actuators made here are not entered in
    [log], which holds the commands of the behaviours. *)
Definition housekeeper : M unit :=
  n <- get n_compass ;;
  let aid := MCP3208_data E n in
  ehpr <- Compass_getHeading3D ;;
  pf <- get PitchFilter ;;
  let '(pAv, pf') := filter_mean (ehpr_pitch ehpr) pf in
  modify (set_PitchFilter pf') ;;
  rf <- get RollFilter ;;
  let '(rAv, rf') := filter_mean (ehpr_roll ehpr) rf in
  modify (set_RollFilter rf') ;;
  let hold := Qltb (inject_Z (PIRO_MAX_ANGLE cfg)) (Qabs pAv)
              || Qltb (inject_Z (PIRO_MAX_ANGLE cfg)) (Qabs rAv) in
  modify (set_onHold hold) ;;
  (if hold then
     modify (set_MotorTurn_speed 0) ;;
     modify (set_MotorWalk_speed 0) ;;
     modify (set_Servo_on false) ;;
     modify (set_state STATE_ON_HOLD)
   else ret tt) ;;
  modify (set_currHead (Some (ehpr_heading ehpr))) ;;
  (if truthy (DO_FIND_LIGHT cfg) then
     let dL := aid (AI_CH_LIGHT_R cfg) - aid (AI_CH_LIGHT_L cfg) in
     lf <- get LightDiffFilter ;;
     let '(m, lf') := filter_mean (inject_Z dL) lf in
     modify (set_LightDiffFilter lf') ;;
     modify (set_lightDiff (py_int m))
   else ret tt) ;;
  s <- get state ;;
  modify (set_pixel (color_of_state s)).

(** *** [spin_ms] *)

Fixpoint repeatM (n : nat) (m : M unit) : M unit :=
  match n with
  | O => ret tt
  | S n' => m ;; repeatM n' m
  end.

(** Modelled from the spec: [Robotling.spin_ms] of [robotling.py], which
    is not part of the sources at hand.  The call waits for the given
    time; meanwhile the periodic callback ([housekeeper]) runs a number
    of times fixed by the environment, and a collaborator may fail. *)
Definition spin_ms (ms : Q) : M unit :=
  emit (EvSpin ms) ;;
  n <- get n_spin ;;
  modify (set_n_spin (S n)) ;;
  repeatM (spin_ticks E n) housekeeper ;;
  if spin_fault E n then raise Fault else ret tt.

(** *** Lists, the Python way *)

(** [l[i]] for reading: a negative index counts from the end, an index
    out of range raises [IndexError]. *)
Definition py_getitem {A} (l : list A) (i : Z) : M A :=
  let j := if i <? 0 then i + Z.of_nat (length l) else i in
  if j <? 0 then raise IndexError
  else match nth_error l (Z.to_nat j) with
       | Some a => ret a
       | None => raise IndexError
       end.

(** [l[i] = v] on a copy, for [i >= 0]; [None] when out of range. *)
Fixpoint list_set {A} (i : nat) (v : A) (l : list A) : option (list A) :=
  match l, i with
  | [], _ => None
  | _ :: t, O => Some (v :: t)
  | h :: t, S i' => option_map (cons h) (list_set i' v t)
  end.

Definition heap_get (a : nat) : M (list Q) :=
  get (fun w => nth a (heap w) []).

Definition heap_put (a : nat) (l : list Q) : M unit :=
  modify (fun w =>
    match list_set a l (heap w) with
    | Some h => set_heap h w
    | None => w
    end).

(** [self._iScanPos[i] = v] *)
Definition iScanPos_setitem (i v : nat) : M unit :=
  l <- get _iScanPos ;;
  match list_set i v l with
  | Some l' => modify (set__iScanPos l')
  | None => raise IndexError
  end.

(** [self._distData[slot] = d] *)
Definition distData_setitem (slot : nat) (d : Z) : M unit :=
  l <- get _distData ;;
  match list_set slot d l with
  | Some l' => modify (set__distData l') ;; emit (EvStore slot d)
  | None => raise IndexError
  end.

(** *** [__init__] *)

(** [f = (1. +IR_SCAN_BIAS_F) if pos > 0 else (1. -IR_SCAN_BIAS_F)], a
    float sum. *)
Definition bias_factor (pos : Q) : Q :=
  float_round
    (if Qltb 0 pos then 1 + IR_SCAN_BIAS_F cfg else 1 - IR_SCAN_BIAS_F cfg)%Q.

(** [for iPos, pos in enumerate(IR_SCAN_POS): self._scanPos[iPos] *= f].
    The iterator reads the list object of [IR_SCAN_POS] afresh at each
    step; the assignment goes through [self._scanPos].  The product is
    a float product: an [int] entry is converted (exactly, below
    [2 ** 53]) and the exact product is rounded. *)
Fixpoint scale_scan_pos (fuel iPos : nat) : M unit :=
  match fuel with
  | O => ret tt
  | S fuel' =>
      a <- get IR_SCAN_POS ;;
      l <- heap_get a ;;
      match nth_error l iPos with
      | None => ret tt
      | Some pos =>
          let f := bias_factor pos in
          sp <- get _scanPos ;;
          l' <- heap_get sp ;;
          x <- py_getitem l' (Z.of_nat iPos) ;;
          match list_set iPos (float_round (x * f)) l' with
          | Some l'' => heap_put sp l''
          | None => raise IndexError
          end ;;
          scale_scan_pos fuel' (S iPos)
      end
  end.

(** The first [j] with [l[j] == pos]. *)
Fixpoint first_index (pos : Z) (l : list Z) (j : nat) : option nat :=
  match l with
  | [] => None
  | x :: t => if x =? pos then Some j else first_index pos t (S j)
  end.

(** [for iPos, pos in enumerate(IR_SCAN_POS_DEG): ...], returning [l]. *)
Fixpoint index_scan_pos (degs : list Z) (iPos : nat) (l : list Z)
  : M (list Z) :=
  match degs with
  | [] => ret l
  | pos :: rest =>
      if (iPos =? 0)%nat || negb (existsb (Z.eqb pos) l) then
        let l' := l ++ [pos] in
        iScanPos_setitem iPos iPos ;;
        index_scan_pos rest (S iPos) l'
      else
        match first_index pos l 0 with
        | Some j => iScanPos_setitem iPos j
        | None => ret tt
        end ;;
        index_scan_pos rest (S iPos) l
  end.

(** [self._MCP3208.channelMask |= 0x01 << pin]: a negative shift count
    raises [ValueError].  The mask itself belongs to the A/D driver,
    which is not part of the sources at hand. *)
Definition enable_channel (pin : Z) : M unit :=
  if pin <? 0 then raise ValueError else ret tt.

(** [for pin in AInCh: ...] *)
Fixpoint add_ranging_sensors (pins : list Z) : M unit :=
  match pins with
  | [] => ret tt
  | pin :: rest => enable_channel pin ;; add_ranging_sensors rest
  end.

(** Lines 83-111: the ranging sensors.  [vl6180x] tells whether a
    time-of-flight sensor is attached and ready; the attribute
    [nRangingSensor] is assigned on the fall-back path only, and read by
    the [print] that follows. *)
Definition init_ranging (vl6180x : bool) : M unit :=
  (if vl6180x then ret tt
   else
     let AInCh := match AI_CH_IR_RANGING cfg with
                  | inl ch => [ch]
                  | inr chs => chs
                  end in
     add_ranging_sensors AInCh ;;
     modify (set_nRangingSensor (Some (length AInCh)))) ;;
  n <- attr nRangingSensor ;;
  if vl6180x || negb (n =? 0)%nat then ret tt else raise IndexError.

(** Lines 138-196: the distance profile for the angles [l], and the
    remaining attributes.  The blocks guarded by [USE_LOAD_SENSING]
    (lines 160-164) and [SEND_TELEMETRY] (lines 181-186) are not
    embedded; both switches are 0 as shipped. *)
Definition init_attributes (l : list Z) : M unit :=
  modify (set__distData (repeat 0 (length l))) ;;
  (if 2 <=? DIST_SMOOTH cfg then
     modify (set__distDataFilters
               (repeat (TemporalFilter_new (DIST_SMOOTH cfg)) (length l)))
   else ret tt) ;;
  modify (set__turnBias 0) ;;
  modify (set_turnStats 0) ;;
  (if truthy (DO_WALK_STRAIGHT cfg) && negb (truthy (DO_FIND_LIGHT cfg)) then
     h <- Compass_getHeading ;;
     modify (set_cpsTargetHead (Some h))
   else ret tt) ;;
  modify (set_lightDiff 0) ;;
  (if truthy (DO_FIND_LIGHT cfg) then
     modify (set_LightDiffFilter (TemporalFilter_new 5))
   else ret tt) ;;
  modify (set_onHold false) ;;
  modify (set_PitchFilter (TemporalFilter_new 8)) ;;
  modify (set_RollFilter (TemporalFilter_new 8)) ;;
  modify (set_state STATE_IDLE).

(** The constructor, run on the object as [Robotling.__init__] left
    it. *)
Definition __init__ (vl6180x : bool) : M unit :=
  init_ranging vl6180x ;;
  a <- get IR_SCAN_POS ;;
  modify (set__scanPos a) ;;
  l0 <- heap_get a ;;
  modify (set__iScanPos (repeat 0%nat (length l0))) ;;
  modify (set_onTrouble false) ;;
  scale_scan_pos (length l0) 0 ;;
  l <- index_scan_pos (IR_SCAN_POS_DEG cfg) 0 [] ;;
  init_attributes l.

(** *** [_nextTurnDir] *)

Definition _nextTurnDir (lastTurnDir : Z) : M Z :=
  (if negb (lastTurnDir =? 0) then
     ts <- get turnStats ;;
     modify (set_turnStats
               (ts + (if 0 <? lastTurnDir then MEM_INC cfg
                      else - MEM_INC cfg)))
   else ret tt) ;;
  ts <- get turnStats ;;
  if ts =? 0 then
    r <- randint 0 1 ;;
    py_getitem [-1; 1] r
  else ret (if 0 <? ts then 1 else -1).

(** *** [scanForObstacleOrCliff] *)

(** The per-cycle bias.  In the heading-hold branch the correction is
    computed into the local [tb]; [bias] keeps its initial value. *)
Definition scan_bias : M Z :=
  if truthy (DO_FIND_LIGHT cfg) then
    ld <- get lightDiff ;;
    ret (- ld)
  else if truthy (DO_WALK_STRAIGHT cfg) then
    ch <- attr currHead ;;
    th <- attr cpsTargetHead ;;
    let dh := (ch - th)%Q in
    let tb := if Qltb (inject_Z (HEAD_ADJUST_THR cfg)) (Qabs dh)
              then (dh * inject_Z (HEAD_ADJUST_FACT cfg))%Q else 0%Q in
    ret 0
  else ret 0.

(** [SPEED_SCAN * (-1,1)[x < 0]] *)
Definition scan_speed (x : Q) : Z :=
  SPEED_SCAN cfg * (if Qltb x 0 then 1 else -1).

(** Single sensor: the head sweeps over the scan positions. *)
Fixpoint sweep (l bias : Z) (poss : list Q) (iPos : nat) (o c : bool)
  : M (bool * bool) :=
  match poss with
  | [] => ret (o, c)
  | Pos :: rest =>
      let b := if Z.of_nat iPos <? l then 0 else bias in
      MotorTurn_set_speed (scan_speed Pos) ;;
      spin_ms (Qabs Pos + inject_Z b)%Q ;;
      MotorTurn_set_speed 0 ;;
      d <- read_range 0 ;;
      im <- get _iScanPos ;;
      slot <- py_getitem im (Z.of_nat iPos) ;;
      distData_setitem slot d ;;
      sweep l bias rest (S iPos)
            (o || (d <? DIST_OBST_CM cfg)) (c || (DIST_CLIFF_CM cfg <? d))
  end.

(** [if DIST_SMOOTH >= 2: d = int(self._distDataFilters[iPos].mean(d))] *)
Definition smooth (iPos : nat) (d0 : Z) : M Z :=
  if 2 <=? DIST_SMOOTH cfg then
    fs <- get _distDataFilters ;;
    f <- py_getitem fs (Z.of_nat iPos) ;;
    let '(m, f') := filter_mean (inject_Z d0) f in
    match list_set iPos f' fs with
    | Some fs' => modify (set__distDataFilters fs')
    | None => ret tt
    end ;;
    ret (py_int m)
  else ret d0.

(** Sensor array: [for iPos in range(self.nRangingSensor)]. *)
Fixpoint poll (n iPos : nat) (o c : bool) : M (bool * bool) :=
  match n with
  | O => ret (o, c)
  | S n' =>
      d0 <- read_range iPos ;;
      d <- smooth iPos d0 ;;
      distData_setitem iPos d ;;
      poll n' (S iPos)
           (o || (d <? DIST_OBST_CM cfg)) (c || (DIST_CLIFF_CM cfg <? d))
  end.

(** The duration of the corrective nudge, [td]. *)
Definition nudge_ms (bias : Z) : Q :=
  (Qabs (IR_SCAN_BIAS_F cfg * inject_Z 200) + inject_Z bias)%Q.

(** Sensor array: the head nudge and the padding wait after polling. *)
Definition nudge (bias : Z) : M unit :=
  MotorTurn_set_speed (scan_speed (IR_SCAN_BIAS_F cfg)) ;;
  let td := nudge_ms bias in
  spin_ms td ;;
  MotorTurn_set_speed 0 ;;
  let sd := (inject_Z (SPEED_BACK_DELAY cfg / 3) - td)%Q in
  if Qltb 0 sd then spin_ms sd else ret tt.

Definition scanForObstacleOrCliff : M Z :=
  bias <- scan_bias ;;
  sp <- get _scanPos ;;
  poss <- heap_get sp ;;
  let l := Z.of_nat (length poss) - 1 in
  n <- attr nRangingSensor ;;
  oc <- (if (n =? 1)%nat then sweep l bias poss 0 false false
         else
           oc <- poll n 0 false false ;;
           nudge bias ;;
           ret oc) ;;
  modify (set__turnBias bias) ;;
  ret (if snd oc then 1 else if fst oc then -1 else 0).

(** *** [lookAround] *)

(** [for i in range(nSacc): ...], with the running [yaw] and [pit]. *)
Fixpoint saccades (n : nat) (maxPit yaw pit : Z) : M unit :=
  match n with
  | O => ret tt
  | S n' =>
      hold <- get onHold ;;
      if hold : bool then ret tt
      else
        dYaw <- randint (-800) 800 ;;
        let yaw' := yaw + dYaw in
        let dir := if dYaw <? 0 then -1 else 1 in
        r <- randint (-10) 15 ;;
        let pit' := Z.min (Z.max 0 (pit + r)) maxPit in
        Servo_set_angle pit' ;;
        MotorTurn_set_speed (SPEED_TURN cfg * dir) ;;
        spin_ms (inject_Z (Z.abs dYaw)) ;;
        MotorTurn_set_speed 0 ;;
        p <- randint 0 500 ;;
        spin_ms (inject_Z p) ;;
        saccades n' maxPit yaw' pit'
  end.

Definition lookAround_cleanup (prevState : Z) : M unit :=
  MotorTurn_set_speed 0 ;;
  Servo_set_angle (SCAN_DIST_SERVO cfg) ;;
  modify (set_state prevState) ;;
  if truthy (DO_WALK_STRAIGHT cfg) && negb (truthy (DO_FIND_LIGHT cfg)) then
    h <- Compass_getHeading ;;
    modify (set__targetHead (Some h))
  else ret tt.

Definition lookAround : M unit :=
  MotorWalk_set_speed 0 ;;
  MotorTurn_set_speed 0 ;;
  prevState <- get state ;;
  modify (set_state STATE_LOOKING) ;;
  let maxPit := Z.max (MAX_DIST_SERVO cfg) (MIN_DIST_SERVO cfg) in
  nSacc <- randint 4 10 ;;
  try_finally
    (saccades (Z.to_nat nSacc) maxPit 0 (SCAN_DIST_SERVO cfg))
    (lookAround_cleanup prevState).

End HexBug.

(** ** Concrete worlds and environments *)

(** The interpreter after [import hexbug_config], before any [HexBug] is
    constructed: one list object, bound to [IR_SCAN_POS]. *)
Definition imported (scan_pos : list Q) : World :=
  mkWorld [scan_pos] 0 None 0 [] false [] [] 0 0 None None None 0
    (TemporalFilter_new 5) false (TemporalFilter_new 8) (TemporalFilter_new 8)
    STATE_IDLE 0 0 0 false [] 0 0 0 0 [].

(** An environment in which the robot stands level, no wait is disturbed,
    and the single range sensor delivers the given readings in turn. *)
Definition quiet_env (readings : list Q) : Env := {|
  range_cm := fun _ n => nth n readings 0%Q;
  rand_raw := fun _ => 0%nat;
  getHeading3D := fun _ => mkEHPR 0 0 0 0;
  getHeading := fun _ => 0%Q;
  MCP3208_data := fun _ _ => 0;
  spin_ticks := fun _ => 0%nat;
  spin_fault := fun _ => false
|}.

Definition run {A} (m : M A) (w : World) : Res A * World := m w.

Definition after {A} (m : M A) (w : World) : World := snd (m w).
Definition result {A} (m : M A) (w : World) : Res A := fst (m w).

(** * Specification-level definitions *)

(** The notions the properties below are stated with: what a behaviour
    logged, the sweep and the bias in the words of the specification,
    the distinct angles of the profile. *)

Section Specification.

Variable E : Env.
Variable cfg : Config.

(** ** Frames *)

(** The fields that neither [housekeeper] nor a wait ever writes. *)
Record keeps (w w' : World) : Prop := mkKeeps {
  keeps_heap : heap w' = heap w;
  keeps_IR_SCAN_POS : IR_SCAN_POS w' = IR_SCAN_POS w;
  keeps_nRangingSensor : nRangingSensor w' = nRangingSensor w;
  keeps_scanPos : _scanPos w' = _scanPos w;
  keeps_iScanPos : _iScanPos w' = _iScanPos w;
  keeps_distData : _distData w' = _distData w;
  keeps_distDataFilters : _distDataFilters w' = _distDataFilters w;
  keeps_turnBias : _turnBias w' = _turnBias w;
  keeps_turnStats : turnStats w' = turnStats w;
  keeps_cpsTargetHead : cpsTargetHead w' = cpsTargetHead w;
  keeps_targetHead : _targetHead w' = _targetHead w;
  keeps_Servo_angle : Servo_angle w' = Servo_angle w;
  keeps_n_range : n_range w' = n_range w;
  keeps_n_rand : n_rand w' = n_rand w
}.

(** ** Tilt interlock and turn memory *)

(** [abs(x) > PIRO_MAX_ANGLE] *)
Definition tilted (x : Q) : bool :=
  Qltb (inject_Z (PIRO_MAX_ANGLE cfg)) (Qabs x).

(** The value a filter currently stands at: the mean of its window. *)
Definition smoothed (f : TemporalFilter) : Q := arith_mean (held f).

(** The accumulator after a call with [lastTurnDir]. *)
Definition turnStats_after (lastTurnDir ts : Z) : Z :=
  if 0 <? lastTurnDir then ts + MEM_INC cfg
  else if lastTurnDir <? 0 then ts - MEM_INC cfg
  else ts.

(** ** Scan cycles *)

(** The events a behaviour appended to the log of [w]. *)
Definition logged {A} (m : M A) (w : World) : list Event :=
  skipn (length (log w)) (log (after m w)).

(** The values stored into the distance profile, in order. *)
Definition stored (evs : list Event) : list Z :=
  flat_map (fun e => match e with EvStore _ d => [d] | _ => [] end) evs.

(** The durations handed to [spin_ms], in order. *)
Definition spins (evs : list Event) : list Q :=
  flat_map (fun e => match e with EvSpin ms => [ms] | _ => [] end) evs.

(** The total of the durations a behaviour handed to [spin_ms]. *)
Definition waited {A} (m : M A) (w : World) : Q := Qsum (spins (logged m w)).

(** [1 if c else -1 if o else 0] *)
Definition classify (o c : bool) : Z := if c then 1 else if o then -1 else 0.

Definition is_obstacle (d : Z) : bool := d <? DIST_OBST_CM cfg.
Definition is_cliff (d : Z) : bool := DIST_CLIFF_CM cfg <? d.

(** The [k] readings, truncated by [int], that sensor [i] delivers from
    the [n]-th reading on. *)
Definition readings_from (i n k : nat) : list Z :=
  map (fun j => py_int (range_cm E i (n + j))) (seq 0 k).

(** [dd[slot] = d] for each pair in turn, on a copy. *)
Fixpoint store_all (slots : list nat) (ds dd : list Z) : list Z :=
  match slots, ds with
  | slot :: slots', d :: ds' =>
      store_all slots' ds'
        match list_set slot d dd with Some dd' => dd' | None => dd end
  | _, _ => dd
  end.

(** The value compared with the thresholds for a reading [r] of a
    sensor of the array whose filter is [f]: [int(r)], and with
    [DIST_SMOOTH >= 2] the [int] of the mean the filter returns for
    it. *)
Definition array_value (f : TemporalFilter) (r : Q) : Z :=
  if 2 <=? DIST_SMOOTH cfg
  then py_int (fst (filter_mean (inject_Z (py_int r)) f))
  else py_int r.

(** The values of the [k] sensors from sensor [first] on, each read
    once, the first of them being the [n]-th reading taken. *)
Definition array_values (fs : list TemporalFilter) (first n k : nat)
  : list Z :=
  map (fun j => array_value (nth (first + j) fs (TemporalFilter_new 0))
                            (range_cm E (first + j) (n + j)))
      (seq 0 k).

(** The values a scan cycle started in [w] with [n] sensors compares
    with the thresholds: with a single sensor the [int] of one reading
    per scan position, with an array one value per sensor. *)
Definition cycle_values (w : World) (n : nat) : list Z :=
  if (n =? 1)%nat
  then readings_from 0 (n_range w) (length (nth (_scanPos w) (heap w) []))
  else array_values (_distDataFilters w) 0 (n_range w) n.

(** The sweep in the words of the specification: at a position the head
    is driven at the scan speed, in the direction given by the sign of
    the drive time, for the magnitude of the drive time plus [added];
    then the actuator is stopped and one reading is taken and stored at
    the mapped slot. *)
Definition spec_visit (Pos : Q) (added : Z) (slot : nat) (d : Z)
  : list Event :=
  [ EvTurnSpeed (if Qltb Pos 0 then SPEED_SCAN cfg else - SPEED_SCAN cfg);
    EvSpin (Qabs Pos + inject_Z added);
    EvTurnSpeed 0;
    EvRange 0 d;
    EvStore slot d ].

(** Positions are visited in their order; nothing is added to the drive
    time but at the last position, where the bias is. *)
Fixpoint spec_sweep (poss : list Q) (slots : list nat) (ds : list Z)
  (bias : Z) : list Event :=
  match poss, slots, ds with
  | Pos :: rest, slot :: slots', d :: ds' =>
      spec_visit Pos (match rest with [] => bias | _ => 0 end) slot d
      ++ spec_sweep rest slots' ds' bias
  | _, _, _ => []
  end.

(** [SPEED_BACK_DELAY//3], the minimum duration of a cycle. *)
Definition min_cycle_ms : Q := inject_Z (SPEED_BACK_DELAY cfg / 3).

(** ** Heading hold *)

(** Heading hold is in use: [DO_WALK_STRAIGHT and not DO_FIND_LIGHT]. *)
Definition heading_hold : bool :=
  truthy (DO_WALK_STRAIGHT cfg) && negb (truthy (DO_FIND_LIGHT cfg)).

(** The bias of heading hold in the words of the specification:
    [heading_error * HEAD_ADJUST_FACT] when the magnitude of the error
    exceeds [HEAD_ADJUST_THR], else 0, the error being the current
    heading minus the target heading. *)
Definition spec_heading_bias (cfg : Config) (curr target : Q) : Q :=
  let heading_error := (curr - target)%Q in
  if Qltb (inject_Z (HEAD_ADJUST_THR cfg)) (Qabs heading_error)
  then (heading_error * inject_Z (HEAD_ADJUST_FACT cfg))%Q
  else 0%Q.

(** ** Construction *)

(** A drive time after the bias scaling. *)
Definition scaled (pos : Q) : Q := float_round (pos * bias_factor cfg pos).

(** The distinct angles in the order of their first occurrence, starting
    from those already listed in [l]. *)
Fixpoint distinct_acc (l degs : list Z) : list Z :=
  match degs with
  | [] => l
  | pos :: rest =>
      if existsb (Z.eqb pos) l then distinct_acc l rest
      else distinct_acc (l ++ [pos]) rest
  end.


(** [len(AInCh)]: the number of analog ranging sensors configured. *)
Definition analog_sensors : nat :=
  match AI_CH_IR_RANGING cfg with
  | inl _ => 1%nat
  | inr chs => length chs
  end.

(** The angles of the distance profile. *)
Definition profile_angles : list Z := distinct_acc [] (IR_SCAN_POS_DEG cfg).

End Specification.

(** * Concrete inputs *)

(** ** Configurations *)

(** The shipped configuration with [DO_WALK_STRAIGHT] switched on. *)
Definition heading_config : Config := {|
  PIRO_MAX_ANGLE   := 25;
  IR_SCAN_POS_DEG  := [-35; 0; 35; 0];
  IR_SCAN_BIAS_F   := 0%Q;
  AI_CH_IR_RANGING := inl 0;
  DIST_OBST_CM     := 9;
  DIST_CLIFF_CM    := 25;
  DIST_SMOOTH      := 0;
  AI_CH_LIGHT_R    := 3%nat;
  AI_CH_LIGHT_L    := 2%nat;
  MIN_DIST_SERVO   := 45;
  MAX_DIST_SERVO   := -45;
  SCAN_DIST_SERVO  := -25;
  SPEED_TURN       := 35;
  SPEED_SCAN       := 40;
  SPEED_BACK_DELAY := 600;
  DO_FIND_LIGHT    := 0;
  DO_WALK_STRAIGHT := 1;
  HEAD_ADJUST_FACT := -1;
  HEAD_ADJUST_THR  := 5;
  MEM_INC          := 1
|}.

(** The shipped configuration with [IR_SCAN_BIAS_F = 0.1]. *)
Definition biased_config : Config := {|
  PIRO_MAX_ANGLE   := 25;
  IR_SCAN_POS_DEG  := [-35; 0; 35; 0];
  IR_SCAN_BIAS_F   := float_round (1#10);
  AI_CH_IR_RANGING := inl 0;
  DIST_OBST_CM     := 9;
  DIST_CLIFF_CM    := 25;
  DIST_SMOOTH      := 0;
  AI_CH_LIGHT_R    := 3%nat;
  AI_CH_LIGHT_L    := 2%nat;
  MIN_DIST_SERVO   := 45;
  MAX_DIST_SERVO   := -45;
  SCAN_DIST_SERVO  := -25;
  SPEED_TURN       := 35;
  SPEED_SCAN       := 40;
  SPEED_BACK_DELAY := 600;
  DO_FIND_LIGHT    := 0;
  DO_WALK_STRAIGHT := 0;
  HEAD_ADJUST_FACT := -1;
  HEAD_ADJUST_THR  := 5;
  MEM_INC          := 1
|}.

(** The shipped configuration with [IR_SCAN_BIAS_F = 2 ** -60]. *)
Definition tiny_bias_config : Config := {|
  PIRO_MAX_ANGLE   := 25;
  IR_SCAN_POS_DEG  := [-35; 0; 35; 0];
  IR_SCAN_BIAS_F   := (1 # 2 ^ 60)%Q;
  AI_CH_IR_RANGING := inl 0;
  DIST_OBST_CM     := 9;
  DIST_CLIFF_CM    := 25;
  DIST_SMOOTH      := 0;
  AI_CH_LIGHT_R    := 3%nat;
  AI_CH_LIGHT_L    := 2%nat;
  MIN_DIST_SERVO   := 45;
  MAX_DIST_SERVO   := -45;
  SCAN_DIST_SERVO  := -25;
  SPEED_TURN       := 35;
  SPEED_SCAN       := 40;
  SPEED_BACK_DELAY := 600;
  DO_FIND_LIGHT    := 0;
  DO_WALK_STRAIGHT := 0;
  HEAD_ADJUST_FACT := -1;
  HEAD_ADJUST_THR  := 5;
  MEM_INC          := 1
|}.

(** The shipped configuration with a negative channel among two
    ranging channels. *)
Definition negative_channel_config : Config := {|
  PIRO_MAX_ANGLE   := 25;
  IR_SCAN_POS_DEG  := [-35; 0; 35; 0];
  IR_SCAN_BIAS_F   := 0%Q;
  AI_CH_IR_RANGING := inr [0; -1];
  DIST_OBST_CM     := 9;
  DIST_CLIFF_CM    := 25;
  DIST_SMOOTH      := 0;
  AI_CH_LIGHT_R    := 3%nat;
  AI_CH_LIGHT_L    := 2%nat;
  MIN_DIST_SERVO   := 45;
  MAX_DIST_SERVO   := -45;
  SCAN_DIST_SERVO  := -25;
  SPEED_TURN       := 35;
  SPEED_SCAN       := 40;
  SPEED_BACK_DELAY := 600;
  DO_FIND_LIGHT    := 0;
  DO_WALK_STRAIGHT := 0;
  HEAD_ADJUST_FACT := -1;
  HEAD_ADJUST_THR  := 5;
  MEM_INC          := 1
|}.

(** Three sensors in an array, light seeking switched on. *)
Definition array_config : Config := {|
  PIRO_MAX_ANGLE   := 25;
  IR_SCAN_POS_DEG  := [-35; 0; 35; 0];
  IR_SCAN_BIAS_F   := 0%Q;
  AI_CH_IR_RANGING := inr [0; 1; 2];
  DIST_OBST_CM     := 9;
  DIST_CLIFF_CM    := 25;
  DIST_SMOOTH      := 0;
  AI_CH_LIGHT_R    := 3%nat;
  AI_CH_LIGHT_L    := 2%nat;
  MIN_DIST_SERVO   := 45;
  MAX_DIST_SERVO   := -45;
  SCAN_DIST_SERVO  := -25;
  SPEED_TURN       := 35;
  SPEED_SCAN       := 40;
  SPEED_BACK_DELAY := 600;
  DO_FIND_LIGHT    := 1;
  DO_WALK_STRAIGHT := 0;
  HEAD_ADJUST_FACT := -1;
  HEAD_ADJUST_THR  := 5;
  MEM_INC          := 1
|}.

(** Three sensors in an array, each smoothed over up to three
    readings. *)
Definition smoothing_config : Config := {|
  PIRO_MAX_ANGLE   := 25;
  IR_SCAN_POS_DEG  := [-35; 0; 35; 0];
  IR_SCAN_BIAS_F   := 0%Q;
  AI_CH_IR_RANGING := inr [0; 1; 2];
  DIST_OBST_CM     := 9;
  DIST_CLIFF_CM    := 25;
  DIST_SMOOTH      := 3;
  AI_CH_LIGHT_R    := 3%nat;
  AI_CH_LIGHT_L    := 2%nat;
  MIN_DIST_SERVO   := 45;
  MAX_DIST_SERVO   := -45;
  SCAN_DIST_SERVO  := -25;
  SPEED_TURN       := 35;
  SPEED_SCAN       := 40;
  SPEED_BACK_DELAY := 600;
  DO_FIND_LIGHT    := 0;
  DO_WALK_STRAIGHT := 0;
  HEAD_ADJUST_FACT := -1;
  HEAD_ADJUST_THR  := 5;
  MEM_INC          := 1
|}.

(** Four sensors in an array over the shipped scan positions, which
    have three distinct angles. *)
Definition array4_config : Config := {|
  PIRO_MAX_ANGLE   := 25;
  IR_SCAN_POS_DEG  := [-35; 0; 35; 0];
  IR_SCAN_BIAS_F   := 0%Q;
  AI_CH_IR_RANGING := inr [0; 1; 2; 3];
  DIST_OBST_CM     := 9;
  DIST_CLIFF_CM    := 25;
  DIST_SMOOTH      := 0;
  AI_CH_LIGHT_R    := 3%nat;
  AI_CH_LIGHT_L    := 2%nat;
  MIN_DIST_SERVO   := 45;
  MAX_DIST_SERVO   := -45;
  SCAN_DIST_SERVO  := -25;
  SPEED_TURN       := 35;
  SPEED_SCAN       := 40;
  SPEED_BACK_DELAY := 600;
  DO_FIND_LIGHT    := 0;
  DO_WALK_STRAIGHT := 0;
  HEAD_ADJUST_FACT := -1;
  HEAD_ADJUST_THR  := 5;
  MEM_INC          := 1
|}.

(** Three positions, the first two at the same angle. *)
Definition repeat_first_config : Config := {|
  PIRO_MAX_ANGLE   := 25;
  IR_SCAN_POS_DEG  := [0; 0; 35];
  IR_SCAN_BIAS_F   := 0%Q;
  AI_CH_IR_RANGING := inl 0;
  DIST_OBST_CM     := 9;
  DIST_CLIFF_CM    := 25;
  DIST_SMOOTH      := 0;
  AI_CH_LIGHT_R    := 3%nat;
  AI_CH_LIGHT_L    := 2%nat;
  MIN_DIST_SERVO   := 45;
  MAX_DIST_SERVO   := -45;
  SCAN_DIST_SERVO  := -25;
  SPEED_TURN       := 35;
  SPEED_SCAN       := 40;
  SPEED_BACK_DELAY := 600;
  DO_FIND_LIGHT    := 0;
  DO_WALK_STRAIGHT := 0;
  HEAD_ADJUST_FACT := -1;
  HEAD_ADJUST_THR  := 5;
  MEM_INC          := 1
|}.

(** ** Environments *)

(** Eight level samples followed by one sample pitched at 90 degrees:
    the raw pitch exceeds the limit of 25, the mean over the window of
    eight (11.25) does not, and the robot is not put on hold. *)
Definition jolt_env : Env := {|
  range_cm := fun _ _ => 0%Q;
  rand_raw := fun _ => 0%nat;
  getHeading3D := fun n => mkEHPR 0 0 (if (n =? 8)%nat then 90#1 else 0)%Q 0;
  getHeading := fun _ => 0%Q;
  MCP3208_data := fun _ _ => 0;
  spin_ticks := fun _ => 0%nat;
  spin_fault := fun _ => false
|}.

(** A robot lying on its side: every sample is rolled by 80 degrees. *)
Definition fallen_env : Env := {|
  range_cm := fun _ _ => 0%Q;
  rand_raw := fun _ => 0%nat;
  getHeading3D := fun _ => mkEHPR 0 0 0 (80#1)%Q;
  getHeading := fun _ => 0%Q;
  MCP3208_data := fun _ _ => 0;
  spin_ticks := fun _ => 0%nat;
  spin_fault := fun _ => false
|}.

(** The robot falls on its side during the first wait. *)
Definition falling_env : Env := {|
  range_cm := fun _ _ => (15#1)%Q;
  rand_raw := fun _ => 0%nat;
  getHeading3D := fun _ => mkEHPR 0 0 0 (80#1)%Q;
  getHeading := fun _ => 0%Q;
  MCP3208_data := fun _ _ => 0;
  spin_ticks := fun _ => 1%nat;
  spin_fault := fun _ => false
|}.

(** The third wait ends in an exception. *)
Definition failing_env : Env := {|
  range_cm := fun _ _ => (15#1)%Q;
  rand_raw := fun _ => 0%nat;
  getHeading3D := fun _ => mkEHPR 0 0 0 0;
  getHeading := fun _ => 0%Q;
  MCP3208_data := fun _ _ => 0;
  spin_ticks := fun _ => 0%nat;
  spin_fault := fun n => (n =? 2)%nat
|}.

(** Level ground at 15 cm under every sensor; the left photodiode reads
    [left], the right one 0. *)
Definition lit_env (left : Z) : Env := {|
  range_cm := fun _ _ => (15#1)%Q;
  rand_raw := fun _ => 0%nat;
  getHeading3D := fun _ => mkEHPR 0 0 0 0;
  getHeading := fun _ => 0%Q;
  MCP3208_data := fun _ ch => if (ch =? 2)%nat then left else 0;
  spin_ticks := fun _ => 0%nat;
  spin_fault := fun _ => false
|}.

(** The compass reads 0 when the robot is constructed and [later] from
    then on; level ground at 15 cm. *)
Definition compass_env (later : Q) : Env := {|
  range_cm := fun _ _ => (15#1)%Q;
  rand_raw := fun _ => 0%nat;
  getHeading3D := fun _ => mkEHPR 0 later 0 0;
  getHeading := fun n => if (n =? 0)%nat then 0%Q else later;
  MCP3208_data := fun _ _ => 0;
  spin_ticks := fun _ => 0%nat;
  spin_fault := fun _ => false
|}.

(** ** Robots *)

(** The robot as constructed from the shipped configuration. *)
Definition shipped_bug (E : Env) : World :=
  after (__init__ E hexbug_config false) (imported IR_SCAN_POS_shipped).

Definition walking_bug (E : Env) : World :=
  set_MotorWalk_speed (-55) (set_state STATE_WALKING (shipped_bug E)).

Definition heading_bug (E : Env) : World :=
  after (__init__ E heading_config false) (imported IR_SCAN_POS_shipped).

(** The array robot after construction and one housekeeper tick. *)
Definition array_bug (E : Env) : World :=
  after (housekeeper E array_config)
    (after (__init__ E array_config false) (imported IR_SCAN_POS_shipped)).

(** * Further definitions *)

(** ** What a behaviour leaves alone *)

(** A behaviour respects a relation when every run of it, returning or
    raising, relates the world before to the world after. *)
Definition respects (R : World -> World -> Prop) {A} (m : M A) : Prop :=
  forall w, R w (snd (m w)).

(** What no scan cycle changes. *)
Record scan_frame (w w' : World) : Prop := mkScanFrame {
  scan_heap : heap w' = heap w;
  scan_IR_SCAN_POS : IR_SCAN_POS w' = IR_SCAN_POS w;
  scan_nRangingSensor : nRangingSensor w' = nRangingSensor w;
  scan_scanPos : _scanPos w' = _scanPos w;
  scan_iScanPos : _iScanPos w' = _iScanPos w;
  scan_profile_length : length (_distData w') = length (_distData w);
  scan_filters_length :
    length (_distDataFilters w') = length (_distDataFilters w);
  scan_turnStats : turnStats w' = turnStats w;
  scan_cpsTargetHead : cpsTargetHead w' = cpsTargetHead w;
  scan_targetHead : _targetHead w' = _targetHead w;
  scan_Servo_angle : Servo_angle w' = Servo_angle w;
  scan_n_rand : n_rand w' = n_rand w
}.

(** What [lookAround] does not change; a walk motor found stopped
    stays stopped. *)
Record look_frame (w w' : World) : Prop := mkLookFrame {
  look_heap : heap w' = heap w;
  look_nRangingSensor : nRangingSensor w' = nRangingSensor w;
  look_scanPos : _scanPos w' = _scanPos w;
  look_iScanPos : _iScanPos w' = _iScanPos w;
  look_distData : _distData w' = _distData w;
  look_distDataFilters : _distDataFilters w' = _distDataFilters w;
  look_turnBias : _turnBias w' = _turnBias w;
  look_turnStats : turnStats w' = turnStats w;
  look_cpsTargetHead : cpsTargetHead w' = cpsTargetHead w;
  look_n_range : n_range w' = n_range w;
  look_MotorWalk : MotorWalk_speed w = 0 -> MotorWalk_speed w' = 0
}.

(** ** Commands of [lookAround] *)

(** [max(MAX_DIST_SERVO, MIN_DIST_SERVO)] *)
Definition maxPit (cfg : Config) : Z :=
  Z.max (MAX_DIST_SERVO cfg) (MIN_DIST_SERVO cfg).

(** The commands [lookAround] may issue: the walk motor is only stopped;
    the turn motor is stopped or driven at [SPEED_TURN] either way; the
    servo is sent to the neutral angle or to a pitch clamped between 0
    and [maxPit]; a wait lasts between 0 and 800 ms; nothing is read
    from the ranging sensors or stored in the profile. *)
Definition look_command (cfg : Config) (e : Event) : Prop :=
  match e with
  | EvWalkSpeed v => v = 0
  | EvTurnSpeed v => v = 0 \/ v = SPEED_TURN cfg \/ v = - SPEED_TURN cfg
  | EvServoAngle a =>
      a = SCAN_DIST_SERVO cfg
      \/ (Z.min 0 (maxPit cfg) <= a <= maxPit cfg)
  | EvSpin ms => (0 <= ms <= inject_Z 800)%Q
  | EvRange _ _ => False
  | EvStore _ _ => False
  end.

(** ** Waits of a sweep *)

(** The durations of the waits of a sweep over [poss]: the magnitude of
    each drive time, plus the bias at the last position. *)
Fixpoint sweep_waits (poss : list Q) (bias : Z) : list Q :=
  match poss with
  | [] => []
  | Pos :: rest =>
      (Qabs Pos + inject_Z (match rest with [] => bias | _ => 0 end))%Q
      :: sweep_waits rest bias
  end.

(** The shipped configuration with light seeking switched on. *)
Definition light_config : Config := {|
  PIRO_MAX_ANGLE   := 25;
  IR_SCAN_POS_DEG  := [-35; 0; 35; 0];
  IR_SCAN_BIAS_F   := 0%Q;
  AI_CH_IR_RANGING := inl 0;
  DIST_OBST_CM     := 9;
  DIST_CLIFF_CM    := 25;
  DIST_SMOOTH      := 0;
  AI_CH_LIGHT_R    := 3%nat;
  AI_CH_LIGHT_L    := 2%nat;
  MIN_DIST_SERVO   := 45;
  MAX_DIST_SERVO   := -45;
  SCAN_DIST_SERVO  := -25;
  SPEED_TURN       := 35;
  SPEED_SCAN       := 40;
  SPEED_BACK_DELAY := 600;
  DO_FIND_LIGHT    := 1;
  DO_WALK_STRAIGHT := 1;
  HEAD_ADJUST_FACT := -1;
  HEAD_ADJUST_THR  := 5;
  MEM_INC          := 1
|}.

(** The light-seeking robot after construction and one housekeeper
    tick. *)
Definition light_bug (E : Env) : World :=
  after (housekeeper E light_config)
    (after (__init__ E light_config false) (imported IR_SCAN_POS_shipped)).

(** The first wait ends in an exception. *)
Definition first_wait_fails_env : Env := {|
  range_cm := fun _ _ => (15#1)%Q;
  rand_raw := fun _ => 0%nat;
  getHeading3D := fun _ => mkEHPR 0 0 0 0;
  getHeading := fun _ => 0%Q;
  MCP3208_data := fun _ _ => 0;
  spin_ticks := fun _ => 2%nat;
  spin_fault := fun n => (n =? 0)%nat
|}.

(** The robot lies on its side, and the first wait ends in an
    exception after one tick. *)
Definition fallen_wait_fails_env : Env := {|
  range_cm := fun _ _ => (15#1)%Q;
  rand_raw := fun _ => 0%nat;
  getHeading3D := fun _ => mkEHPR 0 0 0 (80#1)%Q;
  getHeading := fun _ => 0%Q;
  MCP3208_data := fun _ _ => 0;
  spin_ticks := fun _ => 1%nat;
  spin_fault := fun n => (n =? 0)%nat
|}.

(** The turn motor runs at [v], or the robot was put on hold. *)
Definition driven_or_held (v : Z) (w : World) : Prop :=
  MotorTurn_speed w = v
  \/ (MotorTurn_speed w = 0 /\ state w = STATE_ON_HOLD).

(** Even light on the left; the right photodiode reads [right]. *)
Definition glare_env (right : Z) : Env := {|
  range_cm := fun _ _ => (15#1)%Q;
  rand_raw := fun _ => 0%nat;
  getHeading3D := fun _ => mkEHPR 0 0 0 0;
  getHeading := fun _ => 0%Q;
  MCP3208_data := fun _ ch => if (ch =? 3)%nat then right else 0;
  spin_ticks := fun _ => 0%nat;
  spin_fault := fun _ => false
|}.

(** ** Napping *)

Section Nap.

Variable E : Env.
Variable cfg : Config.

(** Modelled from the spec: [Robotling.dimNeoPixel] of [robotling.py],
    which is not part of the sources at hand.  It sets the brightness of
    the indicator, which [World] does not hold. *)
Definition dimNeoPixel (fraction : Q) : M unit := ret tt.

(** Modelled from the spec: [Robotling.sleepLightly] of [robotling.py],
    which is not part of the sources at hand.  The robot is suspended
    for the given number of seconds, during which nothing else runs. *)
Definition sleepLightly (seconds : Z) : M unit := ret tt.

(** [for i in range(10, -1, -1)] and [for i in range(0, 11)]: [n] steps
    of the brightness ramp, the next one being step [i], the index
    moving by [step]. *)
Fixpoint dim_ramp (n : nat) (i step : Z) : M unit :=
  match n with
  | O => ret tt
  | S n' =>
      dimNeoPixel (inject_Z i / inject_Z 10) ;;
      spin_ms E cfg (inject_Z 250) ;;
      dim_ramp n' (i + step) step
  end.

(** [for p in range(0, SCAN_DIST_SERVO, -1)]: [n] steps down from
    angle [p]. *)
Fixpoint drop_arm (n : nat) (p : Z) : M unit :=
  match n with
  | O => ret tt
  | S n' =>
      Servo_set_angle p ;;
      spin_ms E cfg (inject_Z 10) ;;
      drop_arm n' (p - 1)
  end.

(** [nap].  The constants [NAP_FROM_S] and [NAP_TO_S] of the
    configuration file are arguments. *)
Definition nap (NAP_FROM_S NAP_TO_S : Z) : M unit :=
  prevState <- get state ;;
  modify (set_state STATE_WAKING_UP) ;;
  housekeeper E cfg ;;
  MotorWalk_set_speed 0 ;;
  MotorTurn_set_speed 0 ;;
  Servo_set_angle 0 ;;
  dim_ramp 11 10 (-1) ;;
  drop_arm (Z.to_nat (- SCAN_DIST_SERVO cfg)) 0 ;;
  dimNeoPixel 1 ;;
  spin_ms E cfg (inject_Z 100) ;;
  dimNeoPixel 0 ;;
  s <- randint E NAP_FROM_S NAP_TO_S ;;
  sleepLightly s ;;
  modify (set_state prevState) ;;
  Servo_set_angle (SCAN_DIST_SERVO cfg) ;;
  housekeeper E cfg ;;
  dim_ramp 11 0 1.

End Nap.

(** The angles the arm is sent to while it is dropped: [n] of them,
    from [p] downwards. *)
Fixpoint drop_angles (n : nat) (p : Z) : list Z :=
  match n with
  | O => []
  | S n' => p :: drop_angles n' (p - 1)
  end.

(** The angles commanded to the servo, in order. *)
Definition servo_angles (evs : list Event) : list Z :=
  flat_map (fun e => match e with EvServoAngle a => [a] | _ => [] end) evs.

(** Both motors stand still. *)
Definition motors_stopped (w : World) : Prop :=
  MotorWalk_speed w = 0 /\ MotorTurn_speed w = 0.

(** A behaviour appends [evs] to the log whenever it returns. *)
Definition appends (evs : list Event) {A} (m : M A) : Prop :=
  forall w a w', m w = (Ok a, w') -> log w' = log w ++ evs.

(** The commands and waits of a nap, for a servo at rest angle [s]. *)
Definition nap_events (s : Z) : list Event :=
  [EvWalkSpeed 0; EvTurnSpeed 0; EvServoAngle 0]
  ++ repeat (EvSpin (inject_Z 250)) 11
  ++ flat_map (fun p => [EvServoAngle p; EvSpin (inject_Z 10)])
       (drop_angles (Z.to_nat (- s)) 0)
  ++ [EvSpin (inject_Z 100); EvServoAngle s]
  ++ repeat (EvSpin (inject_Z 250)) 11.

(** A robot found on hold has its servo off and says so in its state. *)
Definition held_safely (w : World) : Prop :=
  onHold w = true -> Servo_on w = false /\ state w = STATE_ON_HOLD.

(** Whatever a behaviour does, a world in which [Q] holds is left as
    one in which it holds. *)
Definition preserves (Q : World -> Prop) (w w' : World) : Prop := Q w -> Q w'.

(** Awake again: the state is the one before the nap unless the robot
    is on hold, a robot on hold is held safely, the arm is where the
    scan wants it. *)
Definition woken (cfg : Config) (prevState : Z) (w : World) : Prop :=
  (state w = prevState \/ state w = STATE_ON_HOLD)
  /\ held_safely w
  /\ Servo_angle w = SCAN_DIST_SERVO cfg.

(** The robot is tilted by 80 degrees at every sample but the first
    [n]. *)
Definition falls_after (n : nat) : Env := {|
  range_cm := fun _ _ => 0%Q;
  rand_raw := fun _ => 7%nat;
  getHeading3D :=
    fun k => mkEHPR 0 0 0 (if (k <? n)%nat then 0 else 80#1)%Q;
  getHeading := fun _ => 0%Q;
  MCP3208_data := fun _ _ => 0;
  spin_ticks := fun _ => 1%nat;
  spin_fault := fun _ => false
|}.

(** * Properties *)

(** ** Numbers *)

Lemma Qltb_spec (a b : Q) : Qltb a b = true <-> (a < b)%Q.
Proof. unfold Qltb, Qlt. apply Z.ltb_lt. Qed.

Lemma Qltb_false (a b : Q) : Qltb a b = false <-> (b <= a)%Q.
Proof. unfold Qltb, Qle. rewrite Z.ltb_ge. reflexivity. Qed.

Lemma py_int_inject (z : Z) : py_int (inject_Z z) = z.
Proof. unfold py_int. simpl. apply Z.quot_1_r. Qed.

(** ** Rounding to a double *)

Lemma shl_pos (n k : Z) : 0 < n -> 0 < shl n k.
Proof.
  intros H. unfold shl. apply Z.mul_pos_pos; [exact H|].
  apply Z.pow_pos_nonneg; lia.
Qed.

Lemma shl_mono (n j k : Z) : 0 < n -> j <= k -> shl n j <= shl n k.
Proof.
  intros Hn Hjk. unfold shl. apply Z.mul_le_mono_nonneg_l; [lia|].
  apply Z.pow_le_mono_r; lia.
Qed.

(** [2 ** e <= n / d], cross-multiplied. *)
Lemma float_exponent_le (n d : Z) :
  0 < n -> 0 < d ->
  shl d (float_exponent n d) <= shl n (- float_exponent n d).
Proof.
  intros Hn Hd. unfold float_exponent.
  destruct (Z.leb_spec (shl d (Z.log2 n - Z.log2 d))
                       (shl n (- (Z.log2 n - Z.log2 d)))) as [H|_];
    [exact H|].
  destruct (Z.log2_spec n Hn) as [Hn1 _].
  destruct (Z.log2_spec d Hd) as [_ Hd2].
  pose proof (Z.log2_nonneg n) as Hln. pose proof (Z.log2_nonneg d) as Hld.
  set (ln := Z.log2 n) in *. set (ld := Z.log2 d) in *.
  unfold shl.
  destruct (Z.le_gt_cases 0 (ln - ld - 1)) as [He|He].
  - rewrite (Z.max_r 0 (ln - ld - 1)), (Z.max_l 0 (- (ln - ld - 1))) by lia.
    rewrite Z.pow_0_r, Z.mul_1_r.
    apply Z.le_trans with (2 ^ Z.succ ld * 2 ^ (ln - ld - 1)).
    + apply Z.mul_le_mono_nonneg_r; [apply Z.pow_nonneg; lia | lia].
    + rewrite <- Z.pow_add_r by lia.
      replace (Z.succ ld + (ln - ld - 1)) with ln by lia. exact Hn1.
  - rewrite (Z.max_l 0 (ln - ld - 1)), (Z.max_r 0 (- (ln - ld - 1))) by lia.
    rewrite Z.pow_0_r, Z.mul_1_r.
    apply Z.le_trans with (2 ^ ln * 2 ^ (- (ln - ld - 1))).
    + rewrite <- Z.pow_add_r by lia.
      replace (ln + - (ln - ld - 1)) with (Z.succ ld) by lia. lia.
    + apply Z.mul_le_mono_nonneg_r; [apply Z.pow_nonneg; lia | exact Hn1].
Qed.

Lemma round_half_even_pos (n d : Z) :
  0 < d -> d <= n -> 0 < round_half_even n d.
Proof.
  intros Hd Hn. unfold round_half_even.
  assert (Hq : 1 <= n / d) by (apply Z.div_le_lower_bound; lia).
  destruct (2 * (n mod d) ?= d); [destruct (Z.even _)| |]; lia.
Qed.

(** The significand of a number that is not zero is not zero. *)
Lemma float_mantissa_pos (n d : Z) :
  0 < n -> 0 < d ->
  let s := float_exponent n d - 52 in
  0 < round_half_even (shl n (- s)) (shl d s).
Proof.
  intros Hn Hd s. apply round_half_even_pos; [apply shl_pos; exact Hd|].
  pose proof (float_exponent_le n d Hn Hd) as He.
  apply Z.le_trans with (shl d (float_exponent n d)).
  - apply shl_mono; [exact Hd | unfold s; lia].
  - apply Z.le_trans with (shl n (- float_exponent n d)); [exact He|].
    apply shl_mono; [exact Hn | unfold s; lia].
Qed.

Lemma Qred_sgn (x : Q) : Z.sgn (Qnum (Qred x)) = Z.sgn (Qnum x).
Proof.
  pose proof (Qred_correct x) as H. unfold Qeq in H.
  apply (f_equal Z.sgn) in H. rewrite !Z.sgn_mul in H.
  rewrite !(Z.sgn_pos (Zpos _)) in H by reflexivity. lia.
Qed.

(** Rounding keeps the sign. *)
Lemma float_round_sgn (q : Q) :
  Z.sgn (Qnum (float_round q)) = Z.sgn (Qnum q).
Proof.
  unfold float_round.
  destruct (Z.eqb_spec (Z.abs (Qnum q)) 0) as [H0|H0].
  - cbn [Qnum]. lia.
  - rewrite Qred_sgn. cbn [Qnum]. rewrite Z.sgn_mul, Z.sgn_sgn.
    rewrite (Z.sgn_pos (shl _ _)); [lia|].
    apply shl_pos. apply float_mantissa_pos; [lia | reflexivity].
Qed.

Lemma Qltb_0_r (q : Q) : Qltb q 0 = (Z.sgn (Qnum q) =? -1).
Proof.
  unfold Qltb. cbn [Qnum Qden]. rewrite Z.mul_1_r, Z.mul_0_l.
  destruct (Qnum q); reflexivity.
Qed.

Lemma Qltb_0_l (q : Q) : Qltb 0 q = (Z.sgn (Qnum q) =? 1).
Proof.
  unfold Qltb. cbn [Qnum Qden]. rewrite Z.mul_1_r, Z.mul_0_l.
  destruct (Qnum q); reflexivity.
Qed.

Lemma float_round_neg (q : Q) : Qltb (float_round q) 0 = Qltb q 0.
Proof. rewrite !Qltb_0_r, float_round_sgn. reflexivity. Qed.

Lemma float_round_pos (q : Q) : Qltb 0 (float_round q) = Qltb 0 q.
Proof. rewrite !Qltb_0_l, float_round_sgn. reflexivity. Qed.

(** The rounding agrees with CPython on [0.1], [1. + 0.1],
    [330.0 * 1.1], a tie ([2 ** 53 + 1]) and [1. + 2 ** -60]. *)
Example float_round_samples :
  float_round (1 # 10) = 3602879701896397 # 36028797018963968
  /\ float_round (1 + float_round (1 # 10))
     = 2476979795053773 # 2251799813685248
  /\ float_round (330 * (2476979795053773 # 2251799813685248))
     = 6385963534123009 # 17592186044416
  /\ float_round (9007199254740993 # 1) = 9007199254740992 # 1
  /\ float_round (9007199254740995 # 1) = 9007199254740996 # 1
  /\ float_round (1 + (1 # 2 ^ 60)) = 1%Q
  /\ float_round (- (1 # 3)) = -6004799503160661 # 18014398509481984.
Proof. vm_compute. repeat split. Qed.

(** ** The monad *)

Lemma bind_Ok {A B} (m : M A) (k : A -> M B) w a w1 :
  m w = (Ok a, w1) -> bind m k w = k a w1.
Proof. intros H. unfold bind. rewrite H. reflexivity. Qed.

Lemma bind_Raise {A B} (m : M A) (k : A -> M B) w e w1 :
  m w = (Raise e, w1) -> bind m k w = (Raise e, w1).
Proof. intros H. unfold bind. rewrite H. reflexivity. Qed.

Lemma bind_Ok_inv {A B} (m : M A) (k : A -> M B) w b w' :
  bind m k w = (Ok b, w') ->
  exists a w1, m w = (Ok a, w1) /\ k a w1 = (Ok b, w').
Proof.
  unfold bind. destruct (m w) as [[a|e] w1]; intros H.
  - exists a, w1. split; [reflexivity | exact H].
  - discriminate H.
Qed.

Lemma bind_bind {A B C} (m : M A) (k : A -> M B) (k' : B -> M C) w :
  bind (bind m k) k' w = bind m (fun a => bind (k a) k') w.
Proof. unfold bind. destruct (m w) as [[a|e] w1]; reflexivity. Qed.

Lemma bind_ret {A B} (a : A) (k : A -> M B) w : bind (ret a) k w = k a w.
Proof. reflexivity. Qed.

Lemma bind_get {A B} (f : World -> A) (k : A -> M B) w :
  bind (get f) k w = k (f w) w.
Proof. reflexivity. Qed.

Lemma bind_modify {B} (f : World -> World) (k : unit -> M B) w :
  bind (modify f) k w = k tt (f w).
Proof. reflexivity. Qed.

Lemma bind_attr {A B} (f : World -> option A) (k : A -> M B) w a :
  f w = Some a -> bind (attr f) k w = k a w.
Proof. intros H. unfold bind, attr. rewrite H. reflexivity. Qed.

Lemma attr_inv {A} (f : World -> option A) w a w' :
  attr f w = (Ok a, w') -> f w = Some a /\ w' = w.
Proof.
  unfold attr. destruct (f w); intros H; inversion H; auto.
Qed.

(** ** What the timer callback leaves alone *)

Lemma keeps_refl w : keeps w w.
Proof. constructor; reflexivity. Qed.

Lemma keeps_trans w1 w2 w3 : keeps w1 w2 -> keeps w2 w3 -> keeps w1 w3.
Proof.
  intros [] []. constructor; etransitivity; eassumption.
Qed.

Section Background.

Variable E : Env.
Variable cfg : Config.

Lemma housekeeper_total w : fst (housekeeper E cfg w) = Ok tt.
Proof.
  unfold housekeeper, Compass_getHeading3D, bind, get, modify, ret. simpl.
  destruct (Qltb _ _ || Qltb _ _); destruct (truthy _); reflexivity.
Qed.

Lemma housekeeper_keeps w :
  keeps w (snd (housekeeper E cfg w))
  /\ n_spin (snd (housekeeper E cfg w)) = n_spin w
  /\ log (snd (housekeeper E cfg w)) = log w.
Proof.
  unfold housekeeper, Compass_getHeading3D, bind, get, modify, ret. simpl.
  destruct (Qltb _ _ || Qltb _ _); destruct (truthy _); simpl;
    (split; [constructor; reflexivity | split; reflexivity]).
Qed.

Lemma ticks_run n w :
  exists w', repeatM n (housekeeper E cfg) w = (Ok tt, w')
             /\ keeps w w' /\ n_spin w' = n_spin w /\ log w' = log w.
Proof.
  revert w. induction n as [|n IH]; intros w; simpl.
  - exists w. auto using keeps_refl.
  - pose proof (housekeeper_total w) as Ht.
    destruct (housekeeper_keeps w) as (Hk & Hs & Hl).
    destruct (housekeeper E cfg w) as [r w1] eqn:Hh. simpl in *. subst r.
    destruct (IH w1) as (w' & Hrun & Hk' & Hs' & Hl').
    exists w'. rewrite (bind_Ok _ _ _ _ _ Hh).
    refine (conj Hrun (conj _ (conj _ _))); try congruence.
    eapply keeps_trans; eassumption.
Qed.

(** A wait logs itself, lets the callback run and either returns or
    fails as the environment says. *)
Lemma spin_ms_run ms w :
  exists w',
    spin_ms E cfg ms w
    = (if spin_fault E (n_spin w) then Raise Fault else Ok tt, w')
    /\ keeps w w'
    /\ n_spin w' = S (n_spin w)
    /\ log w' = log w ++ [EvSpin ms].
Proof.
  unfold spin_ms, emit.
  destruct (ticks_run (spin_ticks E (n_spin w))
              (set_n_spin (S (n_spin w)) (set_log (log w ++ [EvSpin ms]) w)))
    as (w' & Hrun & Hk & Hs & Hl).
  exists w'. unfold bind at 1. unfold modify at 1. unfold bind at 1.
  unfold get at 1. simpl. unfold bind at 1. unfold modify at 1.
  unfold bind at 1. simpl in Hrun. rewrite Hrun.
  split.
  - destruct (spin_fault E (n_spin w)); reflexivity.
  - simpl in *. refine (conj _ (conj Hs Hl)).
    destruct Hk; constructor; assumption.
Qed.

End Background.
(** ** Tilt interlock ([housekeeper]) *)

Section Interlock.

Variable E : Env.
Variable cfg : Config.

(** C7.  After a housekeeper tick, from any world: the pitch and roll
    filters have taken in the fresh compass sample, [onHold] is true
    exactly when the magnitude of the smoothed pitch or of the smoothed
    roll exceeds [PIRO_MAX_ANGLE], and when [onHold] is true both motors
    stand at speed 0, the ranging servo is powered off and the state is
    [STATE_ON_HOLD]. *)
Theorem housekeeper_interlock (w : World) :
  let w' := after (housekeeper E cfg) w in
  let s := getHeading3D E (n_compass w) in
  result (housekeeper E cfg) w = Ok tt
  /\ PitchFilter w' = filter_push (ehpr_pitch s) (PitchFilter w)
  /\ RollFilter w' = filter_push (ehpr_roll s) (RollFilter w)
  /\ onHold w' = tilted cfg (smoothed (PitchFilter w'))
                 || tilted cfg (smoothed (RollFilter w'))
  /\ (onHold w' = true ->
      MotorTurn_speed w' = 0 /\ MotorWalk_speed w' = 0
      /\ Servo_on w' = false /\ state w' = STATE_ON_HOLD).
Proof.
  unfold after, result, tilted, smoothed.
  unfold housekeeper, Compass_getHeading3D, bind, get, modify, ret. simpl.
  destruct (Qltb _ _ || Qltb _ _) eqn:Hh; destruct (truthy _); simpl;
    rewrite Hh; repeat split; intros; try reflexivity; discriminate.
Qed.

End Interlock.

Example housekeeper_smooths_jolt :
  let w := after (repeatM 9 (housekeeper jolt_env hexbug_config))
                 (imported IR_SCAN_POS_shipped) in
  ehpr_pitch (getHeading3D jolt_env 8) = (90#1)%Q
  /\ onHold w = false /\ state w = STATE_IDLE.
Proof. vm_compute. repeat split. Qed.

Example housekeeper_holds_fallen :
  let w := after (housekeeper fallen_env hexbug_config)
                 (set_MotorWalk_speed (-55) (set_state STATE_WALKING
                    (imported IR_SCAN_POS_shipped))) in
  onHold w = true /\ MotorWalk_speed w = 0 /\ state w = STATE_ON_HOLD.
Proof. vm_compute. repeat split. Qed.

(** ** Turn memory ([_nextTurnDir]) *)

Section TurnMemory.

Variable E : Env.
Variable cfg : Config.

(** C8.  [_nextTurnDir] adds [MEM_INC] to [turnStats] after a turn in
    the positive direction, subtracts it after a turn in the negative
    direction and leaves it alone for 0; it returns -1 or +1; when the
    updated accumulator is not zero the result is its sign and no random
    number is drawn, and when it is zero exactly one is drawn. *)
Theorem nextTurnDir_spec (lastTurnDir : Z) (w : World) :
  let w' := after (_nextTurnDir E cfg lastTurnDir) w in
  let ts' := turnStats_after cfg lastTurnDir (turnStats w) in
  turnStats w' = ts'
  /\ (exists r, result (_nextTurnDir E cfg lastTurnDir) w = Ok r
                /\ (r = -1 \/ r = 1)
                /\ (ts' <> 0 -> r = Z.sgn ts'))
  /\ n_rand w' = (if ts' =? 0 then S (n_rand w) else n_rand w).
Proof.
  unfold after, result, turnStats_after, _nextTurnDir.
  unfold randint, py_getitem, bind, get, modify, ret, raise. simpl.
  assert (Hsgn : forall t, t <> 0 -> (if 0 <? t then 1 else -1) = Z.sgn t).
  { intros t Ht. destruct (Z.ltb_spec 0 t);
      [rewrite Z.sgn_pos | rewrite Z.sgn_neg]; lia. }
  assert (Hm : Z.of_nat (rand_raw E (n_rand w)) mod 2 = 0
               \/ Z.of_nat (rand_raw E (n_rand w)) mod 2 = 1).
  { pose proof (Z.mod_pos_bound (Z.of_nat (rand_raw E (n_rand w))) 2). lia. }
  destruct (Z.eqb_spec lastTurnDir 0) as [-> | Hd]; simpl.
  - destruct (Z.eqb_spec (turnStats w) 0) as [H0 | H0]; simpl.
    + destruct Hm as [-> | ->]; simpl; (split; [reflexivity|]);
        (split; [|reflexivity]); eexists; (split; [reflexivity|]);
        split; auto; intros; contradiction.
    + split; [reflexivity|]. split; [|reflexivity].
      eexists; split; [reflexivity|].
      split; [destruct (0 <? turnStats w); auto | intros _; auto].
  - destruct (Z.ltb_spec 0 lastTurnDir) as [Hp | Hp];
      [| destruct (Z.ltb_spec lastTurnDir 0); [| lia] ];
      replace (turnStats w + - MEM_INC cfg) with (turnStats w - MEM_INC cfg)
        by lia;
      match goal with
      | |- context [?t =? 0] => destruct (Z.eqb_spec t 0) as [H0|H0]
      end; simpl.
    1,3: destruct Hm as [-> | ->]; simpl; (split; [reflexivity|]);
        (split; [|reflexivity]); eexists; (split; [reflexivity|]);
        split; auto; intros; contradiction.
    all: (split; [reflexivity|]); (split; [|reflexivity]);
      eexists; (split; [reflexivity|]);
      (split; [ match goal with |- context [0 <? ?t] => destruct (0 <? t) end;
                auto
              | intros _; auto ]).
Qed.

End TurnMemory.

(** Three failed turns to the right make the choice deterministic. *)
Example nextTurnDir_reinforces :
  let E := quiet_env [] in
  let w := after (_nextTurnDir E hexbug_config 1)
             (after (_nextTurnDir E hexbug_config 1)
                (imported IR_SCAN_POS_shipped)) in
  turnStats w = 2 /\ result (_nextTurnDir E hexbug_config 1) w = Ok 1
  /\ result (_nextTurnDir E hexbug_config 0) w = Ok 1.
Proof. vm_compute. repeat split. Qed.
(** ** Stepping through a behaviour *)

(** Unfolds the monad, the deterministic primitives and the projections
    of updated worlds, and nothing else. *)
Ltac wsimpl :=
  cbn [bind ret get modify emit raise attr fst snd
       MotorTurn_set_speed MotorWalk_set_speed Servo_set_angle read_range
       heap IR_SCAN_POS nRangingSensor _scanPos _iScanPos onTrouble _distData
       _distDataFilters _turnBias turnStats cpsTargetHead _targetHead currHead
       lightDiff LightDiffFilter onHold PitchFilter RollFilter state
       MotorTurn_speed MotorWalk_speed Servo_angle Servo_on pixel n_range
       n_rand n_compass n_spin log
       set_heap set_IR_SCAN_POS set_nRangingSensor set__scanPos set__iScanPos
       set_onTrouble set__distData set__distDataFilters set__turnBias
       set_turnStats set_cpsTargetHead set__targetHead set_currHead
       set_lightDiff set_LightDiffFilter set_onHold set_PitchFilter
       set_RollFilter set_state set_MotorTurn_speed set_MotorWalk_speed
       set_Servo_angle set_Servo_on set_pixel set_n_range set_n_rand
       set_n_compass set_n_spin set_log] in *.

Ltac wsimpl_goal :=
  cbn [bind ret get modify emit raise attr fst snd
       MotorTurn_set_speed MotorWalk_set_speed Servo_set_angle read_range
       heap IR_SCAN_POS nRangingSensor _scanPos _iScanPos onTrouble _distData
       _distDataFilters _turnBias turnStats cpsTargetHead _targetHead currHead
       lightDiff LightDiffFilter onHold PitchFilter RollFilter state
       MotorTurn_speed MotorWalk_speed Servo_angle Servo_on pixel n_range
       n_rand n_compass n_spin log
       set_heap set_IR_SCAN_POS set_nRangingSensor set__scanPos set__iScanPos
       set_onTrouble set__distData set__distDataFilters set__turnBias
       set_turnStats set_cpsTargetHead set__targetHead set_currHead
       set_lightDiff set_LightDiffFilter set_onHold set_PitchFilter
       set_RollFilter set_state set_MotorTurn_speed set_MotorWalk_speed
       set_Servo_angle set_Servo_on set_pixel set_n_range set_n_rand
       set_n_compass set_n_spin set_log].

(** ** Lists *)

Lemma list_set_Some {A} (i : nat) (v : A) (l : list A) :
  (i < length l)%nat -> exists l', list_set i v l = Some l'.
Proof.
  revert i. induction l as [|h t IH]; intros [|i] Hi; simpl in *; try lia.
  - eauto.
  - destruct (IH i) as [l' ->]; [lia|]. simpl. eauto.
Qed.

Lemma list_set_length {A} (i : nat) (v : A) (l l' : list A) :
  list_set i v l = Some l' -> length l' = length l.
Proof.
  revert i l'. induction l as [|h t IH]; intros [|i] l' H; simpl in *;
    try discriminate.
  - injection H as <-. reflexivity.
  - destruct (list_set i v t) eqn:Ht; simpl in H; [|discriminate].
    injection H as <-. simpl. f_equal. eauto.
Qed.

Lemma list_set_None {A} (i : nat) (v : A) (l : list A) :
  (length l <= i)%nat -> list_set i v l = None.
Proof.
  revert i. induction l as [|h t IH]; intros [|i] Hi; simpl in *;
    try reflexivity; try lia.
  rewrite IH by lia. reflexivity.
Qed.

Lemma list_set_nth_error {A} (i : nat) (v : A) (l l' : list A) (j : nat) :
  list_set i v l = Some l' ->
  nth_error l' j = if (i =? j)%nat then Some v else nth_error l j.
Proof.
  revert i l' j. induction l as [|h t IH]; intros [|i] l' j H; simpl in H;
    try discriminate.
  - injection H as <-. destruct j; reflexivity.
  - destruct (list_set i v t) as [t'|] eqn:Ht; simpl in H; [|discriminate].
    injection H as <-. destruct j as [|j]; [reflexivity|].
    simpl. apply IH. exact Ht.
Qed.

Lemma list_set_nth {A} (i : nat) (v d : A) (l l' : list A) :
  list_set i v l = Some l' -> nth i l' d = v.
Proof.
  intros H. apply nth_error_nth.
  rewrite (list_set_nth_error _ _ _ _ i H), Nat.eqb_refl. reflexivity.
Qed.

Lemma nth_error_eq_nth {A} (l l' : list A) (j : nat) (d : A) :
  nth_error l j = nth_error l' j -> nth j l d = nth j l' d.
Proof.
  intros H. rewrite <- !nth_default_eq. unfold nth_default. rewrite H.
  reflexivity.
Qed.

Lemma py_getitem_nat {A} (l : list A) (i : nat) (a : A) (w : World) :
  nth_error l i = Some a -> py_getitem l (Z.of_nat i) w = (Ok a, w).
Proof.
  intros H. unfold py_getitem.
  destruct (Z.ltb_spec (Z.of_nat i) 0) as [Hn|Hn]; [lia|].
  destruct (Z.ltb_spec (Z.of_nat i) 0); [lia|].
  rewrite Nat2Z.id, H. reflexivity.
Qed.

Lemma py_getitem_nat_inv {A} (l : list A) (i : nat) (a : A) (w w' : World) :
  py_getitem l (Z.of_nat i) w = (Ok a, w') ->
  nth_error l i = Some a /\ w' = w.
Proof.
  unfold py_getitem.
  destruct (Z.ltb_spec (Z.of_nat i) 0) as [Hn|Hn]; [lia|].
  destruct (Z.ltb_spec (Z.of_nat i) 0); [lia|].
  rewrite Nat2Z.id. destruct (nth_error l i); unfold ret, raise; intros Hr;
    inversion Hr; auto.
Qed.

Lemma py_getitem_raises {A} (l : list A) (i : Z) (e : Exn) (w w' : World) :
  py_getitem l i w = (Raise e, w') -> e = IndexError.
Proof.
  unfold py_getitem, raise, ret.
  destruct ((if i <? 0 then _ else _) <? 0).
  - intros H. injection H as <- _. reflexivity.
  - destruct (nth_error _ _); [discriminate|].
    intros H. injection H as <- _. reflexivity.
Qed.

Lemma distData_setitem_run (slot : nat) (d : Z) (w : World) (dd : list Z) :
  list_set slot d (_distData w) = Some dd ->
  distData_setitem slot d w
  = (Ok tt, set_log (log w ++ [EvStore slot d]) (set__distData dd w)).
Proof.
  intros H. unfold distData_setitem, bind, get. rewrite H. reflexivity.
Qed.

Lemma distData_setitem_fail (slot : nat) (d : Z) (w : World) :
  list_set slot d (_distData w) = None ->
  distData_setitem slot d w = (Raise IndexError, w).
Proof.
  intros H. unfold distData_setitem, bind, get. rewrite H. reflexivity.
Qed.

Lemma distData_setitem_inv (slot : nat) (d : Z) (w w' : World) :
  distData_setitem slot d w = (Ok tt, w') ->
  exists dd, list_set slot d (_distData w) = Some dd
             /\ w' = set_log (log w ++ [EvStore slot d]) (set__distData dd w).
Proof.
  unfold distData_setitem, bind, get.
  destruct (list_set slot d (_distData w)) as [dd|]; intros H.
  - exists dd. split; [reflexivity|]. inversion H. reflexivity.
  - discriminate H.
Qed.
(** ** Single-sensor sweep *)

Section Sweep.

Variable E : Env.
Variable cfg : Config.

Lemma readings_from_S i n k :
  readings_from E i n (S k)
  = py_int (range_cm E i n) :: readings_from E i (S n) k.
Proof.
  unfold readings_from. simpl. rewrite Nat.add_0_r. f_equal.
  rewrite <- seq_shift, map_map. apply map_ext. intros j.
  rewrite Nat.add_succ_r. reflexivity.
Qed.

Lemma scan_speed_sign (Pos : Q) :
  scan_speed cfg Pos = if Qltb Pos 0 then SPEED_SCAN cfg else - SPEED_SCAN cfg.
Proof. unfold scan_speed. destruct (Qltb Pos 0); lia. Qed.

Lemma sweep_run (poss : list Q) :
  forall (slots : list nat) (iPos : nat) (o c : bool) (w : World)
         (bias l : Z),
    l = Z.of_nat (iPos + length poss) - 1 ->
    firstn (length poss) (skipn iPos (_iScanPos w)) = slots ->
    length slots = length poss ->
    Forall (fun s => (s < length (_distData w))%nat) slots ->
    (forall k, (k < length poss)%nat ->
               spin_fault E (n_spin w + k) = false) ->
    let ds := readings_from E 0 (n_range w) (length poss) in
    exists w',
      sweep E cfg l bias poss iPos o c w
      = (Ok (o || existsb (is_obstacle cfg) ds,
             c || existsb (is_cliff cfg) ds), w')
      /\ log w' = log w ++ spec_sweep cfg poss slots ds bias
      /\ _distData w' = store_all slots ds (_distData w)
      /\ _iScanPos w' = _iScanPos w
      /\ _turnBias w' = _turnBias w.
Proof.
  induction poss as [|Pos rest IH];
    intros slots iPos o c w bias l Hl Hslots Hlen Hvalid Hquiet ds.
  - exists w. subst ds. destruct slots; [|discriminate]. simpl.
    rewrite !orb_false_r, app_nil_r. auto.
  - destruct slots as [|slot slots]; [discriminate|].
    simpl in Hlen, Hslots. injection Hlen as Hlen.
    destruct (skipn iPos (_iScanPos w)) as [|s0 tl0] eqn:Hskip;
      [discriminate|].
    injection Hslots as -> Hslots.
    inversion Hvalid as [|? ? Hslot Hvalid']; subst.
    assert (Hnth : nth_error (_iScanPos w) iPos = Some slot).
    { rewrite <- (Nat.add_0_r iPos), <- nth_error_skipn, Hskip.
      reflexivity. }
    assert (Hskip' : skipn (S iPos) (_iScanPos w) = tl0).
    { change (S iPos) with (1 + iPos)%nat.
      rewrite <- skipn_skipn, Hskip. reflexivity. }
    subst ds. cbn [length]. rewrite readings_from_S.
    set (d := py_int (range_cm E 0 (n_range w))).
    cbn [sweep]. wsimpl_goal.
    lazymatch goal with
    | |- context [bind (spin_ms E cfg ?ms) _ ?w1] =>
        destruct (spin_ms_run E cfg ms w1) as (w2 & Hrun & Hk & Hs & Hlog)
    end.
    assert (Hq0 : spin_fault E (n_spin w) = false).
    { rewrite <- (Nat.add_0_r (n_spin w)). apply Hquiet. simpl. lia. }
    wsimpl. rewrite Hq0 in Hrun.
    rewrite (bind_Ok _ _ _ _ _ Hrun). wsimpl_goal.
    pose proof (keeps_iScanPos _ _ Hk) as keeps_iScanPos0.
    pose proof (keeps_n_range _ _ Hk) as keeps_n_range0.
    pose proof (keeps_distData _ _ Hk) as keeps_distData0.
    pose proof (keeps_turnBias _ _ Hk) as keeps_turnBias0.
    clear Hk. wsimpl.
    rewrite keeps_iScanPos0, keeps_n_range0.
    fold d. rewrite (bind_Ok _ _ _ _ _ (py_getitem_nat _ _ _ _ Hnth)).
    destruct (list_set_Some slot d (_distData w) Hslot) as [dd' Hdd].
    lazymatch goal with
    | |- context [bind (distData_setitem slot d) _ ?w4] =>
        assert (Hst : distData_setitem slot d w4
                      = (Ok tt, set_log (log w4 ++ [EvStore slot d])
                                  (set__distData dd' w4)))
          by (apply distData_setitem_run; wsimpl_goal;
              rewrite keeps_distData0; exact Hdd)
    end.
    rewrite (bind_Ok _ _ _ _ _ Hst). clear Hst. wsimpl_goal.
    lazymatch goal with
    | |- context [sweep E cfg ?l bias rest (S iPos) ?o' ?c' ?w5] =>
        destruct (IH (firstn (length rest) tl0) (S iPos) o' c' w5 bias l)
          as (w' & Hsw & Hl' & Hd' & Hi' & Ht')
    end.
    + lia.
    + wsimpl_goal. rewrite keeps_iScanPos0, Hskip'. reflexivity.
    + exact Hlen.
    + wsimpl_goal. rewrite (list_set_length _ _ _ _ Hdd). exact Hvalid'.
    + intros k Hlt. wsimpl_goal. rewrite Hs.
      replace (S (n_spin w) + k)%nat with (n_spin w + S k)%nat by lia.
      apply Hquiet. simpl. lia.
    + wsimpl. exists w'. rewrite Hsw.
      split; [|split; [|split; [|split]]].
      * cbn [existsb]. rewrite !orb_assoc. reflexivity.
      * rewrite Hl', Hlog. cbn [spec_sweep spec_visit].
        rewrite scan_speed_sign, <- !app_assoc. cbn [app].
        replace (if Z.of_nat iPos <? Z.of_nat (iPos + S (length rest)) - 1
                 then 0 else bias)
          with (match rest with [] => bias | _ => 0 end); [reflexivity|].
        destruct rest; cbn [length].
        -- destruct (Z.ltb_spec (Z.of_nat iPos) (Z.of_nat (iPos + 1) - 1));
             [lia | reflexivity].
        -- destruct (Z.ltb_spec (Z.of_nat iPos)
                       (Z.of_nat (iPos + S (S (length rest))) - 1));
             [reflexivity | lia].
      * rewrite Hd'. cbn [store_all]. rewrite Hdd. reflexivity.
      * rewrite Hi'. exact keeps_iScanPos0.
      * rewrite Ht'. exact keeps_turnBias0.
Qed.

End Sweep.
Section SweepCycle.

Variable E : Env.
Variable cfg : Config.

(** The bias computation reads attributes and writes none. *)
Lemma scan_bias_state (w : World) : snd (scan_bias cfg w) = w.
Proof.
  unfold scan_bias, attr, bind, get, ret.
  destruct (truthy (DO_FIND_LIGHT cfg)); [reflexivity|].
  destruct (truthy (DO_WALK_STRAIGHT cfg)); [|reflexivity].
  destruct (currHead w); [|reflexivity].
  destruct (cpsTargetHead w); reflexivity.
Qed.

Lemma scan_bias_run (w : World) (bias : Z) :
  result (scan_bias cfg) w = Ok bias -> scan_bias cfg w = (Ok bias, w).
Proof.
  unfold result. intros H. pose proof (scan_bias_state w) as Hs.
  destruct (scan_bias cfg w) as [r w1]. simpl in *. congruence.
Qed.


End SweepCycle.

(** ** What a scan cycle logs *)

Section ScanCycle.

Variable E : Env.
Variable cfg : Config.

Lemma bind_MotorTurn {B} (v : Z) (k : unit -> M B) (w : World) :
  bind (MotorTurn_set_speed v) k w
  = k tt (set_log (log w ++ [EvTurnSpeed v]) (set_MotorTurn_speed v w)).
Proof. reflexivity. Qed.

Lemma bind_read_range {B} (i : nat) (k : Z -> M B) (w : World) :
  bind (read_range E i) k w
  = k (py_int (range_cm E i (n_range w)))
      (set_log (log w ++ [EvRange i (py_int (range_cm E i (n_range w)))])
         (set_n_range (S (n_range w)) w)).
Proof. reflexivity. Qed.

Lemma spin_ms_inv (ms : Q) (w : World) (a : unit) (w' : World) :
  spin_ms E cfg ms w = (Ok a, w') ->
  keeps w w' /\ n_spin w' = S (n_spin w) /\ log w' = log w ++ [EvSpin ms].
Proof.
  destruct (spin_ms_run E cfg ms w) as (w2 & Hrun & Hk & Hs & Hl).
  rewrite Hrun. destruct (spin_fault E (n_spin w)); intros H; inversion H.
  subst. auto.
Qed.

Lemma sweep_flags (poss : list Q) :
  forall (l bias : Z) (iPos : nat) (o c : bool) (w : World)
         (oc : bool * bool) (w' : World),
    sweep E cfg l bias poss iPos o c w = (Ok oc, w') ->
    exists evs,
      log w' = log w ++ evs
      /\ oc = (o || existsb (is_obstacle cfg) (stored evs),
               c || existsb (is_cliff cfg) (stored evs)).
Proof.
  induction poss as [|Pos rest IH]; intros l bias iPos o c w oc w' H.
  - inversion H. exists []. rewrite app_nil_r. simpl.
    rewrite !orb_false_r. auto.
  - cbn [sweep] in H. rewrite bind_MotorTurn in H.
    apply bind_Ok_inv in H as (a & w2 & Hspin & H).
    apply spin_ms_inv in Hspin as (_ & _ & Hlog).
    rewrite bind_MotorTurn, bind_read_range, bind_get in H.
    apply bind_Ok_inv in H as (slot & w3 & Hget & H).
    apply py_getitem_nat_inv in Hget as [_ ->].
    apply bind_Ok_inv in H as ([] & w4 & Hst & H).
    apply distData_setitem_inv in Hst as (dd & _ & ->).
    apply IH in H as (evs & Hl' & ->).
    wsimpl. rewrite Hlog in Hl'. wsimpl.
    eexists. split.
    + rewrite Hl'. rewrite <- !app_assoc. cbn [app]. reflexivity.
    + cbn [stored flat_map app existsb]. rewrite !orb_assoc. reflexivity.
Qed.

(** Smoothing touches the filters only, and fails only on a missing
    filter. *)
Lemma smooth_inv (iPos : nat) (d0 d : Z) (w w' : World) :
  smooth cfg iPos d0 w = (Ok d, w') ->
  log w' = log w /\ _distData w' = _distData w.
Proof.
  unfold smooth. destruct (2 <=? DIST_SMOOTH cfg).
  - rewrite bind_get. intros H.
    apply bind_Ok_inv in H as (f & w5 & Hget & H).
    apply py_getitem_nat_inv in Hget as [_ ->].
    unfold filter_mean in H.
    destruct (list_set iPos _ _); injection H as _ <-; auto.
  - intros H. injection H as _ <-. auto.
Qed.

Lemma smooth_raises (iPos : nat) (d0 : Z) (e : Exn) (w w' : World) :
  smooth cfg iPos d0 w = (Raise e, w') -> e = IndexError.
Proof.
  unfold smooth. destruct (2 <=? DIST_SMOOTH cfg); [|discriminate].
  rewrite bind_get.
  destruct (py_getitem (_distDataFilters w) (Z.of_nat iPos) w)
    as [[f|e'] w1] eqn:Hget.
  - rewrite (bind_Ok _ _ _ _ _ Hget). unfold filter_mean.
    destruct (list_set iPos _ _); discriminate.
  - rewrite (bind_Raise _ _ _ _ _ Hget). intros H. injection H as <- _.
    eapply py_getitem_raises. eassumption.
Qed.

Lemma poll_flags (n : nat) :
  forall (iPos : nat) (o c : bool) (w : World)
         (oc : bool * bool) (w' : World),
    poll E cfg n iPos o c w = (Ok oc, w') ->
    exists evs,
      log w' = log w ++ evs
      /\ spins evs = []
      /\ oc = (o || existsb (is_obstacle cfg) (stored evs),
               c || existsb (is_cliff cfg) (stored evs)).
Proof.
  induction n as [|n IH]; intros iPos o c w oc w' H.
  - inversion H. exists []. rewrite app_nil_r. simpl.
    rewrite !orb_false_r. auto.
  - cbn [poll] in H. rewrite bind_read_range in H.
    apply bind_Ok_inv in H as (d & w2 & Hd & H).
    apply bind_Ok_inv in H as ([] & w3 & Hst & H).
    apply distData_setitem_inv in Hst as (dd & _ & ->).
    apply IH in H as (evs & Hl' & Hsp & ->).
    apply smooth_inv in Hd as (Hlog2 & _).
    wsimpl. rewrite Hlog2 in Hl'.
    eexists. split; [|split].
    + rewrite Hl'. rewrite <- !app_assoc. cbn [app]. reflexivity.
    + cbn [spins flat_map app]. exact Hsp.
    + cbn [stored flat_map app existsb]. rewrite !orb_assoc. reflexivity.
Qed.

Lemma nudge_inv (bias : Z) (w : World) (a : unit) (w' : World) :
  nudge E cfg bias w = (Ok a, w') ->
  let td := nudge_ms cfg bias in
  let sd := (min_cycle_ms cfg - td)%Q in
  log w' = log w ++
    [EvTurnSpeed (scan_speed cfg (IR_SCAN_BIAS_F cfg)); EvSpin td;
     EvTurnSpeed 0] ++ (if Qltb 0 sd then [EvSpin sd] else []).
Proof.
  intros H td sd. unfold nudge in H. fold td in H.
  rewrite bind_MotorTurn in H.
  apply bind_Ok_inv in H as (a1 & w2 & Hspin & H).
  apply spin_ms_inv in Hspin as (_ & _ & Hlog).
  rewrite bind_MotorTurn in H. fold (min_cycle_ms cfg) in H. fold sd in H.
  destruct (Qltb 0 sd).
  - apply spin_ms_inv in H as (_ & _ & Hlog'). wsimpl.
    rewrite Hlog', Hlog. wsimpl_goal. rewrite <- !app_assoc. reflexivity.
  - inversion H. wsimpl_goal. rewrite Hlog. wsimpl_goal.
    rewrite <- !app_assoc. reflexivity.
Qed.

(** Every cycle that returns: the bias it used, what it logged, and what
    it answered. *)
Lemma scan_cycle_inv (w : World) (r : Z) (w' : World) :
  scanForObstacleOrCliff E cfg w = (Ok r, w') ->
  exists bias n evs,
    scan_bias cfg w = (Ok bias, w)
    /\ nRangingSensor w = Some n
    /\ log w' = log w ++ evs
    /\ _turnBias w' = bias
    /\ r = classify (existsb (is_obstacle cfg) (stored evs))
                    (existsb (is_cliff cfg) (stored evs))
    /\ (n <> 1%nat ->
        spins evs
        = nudge_ms cfg bias ::
          (if Qltb 0 (min_cycle_ms cfg - nudge_ms cfg bias)%Q
           then [(min_cycle_ms cfg - nudge_ms cfg bias)%Q] else [])).
Proof.
  intros H. unfold scanForObstacleOrCliff in H.
  apply bind_Ok_inv in H as (bias & w1 & Hb & H).
  pose proof (scan_bias_state cfg w) as Hst. rewrite Hb in Hst.
  simpl in Hst. subst w1.
  unfold heap_get in H. rewrite !bind_get in H.
  apply bind_Ok_inv in H as (n & w1 & Hn & H).
  apply attr_inv in Hn as [Hn ->].
  apply bind_Ok_inv in H as (oc & w2 & Hoc & H).
  inversion H; subst; clear H. wsimpl_goal.
  exists bias, n.
  destruct (Nat.eqb_spec n 1) as [-> | Hne].
  - apply sweep_flags in Hoc as (evs & Hlog & ->).
    exists evs. simpl. repeat split; auto. congruence.
  - apply bind_Ok_inv in Hoc as (oc' & w3 & Hp & Hoc).
    apply poll_flags in Hp as (evs & Hlog & Hsp & ->).
    apply bind_Ok_inv in Hoc as ([] & w4 & Hnu & Hoc).
    apply nudge_inv in Hnu. inversion Hoc; subst; clear Hoc.
    eexists. split; [exact Hb|]. split; [exact Hn|].
    split; [rewrite Hnu, Hlog, <- app_assoc; reflexivity|].
    split; [reflexivity|]. split.
    + unfold stored. rewrite flat_map_app.
      destruct (Qltb 0 _); cbn [flat_map app]; rewrite app_nil_r;
        reflexivity.
    + intros _. unfold spins. rewrite flat_map_app. fold (spins evs).
      rewrite Hsp. destruct (Qltb 0 _); reflexivity.
Qed.

End ScanCycle.
(** ** Obstacle and cliff classification *)

Lemma logged_app {A} (m : M A) (w : World) (evs : list Event) :
  log (after m w) = log w ++ evs -> logged m w = evs.
Proof.
  intros H. unfold logged. rewrite H.
  rewrite skipn_app, skipn_all, Nat.sub_diag. reflexivity.
Qed.

Section ScanValues.

Variable E : Env.
Variable cfg : Config.

(** The sweep stores the [int] of one reading of sensor 0 per
    position. *)
Lemma sweep_values (poss : list Q) :
  forall (l bias : Z) (iPos : nat) (o c : bool) (w : World)
         (oc : bool * bool) (w' : World),
    sweep E cfg l bias poss iPos o c w = (Ok oc, w') ->
    exists evs,
      log w' = log w ++ evs
      /\ stored evs = readings_from E 0 (n_range w) (length poss).
Proof.
  induction poss as [|Pos rest IH]; intros l bias iPos o c w oc w' H.
  - inversion H. exists []. rewrite app_nil_r. auto.
  - cbn [sweep] in H. rewrite bind_MotorTurn in H.
    apply bind_Ok_inv in H as (a & w2 & Hspin & H).
    apply spin_ms_inv in Hspin as (Hk & _ & Hlog).
    pose proof (keeps_n_range _ _ Hk) as Hn.
    rewrite bind_MotorTurn, bind_read_range, bind_get in H.
    apply bind_Ok_inv in H as (slot & w3 & Hget & H).
    apply py_getitem_nat_inv in Hget as [_ ->].
    apply bind_Ok_inv in H as ([] & w4 & Hst & H).
    apply distData_setitem_inv in Hst as (dd & _ & ->).
    apply IH in H as (evs & Hl' & Hs).
    wsimpl. rewrite Hlog in Hl'. wsimpl.
    eexists. split.
    + rewrite Hl'. rewrite <- !app_assoc. cbn [app]. reflexivity.
    + cbn [stored flat_map app length]. fold (stored evs).
      rewrite Hs, Hn, readings_from_S. reflexivity.
Qed.

(** Smoothing returns the value of [array_value] and changes the filter
    of its own sensor only. *)
Lemma smooth_value (iPos : nat) (d0 d : Z) (w w' : World) :
  smooth cfg iPos d0 w = (Ok d, w') ->
  d = (if 2 <=? DIST_SMOOTH cfg
       then py_int (fst (filter_mean (inject_Z d0)
                           (nth iPos (_distDataFilters w)
                              (TemporalFilter_new 0))))
       else d0)
  /\ n_range w' = n_range w
  /\ forall j, j <> iPos ->
               nth j (_distDataFilters w') (TemporalFilter_new 0)
               = nth j (_distDataFilters w) (TemporalFilter_new 0).
Proof.
  unfold smooth. destruct (2 <=? DIST_SMOOTH cfg).
  - rewrite bind_get. intros H.
    apply bind_Ok_inv in H as (f & w5 & Hget & H).
    apply py_getitem_nat_inv in Hget as [Hf ->].
    rewrite (nth_error_nth _ _ _ Hf).
    unfold filter_mean in *. cbn [fst].
    destruct (list_set iPos _ _) as [fs'|] eqn:Hset;
      injection H as <- <-; (split; [reflexivity|]); wsimpl_goal;
      (split; [reflexivity|]); intros j Hj; [|reflexivity].
    apply nth_error_eq_nth.
    rewrite (list_set_nth_error _ _ _ _ j Hset).
    destruct (Nat.eqb_spec iPos j); [congruence | reflexivity].
  - intros H. injection H as <- <-. auto.
Qed.

(** The poll stores one value per sensor. *)
Lemma poll_values (n : nat) :
  forall (iPos : nat) (o c : bool) (w : World)
         (oc : bool * bool) (w' : World),
    poll E cfg n iPos o c w = (Ok oc, w') ->
    exists evs,
      log w' = log w ++ evs
      /\ stored evs
         = array_values E cfg (_distDataFilters w) iPos (n_range w) n.
Proof.
  induction n as [|n IH]; intros iPos o c w oc w' H.
  - inversion H. exists []. rewrite app_nil_r. auto.
  - cbn [poll] in H. rewrite bind_read_range in H.
    apply bind_Ok_inv in H as (d & w2 & Hd & H).
    apply bind_Ok_inv in H as ([] & w3 & Hst & H).
    apply distData_setitem_inv in Hst as (dd & _ & ->).
    apply IH in H as (evs & Hl' & Hs).
    pose proof (smooth_inv _ _ _ _ _ _ Hd) as (Hlog2 & _).
    apply smooth_value in Hd as (Hdv & Hn2 & Hfs).
    wsimpl. rewrite Hlog2 in Hl'.
    eexists. split.
    + rewrite Hl'. rewrite <- !app_assoc. cbn [app]. reflexivity.
    + cbn [stored flat_map app]. fold (stored evs). rewrite Hs.
      unfold array_values. cbn [seq map]. rewrite !Nat.add_0_r.
      f_equal.
      * rewrite Hdv. reflexivity.
      * rewrite <- seq_shift, map_map. apply map_ext. intros j.
        rewrite Hn2, !Nat.add_succ_r. cbn [Nat.add].
        rewrite Hfs by lia. reflexivity.
Qed.

(** What a returning cycle stored and what it answered, in terms of
    the readings the sensors delivered. *)
Lemma scan_cycle_values (w : World) (r : Z) (w' : World) :
  scanForObstacleOrCliff E cfg w = (Ok r, w') ->
  exists n,
    nRangingSensor w = Some n
    /\ stored (logged (scanForObstacleOrCliff E cfg) w) = cycle_values E cfg w n
    /\ r = classify (existsb (is_obstacle cfg) (cycle_values E cfg w n))
                    (existsb (is_cliff cfg) (cycle_values E cfg w n)).
Proof.
  intros H.
  pose proof (scan_cycle_inv E cfg w r w' H)
    as (bias & n & evs & Hb & Hn & Hlog & _ & Hr & _).
  exists n. split; [exact Hn|].
  assert (Hst : stored evs = cycle_values E cfg w n).
  { unfold scanForObstacleOrCliff in H.
    rewrite (bind_Ok _ _ _ _ _ Hb) in H.
    unfold heap_get in H. rewrite !bind_get, (bind_attr _ _ _ _ Hn) in H.
    apply bind_Ok_inv in H as (oc & w2 & Hoc & H).
    injection H as _ <-. cbn [log set__turnBias] in Hlog.
    unfold cycle_values.
    destruct (n =? 1)%nat.
    - apply sweep_values in Hoc as (evs' & Hl & Hs).
      rewrite Hl in Hlog. apply app_inv_head in Hlog. subst evs'.
      exact Hs.
    - apply bind_Ok_inv in Hoc as (oc' & w3 & Hp & Hoc).
      apply poll_values in Hp as (evs' & Hl & Hs).
      apply bind_Ok_inv in Hoc as ([] & w4 & Hnu & Hoc).
      apply nudge_inv in Hnu. injection Hoc as _ <-.
      rewrite Hnu, Hl, <- app_assoc in Hlog. apply app_inv_head in Hlog.
      subst evs. unfold stored. rewrite flat_map_app.
      fold (stored evs'). rewrite Hs.
      destruct (Qltb 0 _); cbn [flat_map app]; rewrite app_nil_r;
        reflexivity. }
  split.
  - rewrite <- Hst. f_equal. apply logged_app. unfold after. rewrite H.
    exact Hlog.
  - rewrite <- Hst. exact Hr.
Qed.

End ScanValues.

(** C4, as stated, fails: the flags are not taken over the readings.
    A single sensor that reads 25.9 cm at the second position, above the
    cliff threshold of 25, is stored as 25 and the cycle answers 0.  In
    an array smoothed over three readings, a sensor that read 15 in the
    cycle before and reads 30 now is stored as 22, and the cycle answers
    0. *)
Lemma scan_misses_cliff_reading :
  (let E := quiet_env [15#1; 259#10; 15#1; 15#1]%Q in
   let scan := scanForObstacleOrCliff E hexbug_config in
   Qltb (inject_Z (DIST_CLIFF_CM hexbug_config)) (range_cm E 0 1) = true
   /\ nRangingSensor (shipped_bug E) = Some 1%nat
   /\ stored (logged scan (shipped_bug E)) = [15; 25; 15; 15]
   /\ result scan (shipped_bug E) = Ok 0)
  /\ (let E := quiet_env [15#1; 15#1; 15#1; 30#1; 15#1; 15#1]%Q in
      let scan := scanForObstacleOrCliff E smoothing_config in
      let w := after scan (after (__init__ E smoothing_config false)
                             (imported IR_SCAN_POS_shipped)) in
      Qltb (inject_Z (DIST_CLIFF_CM smoothing_config)) (range_cm E 0 3)
      = true
      /\ nRangingSensor w = Some 3%nat
      /\ n_range w = 3%nat
      /\ stored (logged scan w) = [22; 15; 15]
      /\ result scan w = Ok 0).
Proof. vm_compute. repeat split. Qed.

(** C4.  A scan cycle that returns has stored, and classifies, the
    values of [cycle_values]: with a single sensor the [int] of one
    reading per scan position, with an array of sensors one value per
    sensor, the [int] of its reading, smoothed by its filter when
    [DIST_SMOOTH >= 2].  The obstacle flag is the disjunction of
    [d < DIST_OBST_CM] and the cliff flag the disjunction of
    [d > DIST_CLIFF_CM] over these values; the answer is 1 when the
    cliff flag is set whatever the obstacle flag, -1 when only the
    obstacle flag is set, 0 otherwise.  With the shipped positions and
    thresholds (9 and 25), the readings 5, 20, 20, 20 give -1 (obstacle)
    and the readings 15, 30, 15, 15 give 1 (cliff). *)
Theorem scan_classification :
  (forall (E : Env) (cfg : Config) (w : World) (r : Z) (w' : World),
      scanForObstacleOrCliff E cfg w = (Ok r, w') ->
      exists n,
        nRangingSensor w = Some n
        /\ stored (logged (scanForObstacleOrCliff E cfg) w)
           = cycle_values E cfg w n
        /\ r = classify (existsb (is_obstacle cfg) (cycle_values E cfg w n))
                        (existsb (is_cliff cfg) (cycle_values E cfg w n)))
  /\ (forall (E : Env) (cfg : Config) (w : World),
        cycle_values E cfg w 1
        = map (fun k => py_int (range_cm E 0 (n_range w + k)))
              (seq 0 (length (nth (_scanPos w) (heap w) []))))
  /\ (forall (E : Env) (cfg : Config) (w : World) (n : nat),
        n <> 1%nat ->
        cycle_values E cfg w n
        = map (fun i =>
                 array_value cfg
                   (nth i (_distDataFilters w) (TemporalFilter_new 0))
                   (range_cm E i (n_range w + i)))
              (seq 0 n))
  /\ (forall o, classify o true = 1)
  /\ classify true false = -1
  /\ classify false false = 0
  /\ (let E := quiet_env [5#1; 20#1; 20#1; 20#1]%Q in
      let scan := scanForObstacleOrCliff E hexbug_config in
      stored (logged scan (shipped_bug E)) = [5; 20; 20; 20]
      /\ result scan (shipped_bug E) = Ok (-1))
  /\ (let E := quiet_env [15#1; 30#1; 15#1; 15#1]%Q in
      let scan := scanForObstacleOrCliff E hexbug_config in
      stored (logged scan (shipped_bug E)) = [15; 30; 15; 15]
      /\ result scan (shipped_bug E) = Ok 1).
Proof.
  split; [exact scan_cycle_values|].
  split; [reflexivity|].
  split.
  - intros E cfg w n Hn. unfold cycle_values.
    destruct (Nat.eqb_spec n 1); [contradiction | reflexivity].
  - split; [intros []; reflexivity|].
    repeat split; vm_compute; reflexivity.
Qed.

Example scan_level_ground :
  let E := quiet_env [15#1; 15#1; 15#1; 15#1]%Q in
  result (scanForObstacleOrCliff E hexbug_config) (shipped_bug E) = Ok 0.
Proof. vm_compute. reflexivity. Qed.

(** ** Cycle time in array mode *)

(** C5, as stated, fails: the same robot spends 200 ms after polling in
    a cycle with bias 0 and 300 ms in a cycle with bias 300. *)
Lemma array_cycle_time_varies :
  let scan E := scanForObstacleOrCliff E array_config in
  (nRangingSensor (array_bug (lit_env 0)) = Some 3%nat
   /\ result (scan (lit_env 0)) (array_bug (lit_env 0)) = Ok 0
   /\ _turnBias (after (scan (lit_env 0)) (array_bug (lit_env 0))) = 0
   /\ (waited (scan (lit_env 0)) (array_bug (lit_env 0)) == 200#1)%Q)
  /\
  (nRangingSensor (array_bug (lit_env 300)) = Some 3%nat
   /\ result (scan (lit_env 300)) (array_bug (lit_env 300)) = Ok 0
   /\ _turnBias (after (scan (lit_env 300)) (array_bug (lit_env 300))) = 300
   /\ (waited (scan (lit_env 300)) (array_bug (lit_env 300)) == 300#1)%Q).
Proof. vm_compute. repeat split. Qed.

(** C5, amended.  In array mode a cycle that returns has handed to
    [spin_ms], after polling, durations that add up to the larger of
    the nudge duration [td = abs(IR_SCAN_BIAS_F * 200) + bias] and
    [SPEED_BACK_DELAY // 3]: the padding wait makes up the difference
    when the nudge is shorter than that minimum, and there is none when
    it is not. *)
Theorem array_cycle_time (E : Env) (cfg : Config) (w : World) (n : nat)
  (r : Z) (w' : World) :
  nRangingSensor w = Some n ->
  n <> 1%nat ->
  scanForObstacleOrCliff E cfg w = (Ok r, w') ->
  let td := nudge_ms cfg (_turnBias w') in
  (waited (scanForObstacleOrCliff E cfg) w
   == if Qltb td (min_cycle_ms cfg) then min_cycle_ms cfg else td)%Q.
Proof.
  intros Hn Hne H td.
  pose proof H as H0.
  apply scan_cycle_inv in H as (bias & n' & evs & _ & Hn' & Hlog & Hb & _ & Hsp).
  assert (n' = n) by congruence. subst n'. specialize (Hsp Hne).
  unfold waited. rewrite (logged_app _ w evs).
  2:{ unfold after. rewrite H0. exact Hlog. }
  rewrite Hsp. subst td. rewrite Hb.
  set (td := nudge_ms cfg bias). set (mn := min_cycle_ms cfg).
  destruct (Qltb 0 (mn - td)) eqn:Hsd.
  - apply Qltb_spec in Hsd.
    assert (Hlt : Qltb td mn = true).
    { apply Qltb_spec. apply (Qplus_lt_l _ _ (- td)).
      setoid_replace (td + - td)%Q with 0%Q by ring. exact Hsd. }
    rewrite Hlt. unfold Qsum. simpl. ring.
  - apply Qltb_false in Hsd.
    assert (Hge : Qltb td mn = false).
    { apply Qltb_false. apply (Qplus_le_l _ _ (- td)).
      setoid_replace (td + - td)%Q with 0%Q by ring. exact Hsd. }
    rewrite Hge. unfold Qsum. simpl. ring.
Qed.

Lemma array_cycle_time_lit :
  (waited (scanForObstacleOrCliff (lit_env 300) array_config)
          (array_bug (lit_env 300))
   == if Qltb (300#1) (200#1) then 200#1 else 300#1)%Q.
Proof.
  apply (array_cycle_time (lit_env 300) array_config
           (array_bug (lit_env 300)) 3 0
           (after (scanForObstacleOrCliff (lit_env 300) array_config)
                  (array_bug (lit_env 300)))).
  - reflexivity.
  - discriminate.
  - vm_compute. reflexivity.
Defined.
(** ** Looking around *)

Section LookAround.

Variable E : Env.
Variable cfg : Config.

(** The cleanup block always runs to its end. *)
Lemma lookAround_cleanup_run (prevState : Z) (w : World) :
  exists w',
    lookAround_cleanup E cfg prevState w = (Ok tt, w')
    /\ MotorTurn_speed w' = 0
    /\ Servo_angle w' = SCAN_DIST_SERVO cfg
    /\ state w' = prevState
    /\ cpsTargetHead w' = cpsTargetHead w
    /\ _targetHead w'
       = if heading_hold cfg then Some (getHeading E (n_compass w))
         else _targetHead w.
Proof.
  unfold lookAround_cleanup, heading_hold, Compass_getHeading.
  destruct (truthy (DO_WALK_STRAIGHT cfg) && negb (truthy (DO_FIND_LIGHT cfg)));
    eexists; (split; [reflexivity|]); wsimpl_goal; repeat split.
Qed.

Lemma bind_randint {B} (a b : Z) (k : Z -> M B) (w : World) :
  bind (randint E a b) k w
  = k (a + Z.of_nat (rand_raw E (n_rand w)) mod (b - a + 1))
      (set_n_rand (S (n_rand w)) w).
Proof. reflexivity. Qed.

Lemma bind_Servo {B} (a : Z) (k : unit -> M B) (w : World) :
  bind (Servo_set_angle a) k w
  = k tt (set_log (log w ++ [EvServoAngle a])
            (set_Servo_on true (set_Servo_angle a w))).
Proof. reflexivity. Qed.

(** No saccade writes the attribute [cpsTargetHead]. *)
Lemma saccades_cpsTargetHead (n : nat) :
  forall (maxPit yaw pit : Z) (w : World),
    cpsTargetHead (snd (saccades E cfg n maxPit yaw pit w)) = cpsTargetHead w.
Proof.
  induction n as [|n IH]; intros maxPit yaw pit w; [reflexivity|].
  cbn [saccades]. rewrite bind_get.
  destruct (onHold w); [reflexivity|].
  rewrite !bind_randint, bind_Servo, bind_MotorTurn.
  lazymatch goal with
  | |- context [bind (spin_ms E cfg ?ms) _ ?w1] =>
      destruct (spin_ms_run E cfg ms w1) as (w2 & Hrun & Hk & _ & _)
  end.
  apply keeps_cpsTargetHead in Hk. wsimpl.
  destruct (spin_fault E (n_spin w)).
  { rewrite (bind_Raise _ _ _ _ _ Hrun). exact Hk. }
  rewrite (bind_Ok _ _ _ _ _ Hrun), bind_MotorTurn, bind_randint.
  lazymatch goal with
  | |- context [bind (spin_ms E cfg ?ms) _ ?w3] =>
      destruct (spin_ms_run E cfg ms w3) as (w4 & Hrun' & Hk' & _ & _)
  end.
  apply keeps_cpsTargetHead in Hk'. wsimpl.
  destruct (spin_fault E (n_spin w2)).
  { rewrite (bind_Raise _ _ _ _ _ Hrun'). cbn [snd]. congruence. }
  rewrite (bind_Ok _ _ _ _ _ Hrun'), IH. wsimpl_goal. congruence.
Qed.

(** What [lookAround] leaves behind, however its saccades ended. *)
Lemma lookAround_exit (w : World) :
  let w' := after (lookAround E cfg) w in
  MotorTurn_speed w' = 0
  /\ Servo_angle w' = SCAN_DIST_SERVO cfg
  /\ state w' = state w
  /\ cpsTargetHead w' = cpsTargetHead w
  /\ (heading_hold cfg = true ->
      exists n, _targetHead w' = Some (getHeading E n)).
Proof.
  unfold after, lookAround.
  change (bind (MotorWalk_set_speed 0) ?k w)
    with (k tt (set_log (log w ++ [EvWalkSpeed 0]) (set_MotorWalk_speed 0 w))).
  cbv beta. rewrite bind_MotorTurn, bind_get, bind_modify, bind_randint.
  wsimpl_goal. unfold try_finally.
  lazymatch goal with
  | |- context [saccades E cfg ?n ?m ?y ?p ?w0] =>
      pose proof (saccades_cpsTargetHead n m y p w0) as Hcps;
      destruct (saccades E cfg n m y p w0) as [res w1]
  end.
  destruct (lookAround_cleanup_run (state w) w1)
    as (w2 & Hrun & Hm & Hs & Hst & Hc & Ht).
  wsimpl.
  assert (Hgoal : MotorTurn_speed w2 = 0
            /\ Servo_angle w2 = SCAN_DIST_SERVO cfg
            /\ state w2 = state w
            /\ cpsTargetHead w2 = cpsTargetHead w
            /\ (heading_hold cfg = true ->
                exists n, _targetHead w2 = Some (getHeading E n))).
  { repeat split; try assumption; try congruence.
    intros Hh. rewrite Hh in Ht. eauto. }
  destruct res; rewrite Hrun; exact Hgoal.
Qed.

(** C6.  Whatever happens in [lookAround] -- all saccades done, the
    remaining ones skipped because the tilt interlock was found set, or
    an exception raised during a saccade -- when it is left the turn
    actuator stands at speed 0, the ranging servo at [SCAN_DIST_SERVO],
    and the state is the one found on entry. *)
Theorem lookAround_cleans_up (w : World) :
  let w' := after (lookAround E cfg) w in
  MotorTurn_speed w' = 0
  /\ Servo_angle w' = SCAN_DIST_SERVO cfg
  /\ state w' = state w.
Proof.
  intros w'. destruct (lookAround_exit w) as (Hm & Hs & Hst & _).
  auto.
Qed.

End LookAround.
(** The three ways out of [lookAround], on the shipped robot while it
    walks. *)

Example lookAround_completes :
  let E := quiet_env [] in
  let w' := after (lookAround E hexbug_config) (walking_bug E) in
  result (lookAround E hexbug_config) (walking_bug E) = Ok tt
  /\ length (spins (log w')) = 8%nat
  /\ MotorTurn_speed w' = 0 /\ Servo_angle w' = -25
  /\ state w' = STATE_WALKING.
Proof. vm_compute. repeat split. Qed.

Example lookAround_aborts_on_hold :
  let E := falling_env in
  let w' := after (lookAround E hexbug_config) (walking_bug E) in
  result (lookAround E hexbug_config) (walking_bug E) = Ok tt
  /\ onHold w' = true
  /\ length (spins (log w')) = 2%nat
  /\ MotorTurn_speed w' = 0 /\ Servo_angle w' = -25
  /\ state w' = STATE_WALKING.
Proof. vm_compute. repeat split. Qed.

Example lookAround_survives_exception :
  let E := failing_env in
  let w' := after (lookAround E hexbug_config) (walking_bug E) in
  result (lookAround E hexbug_config) (walking_bug E) = Raise Fault
  /\ length (spins (log w')) = 3%nat
  /\ MotorTurn_speed w' = 0 /\ Servo_angle w' = -25
  /\ state w' = STATE_WALKING.
Proof. vm_compute. repeat split. Qed.

(** ** Heading hold *)

Lemma scan_bias_without_light (cfg : Config) (w : World) (b : Z) (w' : World) :
  truthy (DO_FIND_LIGHT cfg) = false ->
  scan_bias cfg w = (Ok b, w') -> b = 0.
Proof.
  intros Hl. unfold scan_bias, attr, bind, ret. rewrite Hl.
  destruct (truthy (DO_WALK_STRAIGHT cfg)).
  - destruct (currHead w); [|discriminate].
    destruct (cpsTargetHead w); [|discriminate].
    intros H. inversion H. reflexivity.
  - intros H. inversion H. reflexivity.
Qed.

(** C1.  With light seeking off, the bias a scan cycle applies and
    remembers in [_turnBias] is 0, heading hold or not: the correction
    is computed into a local variable that nothing reads.  On a robot
    that holds heading 0 and has veered to heading 20, where
    [heading_error * HEAD_ADJUST_FACT] is -20, the cycle drives every
    position for 300 ms and remembers 0. *)
Theorem heading_hold_bias_discarded :
  (forall (E : Env) (cfg : Config) (w : World) (r : Z) (w' : World),
      truthy (DO_FIND_LIGHT cfg) = false ->
      scanForObstacleOrCliff E cfg w = (Ok r, w') ->
      _turnBias w' = 0)
  /\ (let E := compass_env (20#1) in
      let w := after (housekeeper E heading_config) (heading_bug E) in
      let scan := scanForObstacleOrCliff E heading_config in
      currHead w = Some (20#1)%Q
      /\ cpsTargetHead w = Some 0%Q
      /\ (spec_heading_bias heading_config (20#1) 0 == -20#1)%Q
      /\ result scan w = Ok 0
      /\ map Qred (spins (logged scan w)) = [300#1; 300#1; 300#1; 300#1]%Q
      /\ _turnBias (after scan w) = 0).
Proof.
  split.
  - intros E cfg w r w' Hl H.
    apply scan_cycle_inv in H as (bias & n & evs & Hb & _ & _ & Ht & _).
    rewrite Ht. eapply scan_bias_without_light; eassumption.
  - vm_compute. repeat split.
Qed.

(** C3.  [lookAround] never writes [cpsTargetHead], the attribute a scan
    cycle subtracts from the current heading: on exit under heading hold
    it assigns the fresh compass heading to another attribute,
    [_targetHead].  On a robot constructed at heading 0 and turned to
    heading 90 since, the target of the next scan cycle is still 0 after
    [lookAround]. *)
Theorem lookAround_keeps_scan_target :
  (forall (E : Env) (cfg : Config) (w : World),
      cpsTargetHead (after (lookAround E cfg) w) = cpsTargetHead w)
  /\ (let E := compass_env (90#1) in
      let w' := after (lookAround E heading_config) (heading_bug E) in
      result (lookAround E heading_config) (heading_bug E) = Ok tt
      /\ _targetHead w' = Some (90#1)%Q
      /\ cpsTargetHead w' = Some 0%Q).
Proof.
  split.
  - intros E cfg w. apply (lookAround_exit E cfg w).
  - vm_compute. repeat split.
Qed.
(** ** Construction: the scan positions *)

Lemma list_set_middle {A} (done : list A) (x v : A) (todo : list A) :
  list_set (length done) v (done ++ x :: todo) = Some (done ++ v :: todo).
Proof.
  induction done as [|h t IH]; simpl; [reflexivity|].
  rewrite IH. reflexivity.
Qed.

Lemma set_heap_same (w : World) : set_heap (heap w) w = w.
Proof. destruct w. reflexivity. Qed.

Section Scaling.

Variable E : Env.
Variable cfg : Config.

(** The scaling loop, started at index [length done] on a list object
    that [IR_SCAN_POS] and [self._scanPos] both refer to, rewrites that
    one object and nothing else. *)
Lemma scale_scan_pos_run (todo : list Q) :
  forall (done : list Q) (w : World),
    _scanPos w = IR_SCAN_POS w ->
    (IR_SCAN_POS w < length (heap w))%nat ->
    nth (IR_SCAN_POS w) (heap w) [] = done ++ todo ->
    exists h,
      scale_scan_pos cfg (length todo) (length done) w
      = (Ok tt, set_heap h w)
      /\ length h = length (heap w)
      /\ nth (IR_SCAN_POS w) h [] = done ++ map (scaled cfg) todo.
Proof.
  induction todo as [|x todo IH]; intros done w Halias Ha Hl.
  - exists (heap w). rewrite set_heap_same. simpl. auto.
  - cbn [scale_scan_pos length]. unfold heap_get.
    rewrite !bind_get, Hl.
    rewrite nth_error_app2, Nat.sub_diag by lia. cbn [nth_error].
    rewrite !bind_get, Halias, Hl.
    assert (Hx : nth_error (done ++ x :: todo) (length done) = Some x).
    { rewrite nth_error_app2, Nat.sub_diag by lia. reflexivity. }
    rewrite (bind_Ok _ _ _ _ _ (py_getitem_nat _ _ _ w Hx)).
    rewrite list_set_middle. unfold heap_put. rewrite bind_modify.
    destruct (list_set_Some (IR_SCAN_POS w)
                (done ++ float_round (x * bias_factor cfg x) :: todo)
                (heap w) Ha)
      as [h1 Hh1].
    rewrite Hh1.
    destruct (IH (done ++ [scaled cfg x]) (set_heap h1 w)) as (h & Hrun & Hlen & Hn).
    + exact Halias.
    + wsimpl_goal. rewrite (list_set_length _ _ _ _ Hh1). exact Ha.
    + wsimpl_goal. rewrite (list_set_nth _ _ _ _ _ Hh1), <- app_assoc.
      reflexivity.
    + rewrite length_app, Nat.add_1_r in Hrun. exists h.
      split; [exact Hrun|]. wsimpl. split.
      * rewrite Hlen. apply (list_set_length _ _ _ _ Hh1).
      * rewrite Hn, <- app_assoc. reflexivity.
Qed.

End Scaling.
(** ** Construction: the distance profile and its index map *)

Lemma existsb_eqb_In (pos : Z) (l : list Z) :
  existsb (Z.eqb pos) l = true <-> In pos l.
Proof.
  rewrite existsb_exists. split.
  - intros (x & Hx & He). apply Z.eqb_eq in He. subst. exact Hx.
  - intros H. exists pos. split; [exact H | apply Z.eqb_refl].
Qed.

Lemma distinct_acc_prefix (degs : list Z) :
  forall l, exists more, distinct_acc l degs = l ++ more.
Proof.
  induction degs as [|pos rest IH]; intros l; simpl.
  - exists []. rewrite app_nil_r. reflexivity.
  - destruct (existsb (Z.eqb pos) l); [apply IH|].
    destruct (IH (l ++ [pos])) as [more ->].
    exists (pos :: more). rewrite <- app_assoc. reflexivity.
Qed.

Lemma distinct_acc_In (degs : list Z) :
  forall l x, In x (distinct_acc l degs) <-> In x l \/ In x degs.
Proof.
  induction degs as [|pos rest IH]; intros l x; simpl.
  - tauto.
  - destruct (existsb (Z.eqb pos) l) eqn:Hex; rewrite IH.
    + apply existsb_eqb_In in Hex. intuition (subst; auto).
    + rewrite in_app_iff. simpl. tauto.
Qed.

Lemma distinct_acc_NoDup (degs : list Z) :
  forall l, NoDup l -> NoDup (distinct_acc l degs).
Proof.
  induction degs as [|pos rest IH]; intros l Hl; simpl; [exact Hl|].
  destruct (existsb (Z.eqb pos) l) eqn:Hex; [apply IH; exact Hl|].
  apply IH. apply NoDup_app; [exact Hl | repeat constructor; intros [] |].
  intros x Hx [<- | []].
  apply existsb_eqb_In in Hx. congruence.
Qed.

(** The number of distinct angles is the length of that list. *)
Lemma distinct_acc_length (degs : list Z) :
  length (distinct_acc [] degs) = length (nodup Z.eq_dec degs).
Proof.
  apply Nat.le_antisymm; apply NoDup_incl_length.
  - apply distinct_acc_NoDup. constructor.
  - intros x Hx. apply nodup_In. apply distinct_acc_In in Hx.
    destruct Hx as [[] | Hx]. exact Hx.
  - apply NoDup_nodup.
  - intros x Hx. apply nodup_In in Hx. apply distinct_acc_In. auto.
Qed.

Lemma first_index_Some (pos : Z) (l : list Z) :
  forall j0, In pos l ->
    exists j, first_index pos l j0 = Some (j0 + j)%nat
              /\ nth_error l j = Some pos.
Proof.
  induction l as [|x t IH]; intros j0 Hin; [destruct Hin|].
  simpl. destruct (Z.eqb_spec x pos) as [-> | Hne].
  - exists 0%nat. rewrite Nat.add_0_r. auto.
  - destruct Hin as [-> | Hin]; [congruence|].
    destruct (IH (S j0) Hin) as (j & Hf & Hn).
    exists (S j). rewrite Nat.add_succ_r. auto.
Qed.

Lemma iScanPos_setitem_inv (i v : nat) (w w' : World) :
  iScanPos_setitem i v w = (Ok tt, w') ->
  exists im, list_set i v (_iScanPos w) = Some im /\ w' = set__iScanPos im w.
Proof.
  unfold iScanPos_setitem. rewrite bind_get.
  destruct (list_set i v (_iScanPos w)) as [im|]; intros H; inversion H.
  eauto.
Qed.

Lemma set__iScanPos_same (w : World) : set__iScanPos (_iScanPos w) w = w.
Proof. destruct w. reflexivity. Qed.

(** The index loop writes [_iScanPos] only, from index [iPos] on; it
    returns the distinct angles, and it maps every position whose angle
    was listed before to the place of that angle in the list. *)
Lemma index_scan_pos_inv (degs : list Z) :
  forall (iPos : nat) (l : list Z) (w : World) (l' : list Z) (w' : World),
    (iPos = 0%nat -> l = []) ->
    index_scan_pos degs iPos l w = (Ok l', w') ->
    l' = distinct_acc l degs
    /\ exists im,
         w' = set__iScanPos im w
         /\ (forall i, (i < iPos)%nat ->
                       nth_error im i = nth_error (_iScanPos w) i)
         /\ (forall k pos,
                nth_error degs k = Some pos ->
                In pos (l ++ firstn k degs) ->
                exists slot, nth_error im (iPos + k) = Some slot
                             /\ nth_error l' slot = Some pos).
Proof.
  induction degs as [|pos0 rest IH]; intros iPos l w l' w' H0 H.
  - inversion H; subst. split; [reflexivity|].
    exists (_iScanPos w'). rewrite set__iScanPos_same.
    split; [reflexivity|]. split; [reflexivity|].
    intros [|k] pos Hk; discriminate.
  - cbn [index_scan_pos distinct_acc] in *.
    assert (Hcond : (iPos =? 0)%nat || negb (existsb (Z.eqb pos0) l)
                    = negb (existsb (Z.eqb pos0) l)).
    { destruct (Nat.eqb_spec iPos 0) as [Hz|]; [|reflexivity].
      rewrite (H0 Hz). reflexivity. }
    rewrite Hcond in H. clear Hcond.
    destruct (existsb (Z.eqb pos0) l) eqn:Hex; cbn [negb] in H.
    + (* the angle is listed already *)
      apply existsb_eqb_In in Hex.
      destruct (first_index_Some pos0 l 0 Hex) as (j & Hf & Hj).
      rewrite Hf in H. cbn [Nat.add] in H.
      apply bind_Ok_inv in H as ([] & w1 & Hset & H).
      apply iScanPos_setitem_inv in Hset as (im1 & Him1 & ->).
      apply IH in H as (-> & im & -> & Hlow & Hrep);
        [|intros; discriminate].
      split; [reflexivity|]. exists im. split; [reflexivity|].
      wsimpl. split.
      * intros i Hi. rewrite Hlow by lia.
        rewrite (list_set_nth_error _ _ _ _ i Him1).
        destruct (Nat.eqb_spec iPos i); [lia | reflexivity].
      * intros [|k] pos Hk Hin.
        -- injection Hk as <-. exists j. rewrite Nat.add_0_r. split.
           ++ rewrite Hlow by lia.
              rewrite (list_set_nth_error _ _ _ _ iPos Him1), Nat.eqb_refl.
              reflexivity.
           ++ destruct (distinct_acc_prefix rest l) as [more ->].
              rewrite nth_error_app1; [exact Hj|].
              apply nth_error_Some. congruence.
        -- rewrite Nat.add_succ_r. apply (Hrep k pos Hk).
           cbn [firstn] in Hin. apply in_app_iff in Hin.
           apply in_app_iff. destruct Hin as [Hin | [<- | Hin]]; auto.
    + (* a new angle *)
      apply bind_Ok_inv in H as ([] & w1 & Hset & H).
      apply iScanPos_setitem_inv in Hset as (im1 & Him1 & ->).
      apply IH in H as (-> & im & -> & Hlow & Hrep);
        [|intros; discriminate].
      split; [reflexivity|]. exists im. split; [reflexivity|].
      wsimpl. split.
      * intros i Hi. rewrite Hlow by lia.
        rewrite (list_set_nth_error _ _ _ _ i Him1).
        destruct (Nat.eqb_spec iPos i); [lia | reflexivity].
      * intros [|k] pos Hk Hin.
        -- injection Hk as <-. cbn [firstn] in Hin. rewrite app_nil_r in Hin.
           apply existsb_eqb_In in Hin. congruence.
        -- rewrite Nat.add_succ_r. apply (Hrep k pos Hk).
           cbn [firstn] in Hin. rewrite <- app_assoc. exact Hin.
Qed.
Section Construction.

Variable E : Env.
Variable cfg : Config.

Lemma add_ranging_sensors_run (pins : list Z) (w : World) :
  add_ranging_sensors pins w
  = (if existsb (fun pin => pin <? 0) pins then Raise ValueError else Ok tt,
     w).
Proof.
  induction pins as [|pin rest IH]; cbn [add_ranging_sensors existsb].
  - reflexivity.
  - unfold bind, enable_channel. destruct (pin <? 0); [reflexivity|].
    cbn [ret orb]. exact IH.
Qed.

Lemma init_ranging_inv (vl6180x : bool) (w w' : World) :
  init_ranging cfg vl6180x w = (Ok tt, w') ->
  heap w' = heap w /\ IR_SCAN_POS w' = IR_SCAN_POS w
  /\ nRangingSensor w'
     = (if vl6180x then nRangingSensor w else Some (analog_sensors cfg)).
Proof.
  unfold init_ranging, analog_sensors. intros H.
  apply bind_Ok_inv in H as ([] & w0 & H0 & H).
  apply bind_Ok_inv in H as (n & w1 & Hn & H).
  apply attr_inv in Hn as [Hn ->].
  assert (w' = w0)
    by (destruct (vl6180x || negb (n =? 0)%nat); inversion H; reflexivity).
  subst w'. clear H Hn.
  destruct vl6180x; [injection H0 as <-; auto|].
  apply bind_Ok_inv in H0 as ([] & w1 & H1 & H0).
  rewrite add_ranging_sensors_run in H1.
  destruct (existsb _ _); [discriminate|]. injection H1 as <-.
  injection H0 as <-. wsimpl_goal.
  destruct (AI_CH_IR_RANGING cfg); auto.
Qed.

(** The attribute block always runs to its end, and leaves the scan
    positions, the index map and the sensor count alone. *)
Lemma init_attributes_run (l : list Z) (w : World) :
  exists w',
    init_attributes E cfg l w = (Ok tt, w')
    /\ heap w' = heap w /\ IR_SCAN_POS w' = IR_SCAN_POS w
    /\ _scanPos w' = _scanPos w /\ _iScanPos w' = _iScanPos w
    /\ nRangingSensor w' = nRangingSensor w
    /\ _distData w' = repeat 0 (length l)
    /\ (2 <= DIST_SMOOTH cfg -> length (_distDataFilters w') = length l).
Proof.
  unfold init_attributes, Compass_getHeading.
  destruct (Z.leb_spec 2 (DIST_SMOOTH cfg));
    destruct (truthy (DO_WALK_STRAIGHT cfg) && negb (truthy (DO_FIND_LIGHT cfg)));
    destruct (truthy (DO_FIND_LIGHT cfg));
    (eexists; split; [reflexivity|]); wsimpl_goal;
    repeat (split; [reflexivity|]); intros; try lia; apply repeat_length.
Qed.

(** What a construction that succeeds has done.  [w] is the interpreter
    before the call; the name [IR_SCAN_POS] is bound to a list object. *)
Lemma init_inv (vl6180x : bool) (w w' : World) :
  (IR_SCAN_POS w < length (heap w))%nat ->
  __init__ E cfg vl6180x w = (Ok tt, w') ->
  (IR_SCAN_POS w' = IR_SCAN_POS w
   /\ _scanPos w' = IR_SCAN_POS w
   /\ length (heap w') = length (heap w)
   /\ nth (IR_SCAN_POS w) (heap w') []
      = map (scaled cfg) (nth (IR_SCAN_POS w) (heap w) []))
  /\ nRangingSensor w'
     = (if vl6180x then nRangingSensor w else Some (analog_sensors cfg))
  /\ _distData w' = repeat 0 (length (profile_angles cfg))
  /\ (2 <= DIST_SMOOTH cfg ->
      length (_distDataFilters w') = length (profile_angles cfg))
  /\ (forall k pos,
         nth_error (IR_SCAN_POS_DEG cfg) k = Some pos ->
         In pos (firstn k (IR_SCAN_POS_DEG cfg)) ->
         exists slot, nth_error (_iScanPos w') k = Some slot
                      /\ nth_error (profile_angles cfg) slot = Some pos).
Proof.
  intros Ha H. unfold __init__ in H.
  apply bind_Ok_inv in H as ([] & w0 & H0 & H).
  apply init_ranging_inv in H0 as (Hh0 & Ha0 & Hn0).
  unfold heap_get in H. rewrite bind_get, bind_modify, bind_get in H.
  rewrite !bind_modify in H. cbn [heap set__scanPos] in H.
  set (old := nth (IR_SCAN_POS w0) (heap w0) []) in *.
  set (w1 := set_onTrouble false _) in H.
  destruct (scale_scan_pos_run cfg old [] w1) as (h & Hrun & Hlen & Hnth);
    [reflexivity | subst w1; wsimpl_goal; congruence | reflexivity |].
  cbn [length app] in Hrun, Hnth. rewrite (bind_Ok _ _ _ _ _ Hrun) in H.
  apply bind_Ok_inv in H as (l & w3 & Hidx & H).
  apply index_scan_pos_inv in Hidx as (-> & im & -> & _ & Hrep); [|reflexivity].
  fold (profile_angles cfg) in H, Hrep.
  destruct (init_attributes_run (profile_angles cfg)
              (set__iScanPos im (set_heap h w1)))
    as (w4 & Hrun4 & Hh4 & Ha4 & Hs4 & Hi4 & Hn4 & Hd4 & Hf4).
  rewrite Hrun4 in H. injection H as <-.
  subst w1. cbn [heap IR_SCAN_POS nRangingSensor _scanPos _iScanPos
                 set_heap set__iScanPos set_onTrouble set__scanPos]
    in Hlen, Hnth, Hh4, Ha4, Hs4, Hi4, Hn4.
  unfold old in Hnth. rewrite Ha0, Hh0 in Hnth. rewrite Hh0 in Hlen.
  split; [|split; [|split; [|split]]].
  - rewrite Hh4, Ha4, Hs4, Ha0. auto.
  - rewrite Hn4. exact Hn0.
  - exact Hd4.
  - exact Hf4.
  - intros k pos Hk Hin. rewrite Hi4. apply Hrep; assumption.
Qed.

End Construction.
(** ** The configured list is scaled in place *)

Lemma map_fixes {A} (f : A -> A) (l : list A) :
  map f l = l <-> (forall x, In x l -> f x = x).
Proof.
  induction l as [|x l IH]; simpl.
  - split; [intros _ y [] | reflexivity].
  - split.
    + intros H y [<-|Hy]; injection H as Hx Hl; [exact Hx|].
      apply IH; assumption.
    + intros H. f_equal; [apply H; auto|]. apply IH. intros y Hy.
      apply H. auto.
Qed.

(** C10, as stated, fails for a bias factor that is not zero but too
    small to show in a double: with [IR_SCAN_BIAS_F = 2 ** -60] both
    factors round to 1.0, and neither a first nor a second construction
    changes a value of the configured list. *)
Lemma init_keeps_list_for_tiny_bias :
  let E := quiet_env [] in
  let w := imported IR_SCAN_POS_shipped in
  let w1 := after (__init__ E tiny_bias_config false) w in
  let w2 := after (__init__ E tiny_bias_config false) w1 in
  Qeq_bool (IR_SCAN_BIAS_F tiny_bias_config) 0 = false
  /\ float_round (IR_SCAN_BIAS_F tiny_bias_config)
     = IR_SCAN_BIAS_F tiny_bias_config
  /\ result (__init__ E tiny_bias_config false) w = Ok tt
  /\ result (__init__ E tiny_bias_config false) w1 = Ok tt
  /\ _scanPos w1 = IR_SCAN_POS w1
  /\ nth 0 (heap w1) [] = IR_SCAN_POS_shipped
  /\ nth 0 (heap w2) [] = IR_SCAN_POS_shipped.
Proof. vm_compute. repeat split. Qed.

(** C10.  A construction that succeeds allocates no list: [_scanPos]
    holds the address bound to [IR_SCAN_POS], and every entry of the
    list object at that address has been replaced by its float product
    with the float [1. + IR_SCAN_BIAS_F] when positive and with
    [1. - IR_SCAN_BIAS_F] otherwise.  The values of the configured list
    have changed exactly when some entry differs from that rounded
    product; constructing a second instance scales the scaled entries
    again. *)
Theorem init_scales_config_list_in_place (E : Env) (cfg : Config)
  (vl6180x : bool) (w w1 : World) :
  (IR_SCAN_POS w < length (heap w))%nat ->
  __init__ E cfg vl6180x w = (Ok tt, w1) ->
  let a := IR_SCAN_POS w in
  let old := nth a (heap w) [] in
  IR_SCAN_POS w1 = a
  /\ _scanPos w1 = IR_SCAN_POS w1
  /\ length (heap w1) = length (heap w)
  /\ nth a (heap w1) [] = map (scaled cfg) old
  /\ (forall pos,
        scaled cfg pos
        = float_round
            (pos * float_round (if Qltb 0 pos then 1 + IR_SCAN_BIAS_F cfg
                                else 1 - IR_SCAN_BIAS_F cfg)))
  /\ (nth a (heap w1) [] = old
      <-> forall pos, In pos old -> scaled cfg pos = pos)
  /\ (forall (E2 : Env) (vl2 : bool) (w2 : World),
        __init__ E2 cfg vl2 w1 = (Ok tt, w2) ->
        _scanPos w2 = a
        /\ nth a (heap w2) [] = map (scaled cfg) (map (scaled cfg) old)).
Proof.
  intros Ha H a old.
  destruct (init_inv E cfg vl6180x w w1 Ha H) as ((Hi & Hs & Hl & Hn) & _).
  fold a in Hi, Hs, Hn. fold old in Hn.
  split; [exact Hi|]. split; [congruence|]. split; [exact Hl|].
  split; [exact Hn|]. split; [reflexivity|]. split.
  - rewrite Hn. apply map_fixes.
  - intros E2 vl2 w2 H2.
    assert (Ha1 : (IR_SCAN_POS w1 < length (heap w1))%nat)
      by (rewrite Hi, Hl; exact Ha).
    destruct (init_inv E2 cfg vl2 w1 w2 Ha1 H2) as ((_ & Hs2 & _ & Hn2) & _).
    rewrite Hi in Hs2, Hn2. rewrite Hn in Hn2. auto.
Qed.

(** With [IR_SCAN_BIAS_F = 0.1] the shipped list becomes
    [[-270.0, 330.0, 330.0, -270.0]], and after a second construction
    [[-243.0, 363.00000000000006, 363.00000000000006, -243.0]]. *)
Lemma init_scales_config_list_twice :
  let E := quiet_env [] in
  let w := imported IR_SCAN_POS_shipped in
  let w1 := after (__init__ E biased_config false) w in
  let w2 := after (__init__ E biased_config false) w1 in
  length (heap w1) = 1%nat
  /\ _scanPos w1 = IR_SCAN_POS w1
  /\ nth 0 (heap w1) [] = [-270#1; 330#1; 330#1; -270#1]%Q
  /\ nth 0 (heap w2) []
     = [-243#1; 6385963534123009 # 17592186044416;
        6385963534123009 # 17592186044416; -243#1]%Q.
Proof.
  intros E w w1 w2.
  destruct (init_scales_config_list_in_place E biased_config false w w1)
    as (_ & Hs & Hl & Hn & _ & _ & Hsecond).
  - vm_compute. lia.
  - vm_compute. reflexivity.
  - destruct (Hsecond E false w2) as (_ & Hn2); [vm_compute; reflexivity|].
    change (IR_SCAN_POS w) with 0%nat in Hn, Hn2.
    split; [exact Hl|]. split; [exact Hs|].
    split; [rewrite Hn | rewrite Hn2]; vm_compute; reflexivity.
Defined.
(** ** Construction validates nothing *)

Section Overrun.

Variable E : Env.
Variable cfg : Config.

(** Polling more sensors than the profile has slots ends in an
    [IndexError]. *)
Lemma poll_overrun (n : nat) :
  forall (iPos : nat) (o c : bool) (w : World),
    (iPos <= length (_distData w) < iPos + n)%nat ->
    fst (poll E cfg n iPos o c w) = Raise IndexError.
Proof.
  induction n as [|n IH]; intros iPos o c w Hlen; [lia|].
  cbn [poll]. rewrite bind_read_range.
  set (w1 := set_log _ _).
  lazymatch goal with
  | |- context [bind (smooth cfg iPos ?d0) _ w1] =>
      destruct (smooth cfg iPos d0 w1) as [[d|e] w2] eqn:Hsm
  end.
  - rewrite (bind_Ok _ _ _ _ _ Hsm).
    apply smooth_inv in Hsm as (_ & Hdd). subst w1. wsimpl.
    destruct (Nat.eq_dec iPos (length (_distData w))) as [Heq | Hne].
    + rewrite (bind_Raise _ _ _ _ _
                 (distData_setitem_fail iPos d w2
                    ltac:(apply list_set_None; rewrite Hdd; lia))).
      reflexivity.
    + destruct (list_set_Some iPos d (_distData w2)) as [dd Hset];
        [rewrite Hdd; lia|].
      rewrite (bind_Ok _ _ _ _ _ (distData_setitem_run iPos d w2 dd Hset)).
      apply IH. wsimpl_goal.
      rewrite (list_set_length _ _ _ _ Hset), Hdd. lia.
  - rewrite (bind_Raise _ _ _ _ _ Hsm).
    apply smooth_raises in Hsm. subst e. reflexivity.
Qed.

(** In array mode, a robot with more sensors than profile slots cannot
    complete a scan cycle. *)
Lemma array_overrun (w : World) (n : nat) (bias : Z) :
  nRangingSensor w = Some n ->
  n <> 1%nat ->
  (length (_distData w) < n)%nat ->
  result (scan_bias cfg) w = Ok bias ->
  result (scanForObstacleOrCliff E cfg) w = Raise IndexError.
Proof.
  intros Hn Hne Hlen Hb. apply scan_bias_run in Hb.
  unfold result, scanForObstacleOrCliff.
  rewrite (bind_Ok _ _ _ _ _ Hb). unfold heap_get. rewrite !bind_get.
  rewrite (bind_attr _ _ _ _ Hn).
  destruct (Nat.eqb_spec n 1) as [|_]; [contradiction|].
  pose proof (poll_overrun n 0 false false w ltac:(lia)) as Hp.
  destruct (poll E cfg n 0 false false w) as [r w1] eqn:Hpoll.
  cbn [fst] in Hp. subst r.
  rewrite bind_bind. rewrite (bind_Raise _ _ _ _ _ Hpoll). reflexivity.
Qed.

End Overrun.

(** C2, as stated, fails: with four array sensors and three distinct
    angles construction succeeds, the sensor index 3 is not an index of
    the distance profile, and the mismatch shows as an [IndexError] in
    the first scan cycle, after three values were stored. *)
Lemma init_accepts_sensor_mismatch :
  let E := quiet_env [15#1; 15#1; 15#1; 15#1]%Q in
  let init := __init__ E array4_config false in
  let w := after init (imported IR_SCAN_POS_shipped) in
  result init (imported IR_SCAN_POS_shipped) = Ok tt
  /\ nRangingSensor w = Some 4%nat
  /\ length (_distData w) = 3%nat
  /\ result (scanForObstacleOrCliff E array4_config) w = Raise IndexError
  /\ stored (logged (scanForObstacleOrCliff E array4_config) w) = [15; 15; 15].
Proof. vm_compute. repeat split. Qed.

(** A position with a new angle is mapped to its own index in the
    position list, not to the slot appended for it: when a repeated
    angle comes before a new one, the entry points past the profile. *)
Example index_map_entry_of_new_angle :
  let E := quiet_env [15#1; 15#1; 15#1]%Q in
  let init := __init__ E repeat_first_config false in
  let w := after init (imported [300#1; 300#1; 300#1]%Q) in
  result init (imported [300#1; 300#1; 300#1]%Q) = Ok tt
  /\ _iScanPos w = [0; 0; 2]%nat
  /\ length (_distData w) = 2%nat
  /\ result (scanForObstacleOrCliff E repeat_first_config) w
     = Raise IndexError.
Proof. vm_compute. repeat split. Qed.

(** C2, amended.  A construction that succeeds has dimensioned the
    distance profile, and its filters when smoothing is configured, with
    exactly one slot per distinct angular position, and has mapped every
    position whose angle occurred earlier in the list to the slot of
    that angle, a valid index.  Nothing compares the number of sensors
    with the profile: in array mode a robot with more sensors than
    distinct angles is constructed all the same, and its scan cycles end
    in an [IndexError]. *)
Theorem init_profile_and_index_map (E : Env) (cfg : Config) (vl6180x : bool)
  (w w' : World) :
  (IR_SCAN_POS w < length (heap w))%nat ->
  __init__ E cfg vl6180x w = (Ok tt, w') ->
  let angles := nodup Z.eq_dec (IR_SCAN_POS_DEG cfg) in
  length (_distData w') = length angles
  /\ (2 <= DIST_SMOOTH cfg ->
      length (_distDataFilters w') = length (_distData w'))
  /\ (forall k pos,
         nth_error (IR_SCAN_POS_DEG cfg) k = Some pos ->
         In pos (firstn k (IR_SCAN_POS_DEG cfg)) ->
         exists slot,
           nth_error (_iScanPos w') k = Some slot
           /\ (slot < length (_distData w'))%nat
           /\ nth_error (profile_angles cfg) slot = Some pos)
  /\ (forall (E' : Env) (n : nat) (bias : Z),
         nRangingSensor w' = Some n ->
         n <> 1%nat ->
         (length angles < n)%nat ->
         result (scan_bias cfg) w' = Ok bias ->
         result (scanForObstacleOrCliff E' cfg) w' = Raise IndexError).
Proof.
  intros Ha H angles.
  destruct (init_inv E cfg vl6180x w w' Ha H) as (_ & _ & Hd & Hf & Hrep).
  assert (Hlen : length (_distData w') = length angles).
  { rewrite Hd, repeat_length. apply distinct_acc_length. }
  split; [exact Hlen|]. split; [|split].
  - intros Hs. rewrite (Hf Hs), Hd, repeat_length. reflexivity.
  - intros k pos Hk Hin.
    destruct (Hrep k pos Hk Hin) as (slot & Hslot & Hang).
    exists slot. split; [exact Hslot|]. split; [|exact Hang].
    rewrite Hd, repeat_length. apply nth_error_Some. congruence.
  - intros E' n bias Hn Hne Hlt Hb.
    apply (array_overrun E' cfg w' n bias Hn Hne); [|exact Hb].
    rewrite Hlen. exact Hlt.
Qed.

Lemma init_profile_and_index_map_shipped :
  let w' := shipped_bug (quiet_env []) in
  length (_distData w') = 3%nat
  /\ exists slot,
       nth_error (_iScanPos w') 3 = Some slot
       /\ (slot < length (_distData w'))%nat
       /\ nth_error (profile_angles hexbug_config) slot = Some 0.
Proof.
  intros w'.
  destruct (init_profile_and_index_map (quiet_env []) hexbug_config false
              (imported IR_SCAN_POS_shipped) w')
    as (Hlen & _ & Hrep & _).
  - vm_compute. lia.
  - vm_compute. reflexivity.
  - split; [exact Hlen|].
    apply (Hrep 3%nat 0); [reflexivity|]. simpl. auto.
Defined.

(** * Further properties *)

(** ** Respecting a relation *)

Section Respects.

Variable R : World -> World -> Prop.
Hypothesis R_refl : forall w, R w w.
Hypothesis R_trans : forall w1 w2 w3, R w1 w2 -> R w2 w3 -> R w1 w3.

Lemma respects_bind {A B} (m : M A) (k : A -> M B) :
  respects R m -> (forall a, respects R (k a)) -> respects R (bind m k).
Proof.
  intros Hm Hk w. unfold bind. specialize (Hm w).
  destruct (m w) as [[a|e] w1]; cbn [snd] in *.
  - eapply R_trans; [exact Hm | apply Hk].
  - exact Hm.
Qed.

Lemma respects_ret {A} (a : A) : respects R (ret a).
Proof. intros w. apply R_refl. Qed.

Lemma respects_raise {A} (e : Exn) : respects R (@raise A e).
Proof. intros w. apply R_refl. Qed.

Lemma respects_get {A} (f : World -> A) : respects R (get f).
Proof. intros w. apply R_refl. Qed.

Lemma respects_attr {A} (f : World -> option A) : respects R (attr f).
Proof. intros w. unfold attr. destruct (f w); apply R_refl. Qed.

Lemma respects_modify (f : World -> World) :
  (forall w, R w (f w)) -> respects R (modify f).
Proof. intros H w. apply H. Qed.

Lemma respects_py_getitem {A} (l : list A) (i : Z) :
  respects R (py_getitem l i).
Proof.
  intros w. unfold py_getitem.
  destruct (_ <? 0); [apply R_refl|].
  destruct (nth_error _ _); apply R_refl.
Qed.

Lemma respects_repeatM (n : nat) (m : M unit) :
  respects R m -> respects R (repeatM n m).
Proof.
  intros Hm. induction n as [|n IH]; cbn [repeatM].
  - apply respects_ret.
  - apply respects_bind; auto.
Qed.

Lemma respects_try_finally {A} (body : M A) (fin : M unit) :
  respects R body -> respects R fin -> respects R (try_finally body fin).
Proof.
  intros Hb Hf w. unfold try_finally. specialize (Hb w).
  destruct (body w) as [[a|e] w1]; cbn [snd] in Hb;
    specialize (Hf w1); destruct (fin w1) as [[u|e'] w2]; cbn [snd] in *;
    eapply R_trans; eassumption.
Qed.

End Respects.

Lemma scan_frame_refl (w : World) : scan_frame w w.
Proof. constructor; reflexivity. Qed.

Lemma scan_frame_trans (w1 w2 w3 : World) :
  scan_frame w1 w2 -> scan_frame w2 w3 -> scan_frame w1 w3.
Proof. intros [] []. constructor; etransitivity; eassumption. Qed.

Lemma keeps_scan_frame (w w' : World) : keeps w w' -> scan_frame w w'.
Proof. intros []. constructor; congruence. Qed.

(** ** What a scan cycle leaves alone *)

Create HintDb scanf.

Lemma scan_frame_bind {A B} (m : M A) (k : A -> M B) :
  respects scan_frame m -> (forall a, respects scan_frame (k a)) ->
  respects scan_frame (bind m k).
Proof. apply respects_bind. exact scan_frame_trans. Qed.

Lemma scan_frame_ret {A} (a : A) : respects scan_frame (ret a).
Proof. apply respects_ret. exact scan_frame_refl. Qed.

Lemma scan_frame_get {A} (f : World -> A) : respects scan_frame (get f).
Proof. apply respects_get. exact scan_frame_refl. Qed.

Lemma scan_frame_attr {A} (f : World -> option A) :
  respects scan_frame (attr f).
Proof. apply respects_attr. exact scan_frame_refl. Qed.

Lemma scan_frame_py_getitem {A} (l : list A) (i : Z) :
  respects scan_frame (py_getitem l i).
Proof. apply respects_py_getitem. exact scan_frame_refl. Qed.

Lemma scan_frame_MotorTurn (v : Z) :
  respects scan_frame (MotorTurn_set_speed v).
Proof. intros w. constructor; reflexivity. Qed.

Lemma scan_frame_distData_setitem (slot : nat) (d : Z) :
  respects scan_frame (distData_setitem slot d).
Proof.
  intros w. destruct (list_set slot d (_distData w)) as [dd|] eqn:Hset.
  - rewrite (distData_setitem_run _ _ _ _ Hset).
    constructor; try reflexivity. apply (list_set_length _ _ _ _ Hset).
  - rewrite (distData_setitem_fail _ _ _ Hset). apply scan_frame_refl.
Qed.

#[local] Hint Resolve scan_frame_ret scan_frame_get scan_frame_attr
  scan_frame_py_getitem scan_frame_MotorTurn scan_frame_distData_setitem
  : scanf.

(** Splits a sequence of steps into its steps. *)
Ltac scan_frame_steps :=
  repeat first [ solve [auto with scanf]
               | apply scan_frame_bind; [|intros] ].

Section ScanFrame.

Variable E : Env.
Variable cfg : Config.

Lemma scan_frame_read_range (i : nat) : respects scan_frame (read_range E i).
Proof. intros w. constructor; reflexivity. Qed.

Lemma scan_frame_spin_ms (ms : Q) : respects scan_frame (spin_ms E cfg ms).
Proof.
  intros w. destruct (spin_ms_run E cfg ms w) as (w' & Hrun & Hk & _ & _).
  rewrite Hrun. apply keeps_scan_frame. exact Hk.
Qed.

Lemma scan_frame_smooth (iPos : nat) (d0 : Z) :
  respects scan_frame (smooth cfg iPos d0).
Proof.
  unfold smooth. destruct (2 <=? DIST_SMOOTH cfg); [|apply scan_frame_ret].
  intros w. rewrite bind_get.
  destruct (py_getitem (_distDataFilters w) (Z.of_nat iPos) w)
    as [[f|e] w1] eqn:Hget.
  - apply py_getitem_nat_inv in Hget as Hf. destruct Hf as [_ ->].
    rewrite (bind_Ok _ _ _ _ _ Hget). unfold filter_mean.
    destruct (list_set iPos _ (_distDataFilters w)) as [fs|] eqn:Hset.
    + constructor; try reflexivity. apply (list_set_length _ _ _ _ Hset).
    + apply scan_frame_refl.
  - rewrite (bind_Raise _ _ _ _ _ Hget). cbn [snd].
    pose proof (scan_frame_py_getitem (_distDataFilters w) (Z.of_nat iPos) w)
      as Hr.
    rewrite Hget in Hr. exact Hr.
Qed.

#[local] Hint Resolve scan_frame_read_range scan_frame_spin_ms
  scan_frame_smooth : scanf.

Lemma scan_frame_sweep (poss : list Q) :
  forall (l bias : Z) (iPos : nat) (o c : bool),
    respects scan_frame (sweep E cfg l bias poss iPos o c).
Proof.
  induction poss as [|Pos rest IH]; intros l bias iPos o c; cbn [sweep];
    scan_frame_steps.
Qed.

Lemma scan_frame_poll (n : nat) :
  forall (iPos : nat) (o c : bool),
    respects scan_frame (poll E cfg n iPos o c).
Proof.
  induction n as [|n IH]; intros iPos o c; cbn [poll]; scan_frame_steps.
Qed.

Lemma scan_frame_nudge (bias : Z) : respects scan_frame (nudge E cfg bias).
Proof.
  unfold nudge. scan_frame_steps. destruct (Qltb 0 _); auto with scanf.
Qed.

#[local] Hint Resolve scan_frame_sweep scan_frame_poll scan_frame_nudge
  : scanf.

(** X4.  A scan cycle, whether it returns or raises, leaves the scan
    positions, the index map, the sensor count, the turn statistics, the
    target headings and the servo angle as they were, draws no random
    number, and does not resize the distance profile or its filters. *)
Theorem scan_cycle_frame (w : World) :
  scan_frame w (after (scanForObstacleOrCliff E cfg) w).
Proof.
  revert w. change (respects scan_frame (scanForObstacleOrCliff E cfg)).
  unfold scanForObstacleOrCliff, heap_get.
  apply scan_frame_bind.
  { intros w. rewrite scan_bias_state. apply scan_frame_refl. }
  intros bias. scan_frame_steps.
  - destruct (_ =? 1)%nat; scan_frame_steps.
  - apply respects_modify. intros w. constructor; reflexivity.
Qed.

End ScanFrame.

(** ** The commands of [lookAround] *)

Lemma randint_range (E : Env) (a b : Z) (w : World) :
  a <= b ->
  exists r, randint E a b w = (Ok r, set_n_rand (S (n_rand w)) w)
            /\ a <= r <= b.
Proof.
  intros Hab. eexists. split; [reflexivity|].
  pose proof (Z.mod_pos_bound (Z.of_nat (rand_raw E (n_rand w))) (b - a + 1)).
  lia.
Qed.

Lemma Qsum_app (l1 l2 : list Q) : (Qsum (l1 ++ l2) == Qsum l1 + Qsum l2)%Q.
Proof.
  induction l1 as [|x l1 IH]; simpl.
  - ring.
  - unfold Qsum in *. simpl. rewrite IH. ring.
Qed.

Lemma skipn_length_app {A} (l evs : list A) :
  skipn (length l) (l ++ evs) = evs.
Proof. rewrite skipn_app, skipn_all, Nat.sub_diag. reflexivity. Qed.

Lemma spins_app (l1 l2 : list Event) : spins (l1 ++ l2) = spins l1 ++ spins l2.
Proof. unfold spins. apply flat_map_app. Qed.

Section LookCommands.

Variable E : Env.
Variable cfg : Config.

(** Each saccade adds at most two waits, of at most 800 and 500 ms. *)
Lemma saccades_commands (n : nat) :
  forall (yaw pit : Z) (w : World),
    exists evs,
      log (snd (saccades E cfg n (maxPit cfg) yaw pit w)) = log w ++ evs
      /\ Forall (look_command cfg) evs
      /\ (length (spins evs) <= 2 * n)%nat
      /\ (Qsum (spins evs) <= inject_Z (1300 * Z.of_nat n))%Q.
Proof.
  induction n as [|n IH]; intros yaw pit w.
  { exists []. rewrite app_nil_r. repeat split; auto.
    simpl. apply Qle_refl. }
  cbn [saccades]. rewrite bind_get.
  destruct (onHold w).
  { exists []. rewrite app_nil_r. repeat split; auto; try (simpl; lia).
    change (Qsum (spins [])) with (inject_Z 0). rewrite <- Zle_Qle. lia. }
  destruct (randint_range E (-800) 800 w ltac:(lia)) as (dYaw & HdY & HdYr).
  rewrite (bind_Ok _ _ _ _ _ HdY).
  destruct (randint_range E (-10) 15 (set_n_rand (S (n_rand w)) w)
              ltac:(lia)) as (r & Hr & _).
  rewrite (bind_Ok _ _ _ _ _ Hr).
  set (pit' := Z.min (Z.max 0 (pit + r)) (maxPit cfg)).
  set (v := SPEED_TURN cfg * (if dYaw <? 0 then -1 else 1)).
  assert (Hpit : look_command cfg (EvServoAngle pit')).
  { right. subst pit'. lia. }
  assert (Hv : look_command cfg (EvTurnSpeed v)).
  { subst v. cbn. destruct (dYaw <? 0); lia. }
  assert (Hs1 : look_command cfg (EvSpin (inject_Z (Z.abs dYaw)))).
  { cbn. rewrite <- (Zle_Qle 0), <- Zle_Qle. lia. }
  rewrite bind_Servo, bind_MotorTurn.
  lazymatch goal with
  | |- context [bind (spin_ms E cfg ?ms) _ ?w1] =>
      destruct (spin_ms_run E cfg ms w1) as (w2 & Hrun & _ & _ & Hlog)
  end.
  cbn [log set_log set_MotorTurn_speed set_Servo_on set_Servo_angle
       set_n_rand] in Hlog.
  assert (Hq1 : (inject_Z (Z.abs dYaw) <= inject_Z 800)%Q)
    by (rewrite <- Zle_Qle; lia).
  lazymatch type of Hrun with
  | context [spin_fault E ?k] => destruct (spin_fault E k)
  end.
  { rewrite (bind_Raise _ _ _ _ _ Hrun). cbn [snd].
    exists [EvServoAngle pit'; EvTurnSpeed v; EvSpin (inject_Z (Z.abs dYaw))].
    split; [rewrite Hlog, <- !app_assoc; reflexivity|].
    split; [repeat (apply Forall_cons; [assumption|]); apply Forall_nil|].
    split; [cbn; lia|].
    cbn [app spins flat_map Qsum fold_right].
    rewrite Qplus_0_r. eapply Qle_trans; [exact Hq1|].
    rewrite <- Zle_Qle. lia. }
  rewrite (bind_Ok _ _ _ _ _ Hrun), bind_MotorTurn.
  lazymatch goal with
  | |- context [bind (randint E 0 500) _ ?w3] =>
      destruct (randint_range E 0 500 w3 ltac:(lia)) as (p & Hp & Hpr)
  end.
  rewrite (bind_Ok _ _ _ _ _ Hp).
  assert (Hs2 : look_command cfg (EvSpin (inject_Z p))).
  { cbn. rewrite <- (Zle_Qle 0), <- Zle_Qle. lia. }
  assert (Hq2 : (inject_Z p <= inject_Z 500)%Q)
    by (rewrite <- Zle_Qle; lia).
  lazymatch goal with
  | |- context [bind (spin_ms E cfg ?ms) _ ?w4] =>
      destruct (spin_ms_run E cfg ms w4) as (w5 & Hrun' & _ & _ & Hlog')
  end.
  cbn [log set_log set_MotorTurn_speed set_n_rand] in Hlog'.
  rewrite Hlog in Hlog'.
  assert (Hstop : look_command cfg (EvTurnSpeed 0)) by (left; reflexivity).
  lazymatch type of Hrun' with
  | context [spin_fault E ?k] => destruct (spin_fault E k)
  end.
  { rewrite (bind_Raise _ _ _ _ _ Hrun'). cbn [snd].
    exists [EvServoAngle pit'; EvTurnSpeed v; EvSpin (inject_Z (Z.abs dYaw));
            EvTurnSpeed 0; EvSpin (inject_Z p)].
    split; [rewrite Hlog', <- !app_assoc; reflexivity|].
    split; [repeat (apply Forall_cons; [assumption|]); apply Forall_nil|].
    split; [cbn; lia|].
    cbn [app spins flat_map Qsum fold_right].
    rewrite Qplus_0_r.
    eapply Qle_trans; [apply Qplus_le_compat; eassumption|].
    rewrite <- inject_Z_plus, <- Zle_Qle. lia. }
  rewrite (bind_Ok _ _ _ _ _ Hrun').
  destruct (IH (yaw + dYaw) pit' w5) as (evs & Hl & Hall & Hlen & Hsum).
  exists ([EvServoAngle pit'; EvTurnSpeed v; EvSpin (inject_Z (Z.abs dYaw));
           EvTurnSpeed 0; EvSpin (inject_Z p)] ++ evs).
  split; [rewrite Hl, Hlog', <- !app_assoc; reflexivity|].
  split; [cbn [app]; repeat (apply Forall_cons; [assumption|]); exact Hall|].
  split; [rewrite spins_app, length_app; cbn; lia|].
  rewrite spins_app, Qsum_app.
  cbn [spins flat_map app Qsum fold_right]. rewrite Qplus_0_r.
  setoid_replace (inject_Z (1300 * Z.of_nat (S n)))
    with (inject_Z 800 + inject_Z 500 + inject_Z (1300 * Z.of_nat n))%Q.
  - apply Qplus_le_compat; [apply Qplus_le_compat|]; assumption.
  - rewrite <- !inject_Z_plus. apply inject_Z_injective. lia.
Qed.

End LookCommands.

Section LookBounds.

Variable E : Env.
Variable cfg : Config.

Lemma lookAround_cleanup_log (prevState : Z) (w : World) :
  log (snd (lookAround_cleanup E cfg prevState w))
  = log w ++ [EvTurnSpeed 0; EvServoAngle (SCAN_DIST_SERVO cfg)].
Proof.
  unfold lookAround_cleanup, Compass_getHeading.
  destruct (truthy (DO_WALK_STRAIGHT cfg) && negb (truthy (DO_FIND_LIGHT cfg)));
    cbn; rewrite <- app_assoc; reflexivity.
Qed.

(** What [lookAround] logs: the two stops on entry, the commands of the
    saccades, the stop and the neutral angle of the cleanup. *)
Lemma lookAround_log (w : World) :
  exists evs,
    log (after (lookAround E cfg) w)
    = log w ++ [EvWalkSpeed 0; EvTurnSpeed 0] ++ evs
      ++ [EvTurnSpeed 0; EvServoAngle (SCAN_DIST_SERVO cfg)]
    /\ Forall (look_command cfg) evs
    /\ (length (spins evs) <= 20)%nat
    /\ (Qsum (spins evs) <= inject_Z 13000)%Q.
Proof.
  unfold after, lookAround.
  change (bind (MotorWalk_set_speed 0) ?k w)
    with (k tt (set_log (log w ++ [EvWalkSpeed 0]) (set_MotorWalk_speed 0 w))).
  cbv beta. rewrite bind_MotorTurn, bind_get, bind_modify.
  lazymatch goal with
  | |- context [bind (randint E 4 10) _ ?w0] =>
      destruct (randint_range E 4 10 w0 ltac:(lia)) as (nSacc & Hn & Hnr)
  end.
  rewrite (bind_Ok _ _ _ _ _ Hn). unfold try_finally.
  fold (maxPit cfg).
  lazymatch goal with
  | |- context [saccades E cfg ?n (maxPit cfg) ?y ?p ?w0] =>
      destruct (saccades_commands E cfg n y p w0)
        as (evs & Hlog & Hall & Hlen & Hsum);
      destruct (saccades E cfg n (maxPit cfg) y p w0) as [res w1]
  end.
  cbn [snd log set_log set_n_rand set_state set_MotorTurn_speed
       set_MotorWalk_speed] in Hlog.
  pose proof (lookAround_cleanup_log (state w) w1) as Hc.
  assert (Hfin : log (snd (lookAround_cleanup E cfg (state w) w1))
                 = log w ++ [EvWalkSpeed 0; EvTurnSpeed 0] ++ evs
                   ++ [EvTurnSpeed 0; EvServoAngle (SCAN_DIST_SERVO cfg)]).
  { rewrite Hc, Hlog, <- !app_assoc. reflexivity. }
  exists evs. split.
  - cbn [state set_log set_MotorTurn_speed set_MotorWalk_speed].
    destruct res;
      destruct (lookAround_cleanup E cfg (state w) w1) as [[u|e'] w2];
      exact Hfin.
  - split; [exact Hall|]. split; [lia|].
    eapply Qle_trans; [exact Hsum|]. rewrite <- Zle_Qle. lia.
Qed.

(** X9.  Whatever the random draws and the environment, [lookAround]
    waits at most 20 times, and the waits it asks for add up to at most
    13 seconds. *)
Theorem lookAround_duration (w : World) :
  (length (spins (logged (lookAround E cfg) w)) <= 20)%nat
  /\ (waited (lookAround E cfg) w <= inject_Z 13000)%Q.
Proof.
  destruct (lookAround_log w) as (evs & Hlog & _ & Hlen & Hsum).
  unfold waited. rewrite (logged_app _ _ _ Hlog).
  rewrite !spins_app. cbn [spins flat_map app].
  rewrite app_nil_r. auto.
Qed.

(** X10.  Every command [lookAround] issues is one of: stop the walk
    motor; stop the turn motor or drive it at [SPEED_TURN] in either
    direction; send the servo to the neutral angle or to a pitch between
    0 and [maxPit]; wait for 0 to 800 ms.  It takes no range reading and
    stores nothing in the distance profile. *)
Theorem lookAround_commands (w : World) :
  Forall (look_command cfg) (logged (lookAround E cfg) w).
Proof.
  destruct (lookAround_log w) as (evs & Hlog & Hall & _ & _).
  rewrite (logged_app _ _ _ Hlog).
  apply Forall_app. split.
  - repeat constructor.
  - apply Forall_app. split; [exact Hall|].
    apply Forall_cons; [left; reflexivity|].
    apply Forall_cons; [left; reflexivity|]. apply Forall_nil.
Qed.

Lemma lookAround_on_hold_run (w : World) :
  onHold w = true ->
  exists w',
    lookAround E cfg w = (Ok tt, w')
    /\ log w' = log w ++ [EvWalkSpeed 0; EvTurnSpeed 0; EvTurnSpeed 0;
                           EvServoAngle (SCAN_DIST_SERVO cfg)]
    /\ n_rand w' = S (n_rand w).
Proof.
  intros Hold. unfold lookAround.
  change (bind (MotorWalk_set_speed 0) ?k w)
    with (k tt (set_log (log w ++ [EvWalkSpeed 0]) (set_MotorWalk_speed 0 w))).
  cbv beta. rewrite bind_MotorTurn, bind_get, bind_modify, bind_randint.
  unfold try_finally.
  lazymatch goal with
  | |- context [saccades E cfg ?n ?m ?y ?p ?w0] =>
      assert (Hs : saccades E cfg n m y p w0 = (Ok tt, w0))
        by (destruct n; cbn [saccades];
            [reflexivity | rewrite bind_get; cbn; rewrite Hold; reflexivity])
  end.
  rewrite Hs. unfold lookAround_cleanup, Compass_getHeading.
  destruct (truthy (DO_WALK_STRAIGHT cfg) && negb (truthy (DO_FIND_LIGHT cfg)));
    (eexists; split; [reflexivity|]); wsimpl_goal;
    rewrite <- !app_assoc; split; reflexivity.
Qed.

(** X12.  On a robot that is on hold when [lookAround] is entered no
    saccade takes place: the call returns after the stops on entry and
    the cleanup, without a wait, having drawn one random number. *)
Theorem lookAround_on_hold (w : World) :
  onHold w = true ->
  result (lookAround E cfg) w = Ok tt
  /\ logged (lookAround E cfg) w
     = [EvWalkSpeed 0; EvTurnSpeed 0; EvTurnSpeed 0;
        EvServoAngle (SCAN_DIST_SERVO cfg)]
  /\ n_rand (after (lookAround E cfg) w) = S (n_rand w).
Proof.
  intros Hold.
  destruct (lookAround_on_hold_run w Hold) as (w' & Hrun & Hlog & Hn).
  unfold result, logged, after. rewrite Hrun. cbn [fst snd].
  split; [reflexivity|]. split; [|exact Hn].
  rewrite Hlog. apply skipn_length_app.
Qed.

End LookBounds.

Lemma lookAround_on_hold_fallen :
  let E := fallen_env in
  let w := after (housekeeper E hexbug_config) (walking_bug E) in
  result (lookAround E hexbug_config) w = Ok tt
  /\ logged (lookAround E hexbug_config) w
     = [EvWalkSpeed 0; EvTurnSpeed 0; EvTurnSpeed 0; EvServoAngle (-25)]
  /\ n_rand (after (lookAround E hexbug_config) w) = S (n_rand w).
Proof.
  intros E w. apply (lookAround_on_hold E hexbug_config w).
  vm_compute. reflexivity.
Defined.

(** ** What [lookAround] and the timer callback leave alone *)

Lemma look_frame_refl (w : World) : look_frame w w.
Proof. constructor; auto. Qed.

Lemma look_frame_trans (w1 w2 w3 : World) :
  look_frame w1 w2 -> look_frame w2 w3 -> look_frame w1 w3.
Proof. intros [] []. constructor; try congruence. auto. Qed.

Create HintDb lookf.

Lemma look_frame_bind {A B} (m : M A) (k : A -> M B) :
  respects look_frame m -> (forall a, respects look_frame (k a)) ->
  respects look_frame (bind m k).
Proof. apply respects_bind. exact look_frame_trans. Qed.

Lemma look_frame_ret {A} (a : A) : respects look_frame (ret a).
Proof. apply respects_ret. exact look_frame_refl. Qed.

Lemma look_frame_raise {A} (e : Exn) : respects look_frame (@raise A e).
Proof. apply respects_raise. exact look_frame_refl. Qed.

Lemma look_frame_get {A} (f : World -> A) : respects look_frame (get f).
Proof. apply respects_get. exact look_frame_refl. Qed.

Lemma look_frame_MotorTurn (v : Z) :
  respects look_frame (MotorTurn_set_speed v).
Proof. intros w. constructor; auto. Qed.

Lemma look_frame_MotorWalk_stop :
  respects look_frame (MotorWalk_set_speed 0).
Proof. intros w. constructor; auto. Qed.

Lemma look_frame_Servo (a : Z) : respects look_frame (Servo_set_angle a).
Proof. intros w. constructor; auto. Qed.

Lemma look_frame_emit (e : Event) : respects look_frame (emit e).
Proof. intros w. constructor; auto. Qed.

#[local] Hint Resolve look_frame_ret look_frame_raise look_frame_get
  look_frame_MotorTurn look_frame_MotorWalk_stop look_frame_Servo
  look_frame_emit : lookf.

Ltac look_frame_steps :=
  repeat first [ solve [auto with lookf]
               | apply look_frame_bind; [|intros] ].

Section LookFrame.

Variable E : Env.
Variable cfg : Config.

Lemma look_frame_randint (a b : Z) : respects look_frame (randint E a b).
Proof. intros w. constructor; auto. Qed.

Lemma look_frame_housekeeper : respects look_frame (housekeeper E cfg).
Proof.
  intros w.
  unfold housekeeper, Compass_getHeading3D, bind, get, modify, ret. simpl.
  destruct (Qltb _ _ || Qltb _ _); destruct (truthy _); simpl;
    constructor; auto.
Qed.

Lemma look_frame_spin_ms (ms : Q) : respects look_frame (spin_ms E cfg ms).
Proof.
  unfold spin_ms. apply look_frame_bind; [auto with lookf|]. intros _.
  apply look_frame_bind; [auto with lookf|]. intros n.
  apply look_frame_bind; [intros w; constructor; auto|]. intros _.
  apply look_frame_bind.
  - apply respects_repeatM;
      [exact look_frame_refl | exact look_frame_trans
      | exact look_frame_housekeeper].
  - intros _. destruct (spin_fault E n); auto with lookf.
Qed.

#[local] Hint Resolve look_frame_randint look_frame_spin_ms : lookf.

Lemma look_frame_saccades (n : nat) :
  forall (mp yaw pit : Z), respects look_frame (saccades E cfg n mp yaw pit).
Proof.
  induction n as [|n IH]; intros mp yaw pit; cbn [saccades];
    [auto with lookf|].
  apply look_frame_bind; [auto with lookf|]. intros hold.
  destruct hold; look_frame_steps.
Qed.

Lemma look_frame_cleanup (prevState : Z) :
  respects look_frame (lookAround_cleanup E cfg prevState).
Proof.
  intros w. unfold lookAround_cleanup, Compass_getHeading.
  destruct (truthy (DO_WALK_STRAIGHT cfg) && negb (truthy (DO_FIND_LIGHT cfg)));
    constructor; auto.
Qed.

(** X11.  [lookAround] leaves the walk motor stopped, whatever its
    speed was on entry and however the call ends, and it changes neither
    the scan positions, the index map, the distance profile and its
    filters, the turn bias and statistics, nor the target heading of the
    scan; it takes no range reading. *)
Theorem lookAround_frame (w : World) :
  look_frame w (after (lookAround E cfg) w)
  /\ MotorWalk_speed (after (lookAround E cfg) w) = 0.
Proof.
  unfold after, lookAround.
  change (bind (MotorWalk_set_speed 0) ?k w)
    with (k tt (set_log (log w ++ [EvWalkSpeed 0]) (set_MotorWalk_speed 0 w))).
  cbv beta.
  set (w0 := set_log _ (set_MotorWalk_speed 0 w)).
  lazymatch goal with
  | |- look_frame w (snd (?rest w0)) /\ _ =>
      assert (Hrest : respects look_frame rest)
  end.
  { apply look_frame_bind; [auto with lookf|]. intros _.
    apply look_frame_bind; [auto with lookf|]. intros prevState.
    apply look_frame_bind; [intros w1; constructor; auto|]. intros _.
    apply look_frame_bind; [auto with lookf|]. intros nSacc.
    apply respects_try_finally;
      [exact look_frame_trans | apply look_frame_saccades
      | apply look_frame_cleanup]. }
  specialize (Hrest w0). split.
  - eapply look_frame_trans; [|exact Hrest].
    subst w0. constructor; auto.
  - apply (look_MotorWalk _ _ Hrest). reflexivity.
Qed.

(** A tick that does not find the robot tilted leaves both motors, the
    servo and the state as they were. *)
Lemma housekeeper_level (w : World) :
  onHold (after (housekeeper E cfg) w) = false ->
  MotorTurn_speed (after (housekeeper E cfg) w) = MotorTurn_speed w
  /\ MotorWalk_speed (after (housekeeper E cfg) w) = MotorWalk_speed w
  /\ Servo_on (after (housekeeper E cfg) w) = Servo_on w
  /\ Servo_angle (after (housekeeper E cfg) w) = Servo_angle w
  /\ state (after (housekeeper E cfg) w) = state w.
Proof.
  unfold after.
  unfold housekeeper, Compass_getHeading3D, bind, get, modify, ret. simpl.
  destruct (Qltb _ _ || Qltb _ _); destruct (truthy _); simpl; intros H;
    try discriminate; auto.
Qed.

(** X13.  The timer callback only ever enters [STATE_ON_HOLD]: however
    many ticks follow, and whether the robot is level again or not, a
    state of [STATE_ON_HOLD] stays. *)
Theorem housekeeper_hold_persists (n : nat) (w : World) :
  state w = STATE_ON_HOLD ->
  state (after (repeatM n (housekeeper E cfg)) w) = STATE_ON_HOLD.
Proof.
  revert w.
  change (respects (fun w w' => state w = STATE_ON_HOLD ->
                                state w' = STATE_ON_HOLD)
            (repeatM n (housekeeper E cfg))).
  apply respects_repeatM; [auto | auto |].
  intros w.
  unfold housekeeper, Compass_getHeading3D, bind, get, modify, ret. simpl.
  destruct (Qltb _ _ || Qltb _ _); destruct (truthy _); simpl; auto.
Qed.

End LookFrame.

(** The robot fell while walking and was put upright again: three level
    samples later the interlock flag is clear and the state is still
    [STATE_ON_HOLD]. *)
Lemma housekeeper_hold_persists_upright :
  let w := after (housekeeper fallen_env hexbug_config)
             (walking_bug fallen_env) in
  let w' := after (repeatM 3 (housekeeper (quiet_env []) hexbug_config)) w in
  onHold w' = false /\ state w' = STATE_ON_HOLD.
Proof.
  intros w w'. split; [vm_compute; reflexivity|].
  apply (housekeeper_hold_persists (quiet_env []) hexbug_config 3 w).
  vm_compute. reflexivity.
Defined.

(** ** More on scan cycles *)

Section ScanMore.

Variable E : Env.
Variable cfg : Config.

(** X5.  With light seeking on, the bias a returning scan cycle
    remembers is minus the light differential as it stood when the cycle
    began, whatever the housekeeper made of [lightDiff] during the
    waits; heading hold is not consulted, even when it is switched on
    too. *)
Theorem light_seeking_bias (w : World) (r : Z) (w' : World) :
  truthy (DO_FIND_LIGHT cfg) = true ->
  scanForObstacleOrCliff E cfg w = (Ok r, w') ->
  _turnBias w' = - lightDiff w.
Proof.
  intros Hl H.
  apply scan_cycle_inv in H as (bias & n & evs & Hb & _ & _ & Ht & _).
  rewrite Ht. unfold scan_bias in Hb. rewrite Hl, bind_get in Hb.
  injection Hb as <-. reflexivity.
Qed.

(** X6.  Under heading hold, a scan cycle on a robot whose housekeeper
    has not run yet (no [currHead]) raises [AttributeError] before it
    commands anything: the world is as before. *)
Theorem heading_hold_needs_tick (w : World) :
  truthy (DO_FIND_LIGHT cfg) = false ->
  truthy (DO_WALK_STRAIGHT cfg) = true ->
  currHead w = None ->
  scanForObstacleOrCliff E cfg w = (Raise AttributeError, w).
Proof.
  intros Hl Hw Hc. unfold scanForObstacleOrCliff, scan_bias.
  rewrite Hl, Hw. unfold attr at 1, bind. rewrite Hc. reflexivity.
Qed.

Lemma spins_spec_sweep (poss : list Q) :
  forall (slots : list nat) (ds : list Z) (bias : Z),
    length slots = length poss -> length ds = length poss ->
    spins (spec_sweep cfg poss slots ds bias) = sweep_waits poss bias.
Proof.
  induction poss as [|Pos rest IH]; intros [|s slots] [|d ds] bias Hs Hd;
    try discriminate; [reflexivity|].
  cbn [spec_sweep spec_visit sweep_waits app].
  unfold spins. cbn [flat_map app]. f_equal.
  apply IH; simpl in *; lia.
Qed.

Lemma Qsum_sweep_waits (poss : list Q) (bias : Z) :
  poss <> [] ->
  (Qsum (sweep_waits poss bias) == Qsum (map Qabs poss) + inject_Z bias)%Q.
Proof.
  induction poss as [|Pos rest IH]; intros Hne; [contradiction|].
  destruct rest as [|Pos' rest].
  - cbn. ring.
  - change (sweep_waits (Pos :: Pos' :: rest) bias)
      with ((Qabs Pos + inject_Z 0)%Q :: sweep_waits (Pos' :: rest) bias).
    cbn [map Qsum fold_right] in *. rewrite IH by discriminate.
    unfold inject_Z. ring.
Qed.

Lemma readings_from_length (i n k : nat) :
  length (readings_from E i n k) = k.
Proof. unfold readings_from. rewrite length_map, length_seq. reflexivity. Qed.

(** X7.  With a single sensor, a valid index map and no failing wait, a
    scan cycle waits once per scan position, for the magnitude of the
    drive time, the bias being added to the last wait only and not
    clamped; the waits add up to the sum of the magnitudes plus the
    bias. *)
Theorem sweep_cycle_waits (w : World) (bias : Z) :
  let poss := nth (_scanPos w) (heap w) [] in
  let slots := firstn (length poss) (_iScanPos w) in
  nRangingSensor w = Some 1%nat ->
  result (scan_bias cfg) w = Ok bias ->
  poss <> [] ->
  length slots = length poss ->
  Forall (fun s => (s < length (_distData w))%nat) slots ->
  (forall k, (k < length poss)%nat -> spin_fault E (n_spin w + k) = false) ->
  spins (logged (scanForObstacleOrCliff E cfg) w) = sweep_waits poss bias
  /\ (waited (scanForObstacleOrCliff E cfg) w
      == Qsum (map Qabs poss) + inject_Z bias)%Q.
Proof.
  intros poss slots Hn Hb Hne Hlen Hvalid Hquiet.
  apply scan_bias_run in Hb.
  destruct (sweep_run E cfg poss slots 0 false false w bias
              (Z.of_nat (length poss) - 1))
    as (w' & Hsw & Hlog & _); auto.
  assert (Hl : logged (scanForObstacleOrCliff E cfg) w
               = spec_sweep cfg poss slots
                   (readings_from E 0 (n_range w) (length poss)) bias).
  { apply logged_app. unfold after, scanForObstacleOrCliff.
    rewrite (bind_Ok _ _ _ _ _ Hb). unfold heap_get. rewrite !bind_get.
    rewrite (bind_attr _ _ _ _ Hn). cbn [Nat.eqb]. fold poss.
    rewrite (bind_Ok _ _ _ _ _ Hsw). exact Hlog. }
  unfold waited. rewrite Hl, spins_spec_sweep;
    [|exact Hlen | apply readings_from_length].
  split; [reflexivity|]. apply Qsum_sweep_waits. exact Hne.
Qed.


End ScanMore.

Lemma light_seeking_bias_lit :
  _turnBias (after (scanForObstacleOrCliff (lit_env 300) array_config)
                   (array_bug (lit_env 300)))
  = - lightDiff (array_bug (lit_env 300)).
Proof.
  apply (light_seeking_bias (lit_env 300) array_config
           (array_bug (lit_env 300)) 0).
  - reflexivity.
  - vm_compute. reflexivity.
Defined.

Lemma heading_hold_needs_tick_fresh :
  let E := compass_env 0 in
  scanForObstacleOrCliff E heading_config (heading_bug E)
  = (Raise AttributeError, heading_bug E).
Proof.
  intros E. apply (heading_hold_needs_tick E heading_config (heading_bug E)).
  - reflexivity.
  - reflexivity.
  - vm_compute. reflexivity.
Defined.

(** The right photodiode reads 500 more than the left one: the bias is
    -500 and the last wait the cycle asks for is 300 - 500 ms. *)
Lemma sweep_cycle_waits_lit :
  let E := glare_env 500 in
  let w := light_bug E in
  map Qred (spins (logged (scanForObstacleOrCliff E light_config) w))
  = [300#1; 300#1; 300#1; -200#1]%Q
  /\ (waited (scanForObstacleOrCliff E light_config) w
      == Qsum (map Qabs (nth (_scanPos w) (heap w) [])) + inject_Z (-500))%Q.
Proof.
  intros E w.
  destruct (sweep_cycle_waits E light_config w (-500)) as [Hs Hw].
  - reflexivity.
  - vm_compute. reflexivity.
  - vm_compute. discriminate.
  - reflexivity.
  - vm_compute. repeat constructor.
  - intros k _. reflexivity.
  - split; [rewrite Hs; vm_compute; reflexivity | exact Hw].
Defined.


(** ** More on construction *)

Lemma list_set_Some_inv {A} (i : nat) (v : A) (l l' : list A) :
  list_set i v l = Some l' -> (i < length l)%nat.
Proof.
  intros H. destruct (Nat.lt_ge_cases i (length l)) as [|Hge]; [assumption|].
  rewrite (list_set_None _ _ _ Hge) in H. discriminate.
Qed.




(** What the index loop writes: the map keeps its length, and a position
    with an angle not listed before is mapped to its own index. *)
Lemma index_scan_pos_new (degs : list Z) :
  forall (iPos : nat) (l : list Z) (w : World) (l' : list Z) (w' : World),
    (iPos = 0%nat -> l = []) ->
    index_scan_pos degs iPos l w = (Ok l', w') ->
    length (_iScanPos w') = length (_iScanPos w)
    /\ (forall i, (i < iPos)%nat ->
                  nth_error (_iScanPos w') i = nth_error (_iScanPos w) i)
    /\ (forall k pos,
           nth_error degs k = Some pos ->
           ~ In pos (l ++ firstn k degs) ->
           nth_error (_iScanPos w') (iPos + k) = Some (iPos + k)%nat).
Proof.
  induction degs as [|pos0 rest IH]; intros iPos l w l' w' H0 H.
  - injection H as _ <-. split; [reflexivity|]. split; [reflexivity|].
    intros [|k] pos Hk; discriminate.
  - cbn [index_scan_pos] in H.
    assert (Hcond : (iPos =? 0)%nat || negb (existsb (Z.eqb pos0) l)
                    = negb (existsb (Z.eqb pos0) l)).
    { destruct (Nat.eqb_spec iPos 0) as [Hz|]; [|reflexivity].
      rewrite (H0 Hz). reflexivity. }
    rewrite Hcond in H. clear Hcond.
    destruct (existsb (Z.eqb pos0) l) eqn:Hex; cbn [negb] in H.
    + apply existsb_eqb_In in Hex.
      destruct (first_index_Some pos0 l 0 Hex) as (j & Hf & _).
      rewrite Hf in H.
      apply bind_Ok_inv in H as ([] & w1 & Hset & H).
      apply iScanPos_setitem_inv in Hset as (im1 & Him1 & ->).
      apply IH in H as (Hlen & Hlow & Hnew); [|intros; discriminate].
      cbn [_iScanPos set__iScanPos] in Hlen, Hlow.
      split; [rewrite Hlen; apply (list_set_length _ _ _ _ Him1)|]. split.
      * intros i Hi. rewrite Hlow by lia.
        rewrite (list_set_nth_error _ _ _ _ i Him1).
        destruct (Nat.eqb_spec iPos i); [lia | reflexivity].
      * intros [|k] pos Hk Hnin.
        -- injection Hk as <-. exfalso. apply Hnin.
           apply in_app_iff. left. exact Hex.
        -- rewrite Nat.add_succ_r. apply (Hnew k pos Hk).
           intros Hin. apply Hnin. cbn [firstn].
           apply in_app_iff in Hin. apply in_app_iff.
           destruct Hin as [Hin | Hin]; [left; exact Hin|].
           right. right. exact Hin.
    + apply bind_Ok_inv in H as ([] & w1 & Hset & H).
      apply iScanPos_setitem_inv in Hset as (im1 & Him1 & ->).
      apply IH in H as (Hlen & Hlow & Hnew); [|intros; discriminate].
      cbn [_iScanPos set__iScanPos] in Hlen, Hlow.
      split; [rewrite Hlen; apply (list_set_length _ _ _ _ Him1)|]. split.
      * intros i Hi. rewrite Hlow by lia.
        rewrite (list_set_nth_error _ _ _ _ i Him1).
        destruct (Nat.eqb_spec iPos i); [lia | reflexivity].
      * intros [|k] pos Hk Hnin.
        -- rewrite Nat.add_0_r, Hlow by lia.
           rewrite (list_set_nth_error _ _ _ _ iPos Him1), Nat.eqb_refl.
           reflexivity.
        -- rewrite Nat.add_succ_r. apply (Hnew k pos Hk).
           intros Hin. apply Hnin. cbn [firstn].
           rewrite <- app_assoc in Hin. exact Hin.
Qed.

Section ConstructionMore.

Variable E : Env.
Variable cfg : Config.



(** The index map a successful construction leaves. *)
Lemma init_index_map (vl6180x : bool) (w w' : World) :
  (IR_SCAN_POS w < length (heap w))%nat ->
  __init__ E cfg vl6180x w = (Ok tt, w') ->
  length (_iScanPos w') = length (nth (IR_SCAN_POS w) (heap w) [])
  /\ (forall k pos,
         nth_error (IR_SCAN_POS_DEG cfg) k = Some pos ->
         ~ In pos (firstn k (IR_SCAN_POS_DEG cfg)) ->
         nth_error (_iScanPos w') k = Some k).
Proof.
  intros Ha H. unfold __init__ in H.
  apply bind_Ok_inv in H as ([] & w0 & H0 & H).
  apply init_ranging_inv in H0 as (Hh0 & Ha0 & _).
  unfold heap_get in H. rewrite bind_get, bind_modify, bind_get in H.
  rewrite !bind_modify in H. cbn [heap set__scanPos] in H.
  set (old := nth (IR_SCAN_POS w0) (heap w0) []) in *.
  set (w1 := set_onTrouble false _) in H.
  destruct (scale_scan_pos_run cfg old [] w1) as (h & Hrun & _ & _);
    [reflexivity | subst w1; wsimpl_goal; congruence | reflexivity |].
  cbn [length app] in Hrun. rewrite (bind_Ok _ _ _ _ _ Hrun) in H.
  apply bind_Ok_inv in H as (l & w3 & Hidx & H).
  apply index_scan_pos_new in Hidx as (Hlen & _ & Hnew); [|reflexivity].
  destruct (init_attributes_run E cfg l w3) as (w4 & Hrun4 & _ & _ & _ & Hi4 & _).
  rewrite Hrun4 in H. injection H as <-.
  subst w1. cbn [_iScanPos set_heap set_onTrouble set__iScanPos] in Hlen.
  rewrite repeat_length in Hlen. rewrite Hi4.
  split.
  - rewrite Hlen. unfold old. rewrite Ha0, Hh0. reflexivity.
  - intros k pos Hk Hnin. apply (Hnew k pos Hk). exact Hnin.
Qed.

(** X2.  A successful construction maps every position whose angle did
    not occur earlier in the list to the position's own index, not to
    the slot appended for the angle. *)
Theorem init_maps_new_angle_to_own_index (vl6180x : bool) (w w' : World)
  (k : nat) (pos : Z) :
  (IR_SCAN_POS w < length (heap w))%nat ->
  __init__ E cfg vl6180x w = (Ok tt, w') ->
  nth_error (IR_SCAN_POS_DEG cfg) k = Some pos ->
  ~ In pos (firstn k (IR_SCAN_POS_DEG cfg)) ->
  nth_error (_iScanPos w') k = Some k.
Proof.
  intros Ha H Hk Hnin.
  destruct (init_index_map vl6180x w w' Ha H) as (_ & Hnew).
  apply (Hnew k pos Hk Hnin).
Qed.

Lemma NoDup_firstn_not_In (l : list Z) (k : nat) (x : Z) :
  NoDup l -> nth_error l k = Some x -> ~ In x (firstn k l).
Proof.
  revert k. induction l as [|y l IH]; intros [|k] Hnd Hk; try discriminate.
  - intros [].
  - cbn in *. inversion Hnd as [|? ? Hy Hl]; subst.
    intros [-> | Hin].
    + apply Hy. eapply nth_error_In. exact Hk.
    + exact (IH k Hl Hk Hin).
Qed.

Lemma distinct_acc_NoDup_prefix (prefix rest : list Z) :
  NoDup prefix -> incl rest prefix ->
  distinct_acc [] (prefix ++ rest) = prefix.
Proof.
  intros Hnd Hincl.
  assert (Hgen : forall p l, NoDup (l ++ p) -> incl rest (l ++ p) ->
                             distinct_acc l (p ++ rest) = l ++ p).
  { induction p as [|x p IHp]; intros l Hn Hi.
    - rewrite app_nil_r in *. cbn [app].
      clear Hn. revert Hi. clear. induction rest as [|y r IHr]; intros Hi.
      + reflexivity.
      + cbn. assert (Hy : In y l) by (apply Hi; left; reflexivity).
        apply existsb_eqb_In in Hy. rewrite Hy. apply IHr.
        intros z Hz. apply Hi. right. exact Hz.
    - cbn [app distinct_acc].
      assert (Hx : existsb (Z.eqb x) l = false).
      { destruct (existsb (Z.eqb x) l) eqn:Hex; [|reflexivity].
        apply existsb_eqb_In in Hex. apply NoDup_remove_2 in Hn.
        exfalso. apply Hn. apply in_app_iff. left. exact Hex. }
      rewrite Hx, IHp.
      + rewrite <- app_assoc. reflexivity.
      + rewrite <- app_assoc. exact Hn.
      + rewrite <- app_assoc. exact Hi. }
  apply (Hgen prefix []); assumption.
Qed.

(** X3.  When the angle list consists of distinct angles followed by
    repeats of them, and there are as many drive times as angles, a
    successful construction leaves an index map every entry of which is
    a valid index of the distance profile. *)
Theorem init_valid_index_map (vl6180x : bool) (w w' : World)
  (prefix rest : list Z) :
  (IR_SCAN_POS w < length (heap w))%nat ->
  IR_SCAN_POS_DEG cfg = prefix ++ rest ->
  NoDup prefix ->
  incl rest prefix ->
  length (IR_SCAN_POS_DEG cfg) = length (nth (IR_SCAN_POS w) (heap w) []) ->
  __init__ E cfg vl6180x w = (Ok tt, w') ->
  length (_distData w') = length prefix
  /\ Forall (fun s => (s < length (_distData w'))%nat) (_iScanPos w').
Proof.
  intros Ha Hdeg Hnd Hincl Hlen H.
  destruct (init_inv E cfg vl6180x w w' Ha H) as (_ & _ & Hd & _ & Hrep).
  destruct (init_index_map vl6180x w w' Ha H) as (Hmap & Hnew).
  unfold profile_angles in *.
  rewrite Hdeg, (distinct_acc_NoDup_prefix _ _ Hnd Hincl) in Hd, Hrep.
  assert (Hdl : length (_distData w') = length prefix)
    by (rewrite Hd; apply repeat_length).
  split; [exact Hdl|].
  apply Forall_forall. intros s Hs.
  apply In_nth_error in Hs as (k & Hk).
  assert (Hkl : (k < length (prefix ++ rest))%nat).
  { rewrite <- Hdeg, Hlen, <- Hmap. apply nth_error_Some. congruence. }
  destruct (nth_error (prefix ++ rest) k) as [pos|] eqn:Hpos;
    [|apply nth_error_None in Hpos; lia].
  rewrite Hdl.
  destruct (Nat.lt_ge_cases k (length prefix)) as [Hin | Hout].
  - (* one of the distinct angles *)
    assert (Hn : nth_error (_iScanPos w') k = Some k).
    { apply (Hnew k pos); [rewrite Hdeg; exact Hpos|].
      rewrite Hdeg, firstn_app.
      replace (k - length prefix)%nat with 0%nat by lia.
      cbn [firstn]. rewrite app_nil_r.
      apply NoDup_firstn_not_In; [exact Hnd|].
      rewrite nth_error_app1 in Hpos by exact Hin. exact Hpos. }
    rewrite Hk in Hn. injection Hn as ->. exact Hin.
  - (* a repeat *)
    destruct (Hrep k pos) as (slot & Hslot & Hang).
    + exact Hpos.
    + rewrite firstn_app. apply in_app_iff. left.
      rewrite firstn_all2 by exact Hout.
      apply Hincl. rewrite nth_error_app2 in Hpos by exact Hout.
      eapply nth_error_In. exact Hpos.
    + rewrite Hk in Hslot. injection Hslot as ->.
      apply nth_error_Some. congruence.
Qed.

End ConstructionMore.


(** A negative channel ends construction at line 108, before anything
    is assigned. *)
Example init_rejects_negative_channel :
  let w := imported IR_SCAN_POS_shipped in
  run (__init__ (quiet_env []) negative_channel_config false) w
  = (Raise ValueError, w).
Proof. vm_compute. reflexivity. Qed.

Lemma init_maps_new_angle_to_own_index_repeat_first :
  nth_error
    (_iScanPos (after (__init__ (quiet_env []) repeat_first_config false)
                      (imported [300#1; 300#1; 300#1]%Q))) 2
  = Some 2%nat.
Proof.
  apply (init_maps_new_angle_to_own_index (quiet_env []) repeat_first_config
           false (imported [300#1; 300#1; 300#1]%Q) _ 2 35).
  - vm_compute. lia.
  - vm_compute. reflexivity.
  - reflexivity.
  - cbn. intros [H | [H | []]]; discriminate.
Defined.

Lemma init_valid_index_map_shipped :
  let w' := shipped_bug (quiet_env []) in
  length (_distData w') = 3%nat
  /\ Forall (fun s => (s < length (_distData w'))%nat) (_iScanPos w').
Proof.
  intros w'.
  apply (init_valid_index_map (quiet_env []) hexbug_config false
           (imported IR_SCAN_POS_shipped) w' [-35; 0; 35] [0]).
  - vm_compute. lia.
  - reflexivity.
  - repeat constructor; cbn; intuition discriminate.
  - intros x [<- | []]. cbn. auto.
  - reflexivity.
  - vm_compute. reflexivity.
Defined.

(** ** Napping *)

Lemma appends_bind {A B} (e1 e2 : list Event) (m : M A) (k : A -> M B) :
  appends e1 m -> (forall a, appends e2 (k a)) -> appends (e1 ++ e2) (bind m k).
Proof.
  intros Hm Hk w b w' H.
  apply bind_Ok_inv in H as (a & w1 & H1 & H2).
  rewrite (Hk _ _ _ _ H2), (Hm _ _ _ H1), app_assoc. reflexivity.
Qed.

Lemma appends_nil_bind {A B} (e : list Event) (m : M A) (k : A -> M B) :
  appends [] m -> (forall a, appends e (k a)) -> appends e (bind m k).
Proof. intros Hm Hk. change e with ([] ++ e). apply appends_bind; auto. Qed.

Lemma appends_ret {A} (a : A) : appends [] (ret a).
Proof. intros w b w' H. inversion H. rewrite app_nil_r. reflexivity. Qed.

Lemma appends_get {A} (f : World -> A) : appends [] (get f).
Proof. intros w b w' H. inversion H. rewrite app_nil_r. reflexivity. Qed.

Lemma appends_modify (f : World -> World) :
  (forall w, log (f w) = log w) -> appends [] (modify f).
Proof. intros Hf w b w' H. inversion H. rewrite Hf, app_nil_r. reflexivity. Qed.

Lemma appends_emit (e : Event) : appends [e] (emit e).
Proof. intros w b w' H. inversion H. reflexivity. Qed.

Lemma appends_MotorWalk (v : Z) : appends [EvWalkSpeed v] (MotorWalk_set_speed v).
Proof. intros w b w' H. inversion H. reflexivity. Qed.

Lemma appends_MotorTurn (v : Z) : appends [EvTurnSpeed v] (MotorTurn_set_speed v).
Proof. intros w b w' H. inversion H. reflexivity. Qed.

Lemma appends_Servo (a : Z) : appends [EvServoAngle a] (Servo_set_angle a).
Proof. intros w b w' H. inversion H. reflexivity. Qed.

Section NapLog.

Variable E : Env.
Variable cfg : Config.

Lemma appends_housekeeper : appends [] (housekeeper E cfg).
Proof.
  intros w a w' H. rewrite app_nil_r.
  destruct (housekeeper_keeps E cfg w) as (_ & _ & Hl).
  rewrite H in Hl. exact Hl.
Qed.

Lemma appends_spin_ms (ms : Q) : appends [EvSpin ms] (spin_ms E cfg ms).
Proof. intros w a w' H. apply spin_ms_inv in H as (_ & _ & Hl). exact Hl. Qed.

Lemma appends_randint (a b : Z) : appends [] (randint E a b).
Proof. intros w r w' H. inversion H. rewrite app_nil_r. reflexivity. Qed.

Lemma appends_dim_ramp (n : nat) :
  forall i step,
    appends (repeat (EvSpin (inject_Z 250)) n) (dim_ramp E cfg n i step).
Proof.
  induction n as [|n IH]; intros i step; cbn [dim_ramp repeat].
  - apply appends_ret.
  - apply appends_nil_bind; [apply appends_ret|]. intros _.
    apply (appends_bind [_]); [apply appends_spin_ms|]. intros _. apply IH.
Qed.

Lemma appends_drop_arm (n : nat) :
  forall p,
    appends (flat_map (fun p => [EvServoAngle p; EvSpin (inject_Z 10)])
               (drop_angles n p))
            (drop_arm E cfg n p).
Proof.
  induction n as [|n IH]; intros p; cbn [drop_arm drop_angles flat_map].
  - apply appends_ret.
  - apply (appends_bind [_]); [apply appends_Servo|]. intros _.
    apply (appends_bind [_]); [apply appends_spin_ms|]. intros _. apply IH.
Qed.

Lemma appends_nap (a b : Z) :
  appends (nap_events (SCAN_DIST_SERVO cfg)) (nap E cfg a b).
Proof.
  unfold nap, nap_events, dimNeoPixel, sleepLightly.
  apply appends_nil_bind; [apply appends_get|]. intros prevState.
  apply appends_nil_bind; [apply appends_modify; reflexivity|]. intros _.
  apply appends_nil_bind; [apply appends_housekeeper|]. intros _.
  apply (appends_bind [_]); [apply appends_MotorWalk|]. intros _.
  apply (appends_bind [_]); [apply appends_MotorTurn|]. intros _.
  apply (appends_bind [_]); [apply appends_Servo|]. intros _.
  apply appends_bind; [apply appends_dim_ramp|]. intros _.
  apply appends_bind; [apply appends_drop_arm|]. intros _.
  apply appends_nil_bind; [apply appends_ret|]. intros _.
  apply (appends_bind [_]); [apply appends_spin_ms|]. intros _.
  apply appends_nil_bind; [apply appends_ret|]. intros _.
  apply appends_nil_bind; [apply appends_randint|]. intros s.
  apply appends_nil_bind; [apply appends_ret|]. intros _.
  apply appends_nil_bind; [apply appends_modify; reflexivity|]. intros _.
  apply (appends_bind [_]); [apply appends_Servo|]. intros _.
  apply appends_nil_bind; [apply appends_housekeeper|]. intros _.
  apply appends_dim_ramp.
Qed.

End NapLog.

Lemma preserves_refl (Q : World -> Prop) (w : World) : preserves Q w w.
Proof. intros H. exact H. Qed.

Lemma preserves_trans (Q : World -> Prop) (w1 w2 w3 : World) :
  preserves Q w1 w2 -> preserves Q w2 w3 -> preserves Q w1 w3.
Proof. unfold preserves. auto. Qed.

Lemma spins_repeat (q : Q) (n : nat) :
  spins (repeat (EvSpin q) n) = repeat q n.
Proof. induction n as [|n IH]; simpl; [|rewrite <- IH]; reflexivity. Qed.

Lemma Qsum_repeat (q : Q) (n : nat) :
  (Qsum (repeat q n) == inject_Z (Z.of_nat n) * q)%Q.
Proof.
  induction n as [|n IH].
  - simpl. ring.
  - cbn [repeat Qsum fold_right]. fold (Qsum (repeat q n)). rewrite IH.
    rewrite Nat2Z.inj_succ. unfold Z.succ. rewrite inject_Z_plus. ring.
Qed.

Lemma spins_drop (n : nat) :
  forall p,
    spins (flat_map (fun p => [EvServoAngle p; EvSpin (inject_Z 10)])
             (drop_angles n p))
    = repeat (inject_Z 10) n.
Proof.
  induction n as [|n IH]; intros p; cbn [drop_angles flat_map repeat].
  - reflexivity.
  - change (spins (?a :: ?b :: ?l)) with (spins [a] ++ spins [b] ++ spins l).
    cbn [spins flat_map app]. rewrite <- (IH (p - 1)). reflexivity.
Qed.

Lemma servo_angles_app (l1 l2 : list Event) :
  servo_angles (l1 ++ l2) = servo_angles l1 ++ servo_angles l2.
Proof. apply flat_map_app. Qed.

Lemma servo_angles_repeat (q : Q) (n : nat) :
  servo_angles (repeat (EvSpin q) n) = [].
Proof. induction n as [|n IH]; simpl; auto. Qed.

Lemma servo_angles_drop (n : nat) :
  forall p,
    servo_angles (flat_map (fun p => [EvServoAngle p; EvSpin (inject_Z 10)])
                    (drop_angles n p))
    = drop_angles n p.
Proof.
  induction n as [|n IH]; intros p; cbn [drop_angles flat_map].
  - reflexivity.
  - cbn [app]. unfold servo_angles. cbn [flat_map app].
    f_equal. apply IH.
Qed.

Lemma drop_angles_range (n : nat) :
  forall p a, In a (drop_angles n p) -> p - Z.of_nat n < a <= p.
Proof.
  induction n as [|n IH]; intros p a; cbn [drop_angles In].
  - tauto.
  - intros [<-|H]; [lia|]. apply IH in H. lia.
Qed.

Section NapProps.

Variable E : Env.
Variable cfg : Config.

(** X14.  A nap that returns has issued exactly the commands and waits
    of [nap_events]: the motors are stopped, the arm is raised to 0,
    lowered one degree every 10 ms down to one degree above the scan
    angle and set to the scan angle after the sleep.  Apart from the
    sleep itself the nap waits 5600 ms plus 10 ms for every degree the
    scan angle lies below 0. *)
Theorem nap_commands (NAP_FROM_S NAP_TO_S : Z) (w : World) :
  NAP_FROM_S <= NAP_TO_S ->
  result (nap E cfg NAP_FROM_S NAP_TO_S) w = Ok tt ->
  logged (nap E cfg NAP_FROM_S NAP_TO_S) w = nap_events (SCAN_DIST_SERVO cfg)
  /\ servo_angles (logged (nap E cfg NAP_FROM_S NAP_TO_S) w)
     = 0 :: drop_angles (Z.to_nat (- SCAN_DIST_SERVO cfg)) 0
         ++ [SCAN_DIST_SERVO cfg]
  /\ (waited (nap E cfg NAP_FROM_S NAP_TO_S) w
      == inject_Z (5600 + 10 * Z.max 0 (- SCAN_DIST_SERVO cfg)))%Q.
Proof.
  intros _ Hres.
  assert (Hlog : logged (nap E cfg NAP_FROM_S NAP_TO_S) w
                 = nap_events (SCAN_DIST_SERVO cfg)).
  { apply logged_app. unfold after. unfold result in Hres.
    destruct (nap E cfg NAP_FROM_S NAP_TO_S w) as [r w'] eqn:Hrun.
    cbn [fst snd] in *. subst r.
    exact (appends_nap E cfg _ _ _ _ _ Hrun). }
  split; [exact Hlog|]. split.
  - rewrite Hlog. unfold nap_events.
    rewrite !servo_angles_app, !servo_angles_repeat, servo_angles_drop.
    reflexivity.
  - unfold waited. rewrite Hlog. unfold nap_events.
    rewrite !spins_app, !spins_repeat, spins_drop.
    rewrite !Qsum_app, !Qsum_repeat.
    cbn [spins flat_map app Qsum fold_right].
    change 0%Q with (inject_Z 0).
    rewrite <- ?inject_Z_mult, <- ?inject_Z_plus.
    apply inject_Z_injective. lia.
Qed.

End NapProps.

Lemma nap_commands_shipped :
  5 <= 20
  /\ result (nap (quiet_env []) hexbug_config 5 20)
       (walking_bug (quiet_env [])) = Ok tt
  /\ servo_angles (logged (nap (quiet_env []) hexbug_config 5 20)
                     (walking_bug (quiet_env [])))
     = [0; 0; -1; -2; -3; -4; -5; -6; -7; -8; -9; -10; -11; -12; -13; -14;
        -15; -16; -17; -18; -19; -20; -21; -22; -23; -24; -25]
  /\ (waited (nap (quiet_env []) hexbug_config 5 20)
        (walking_bug (quiet_env [])) == inject_Z 5850)%Q.
Proof.
  assert (Hab : 5 <= 20) by lia.
  assert (Hres : result (nap (quiet_env []) hexbug_config 5 20)
                   (walking_bug (quiet_env [])) = Ok tt)
    by (vm_compute; reflexivity).
  exact (conj Hab (conj Hres
           (proj2 (nap_commands (quiet_env []) hexbug_config 5 20
                     (walking_bug (quiet_env [])) Hab Hres)))).
Defined.

Section NapPreserved.

Variable E : Env.
Variable cfg : Config.

Section Preserved.

Variable Q : World -> Prop.
Hypothesis Q_log : forall w l, Q w -> Q (set_log l w).
Hypothesis Q_n_spin : forall w n, Q w -> Q (set_n_spin n w).
Hypothesis Q_housekeeper : forall w, Q w -> Q (snd (housekeeper E cfg w)).

Lemma preserves_bind {A B} (m : M A) (k : A -> M B) :
  respects (preserves Q) m -> (forall a, respects (preserves Q) (k a)) ->
  respects (preserves Q) (bind m k).
Proof. apply respects_bind. apply preserves_trans. Qed.

Lemma preserves_ret {A} (a : A) : respects (preserves Q) (ret a).
Proof. intros w. apply preserves_refl. Qed.

Lemma preserves_emit (e : Event) : respects (preserves Q) (emit e).
Proof. intros w H. apply Q_log. exact H. Qed.

Lemma preserves_housekeeper : respects (preserves Q) (housekeeper E cfg).
Proof. intros w. exact (Q_housekeeper w). Qed.

Lemma preserves_spin_ms (ms : QArith_base.Q) :
  respects (preserves Q) (spin_ms E cfg ms).
Proof.
  unfold spin_ms.
  apply preserves_bind; [apply preserves_emit|]. intros _.
  apply preserves_bind; [intros w; apply preserves_refl|]. intros n.
  apply preserves_bind; [intros w H; apply Q_n_spin; exact H|]. intros _.
  apply preserves_bind.
  - apply respects_repeatM;
      [apply preserves_refl | apply preserves_trans
       | apply preserves_housekeeper].
  - intros _ w. destruct (spin_fault E n); apply preserves_refl.
Qed.

Lemma preserves_dim_ramp (n : nat) :
  forall i step, respects (preserves Q) (dim_ramp E cfg n i step).
Proof.
  induction n as [|n IH]; intros i step; cbn [dim_ramp].
  - apply preserves_ret.
  - apply preserves_bind; [apply preserves_ret|]. intros _.
    apply preserves_bind; [apply preserves_spin_ms|]. intros _. apply IH.
Qed.

End Preserved.

End NapPreserved.

Section NapSafety.

Variable E : Env.
Variable cfg : Config.

Lemma housekeeper_stops_nothing (w : World) :
  motors_stopped w -> motors_stopped (snd (housekeeper E cfg w)).
Proof.
  unfold motors_stopped.
  unfold housekeeper, Compass_getHeading3D, bind, get, modify, ret. simpl.
  destruct (Qltb _ _ || Qltb _ _); destruct (truthy _); simpl; auto.
Qed.

Lemma housekeeper_woken (p : Z) (w : World) :
  (state w = p \/ state w = STATE_ON_HOLD) ->
  Servo_angle w = SCAN_DIST_SERVO cfg ->
  woken cfg p (snd (housekeeper E cfg w)).
Proof.
  unfold woken, held_safely.
  unfold housekeeper, Compass_getHeading3D, bind, get, modify, ret. simpl.
  destruct (Qltb _ _ || Qltb _ _); destruct (truthy _); simpl;
    intros Hs Ha; (split; [auto | split; [auto; discriminate | exact Ha]]).
Qed.

Lemma stopped_spin_ms (ms : Q) :
  respects (preserves motors_stopped) (spin_ms E cfg ms).
Proof.
  apply preserves_spin_ms; auto using housekeeper_stops_nothing.
Qed.

Lemma stopped_drop_arm (n : nat) :
  forall p, respects (preserves motors_stopped) (drop_arm E cfg n p).
Proof.
  induction n as [|n IH]; intros p; cbn [drop_arm].
  - apply preserves_ret.
  - apply preserves_bind; [intros w H; exact H|]. intros _.
    apply preserves_bind; [apply stopped_spin_ms|]. intros _. apply IH.
Qed.

(** X15.  Whatever happens during a nap, and whether it returns or
    fails, both motors are stopped when it ends: nothing in the nap
    starts a motor again. *)
Theorem nap_leaves_motors_stopped (NAP_FROM_S NAP_TO_S : Z) (w : World) :
  NAP_FROM_S <= NAP_TO_S ->
  motors_stopped (after (nap E cfg NAP_FROM_S NAP_TO_S) w).
Proof.
  intros _. unfold after, nap. rewrite bind_get, bind_modify.
  pose proof (housekeeper_total E cfg (set_state STATE_WAKING_UP w)) as Hh.
  destruct (housekeeper E cfg (set_state STATE_WAKING_UP w)) as [r w1] eqn:Hk.
  cbn [fst] in Hh. subst r. rewrite (bind_Ok _ _ _ _ _ Hk).
  unfold MotorWalk_set_speed at 1. rewrite bind_bind, bind_modify.
  unfold emit at 1. rewrite bind_modify.
  rewrite bind_MotorTurn.
  lazymatch goal with
  | |- motors_stopped (snd (?rest ?w3)) =>
      assert (Hrest : respects (preserves motors_stopped) rest);
        [| apply (Hrest w3); split; reflexivity]
  end.
  apply preserves_bind; [intros w3 H; exact H|]. intros _.
  apply preserves_bind;
    [apply preserves_dim_ramp; auto using housekeeper_stops_nothing|].
  intros _.
  apply preserves_bind; [apply stopped_drop_arm|]. intros _.
  apply preserves_bind; [apply preserves_ret|]. intros _.
  apply preserves_bind; [apply stopped_spin_ms|]. intros _.
  apply preserves_bind; [apply preserves_ret|]. intros _.
  apply preserves_bind; [intros w3 H; exact H|]. intros s.
  apply preserves_bind; [apply preserves_ret|]. intros _.
  apply preserves_bind; [intros w3 H; exact H|]. intros _.
  apply preserves_bind; [intros w3 H; exact H|]. intros _.
  apply preserves_bind; [intros w3; exact (housekeeper_stops_nothing w3)|].
  intros _.
  apply preserves_dim_ramp; auto using housekeeper_stops_nothing.
Qed.

Lemma woken_housekeeper (p : Z) (w : World) :
  woken cfg p w -> woken cfg p (snd (housekeeper E cfg w)).
Proof. intros (Hs & _ & Ha). apply housekeeper_woken; assumption. Qed.

(** X16.  A nap that returns leaves the robot in the state it had
    before the nap, or on hold; a robot that is on hold at that moment
    has its servo off and is in the hold state; the arm has been sent
    to the scan angle. *)
Theorem nap_wakes_up (NAP_FROM_S NAP_TO_S : Z) (w : World) :
  NAP_FROM_S <= NAP_TO_S ->
  result (nap E cfg NAP_FROM_S NAP_TO_S) w = Ok tt ->
  woken cfg (state w) (after (nap E cfg NAP_FROM_S NAP_TO_S) w).
Proof.
  intros _. unfold result, after.
  destruct (nap E cfg NAP_FROM_S NAP_TO_S w) as [r w'] eqn:H.
  cbn [fst snd]. intros ->.
  unfold nap in H. rewrite bind_get in H.
  do 12 (apply bind_Ok_inv in H as (? & ? & _ & H)).
  rewrite bind_modify, bind_Servo in H.
  apply bind_Ok_inv in H as (u & w1 & Hk & H).
  assert (Hw1 : woken cfg (state w) w1).
  { lazymatch type of Hk with
    | housekeeper E cfg ?w0 = _ =>
        pose proof (housekeeper_woken (state w) w0) as Hw
    end.
    rewrite Hk in Hw. apply Hw; [left|]; reflexivity. }
  pose proof (preserves_dim_ramp E cfg (woken cfg (state w))) as Hd.
  specialize (Hd (fun w0 l H0 => H0) (fun w0 n H0 => H0)
                (woken_housekeeper (state w)) 11%nat 0 1 w1).
  rewrite H in Hd. apply Hd. exact Hw1.
Qed.

End NapSafety.

Lemma nap_leaves_motors_stopped_fault :
  5 <= 20
  /\ result (nap first_wait_fails_env hexbug_config 5 20)
       (walking_bug first_wait_fails_env) = Raise Fault
  /\ motors_stopped (after (nap first_wait_fails_env hexbug_config 5 20)
                       (walking_bug first_wait_fails_env)).
Proof.
  assert (Hab : 5 <= 20) by lia.
  exact (conj Hab (conj eq_refl
           (nap_leaves_motors_stopped first_wait_fails_env hexbug_config
              5 20 (walking_bug first_wait_fails_env) Hab))).
Defined.

Lemma nap_wakes_up_falling :
  5 <= 20
  /\ result (nap (falls_after 30) hexbug_config 5 20)
       (walking_bug (falls_after 30)) = Ok tt
  /\ woken hexbug_config STATE_WALKING
       (after (nap (falls_after 30) hexbug_config 5 20)
          (walking_bug (falls_after 30))).
Proof.
  assert (Hab : 5 <= 20) by lia.
  assert (Hres : result (nap (falls_after 30) hexbug_config 5 20)
                   (walking_bug (falls_after 30)) = Ok tt)
    by (vm_compute; reflexivity).
  exact (conj Hab (conj Hres
           (nap_wakes_up (falls_after 30) hexbug_config 5 20
              (walking_bug (falls_after 30)) Hab Hres))).
Defined.

(** ** Scanning after construction *)

Section ScanAfterInit.

Variable E : Env.
Variable cfg : Config.

Lemma init_attributes_target (l : list Z) (w : World) :
  truthy (DO_FIND_LIGHT cfg) = false ->
  truthy (DO_WALK_STRAIGHT cfg) = true ->
  cpsTargetHead (snd (init_attributes E cfg l w))
  = Some (getHeading E (n_compass w)).
Proof.
  unfold init_attributes, Compass_getHeading. intros Hl Hs.
  rewrite Hl, Hs. cbn [andb negb].
  destruct (2 <=? DIST_SMOOTH cfg); reflexivity.
Qed.

Lemma housekeeper_heading (w : World) :
  currHead (snd (housekeeper E cfg w)) <> None
  /\ cpsTargetHead (snd (housekeeper E cfg w)) = cpsTargetHead w
  /\ nRangingSensor (snd (housekeeper E cfg w)) = nRangingSensor w.
Proof.
  unfold housekeeper, Compass_getHeading3D, bind, get, modify, ret. simpl.
  destruct (Qltb _ _ || Qltb _ _); destruct (truthy _); simpl;
    (split; [discriminate | split; reflexivity]).
Qed.

Lemma ticks_heading (n : nat) :
  forall w,
    currHead w <> None ->
    currHead (snd (repeatM n (housekeeper E cfg) w)) <> None
    /\ cpsTargetHead (snd (repeatM n (housekeeper E cfg) w))
       = cpsTargetHead w
    /\ nRangingSensor (snd (repeatM n (housekeeper E cfg) w))
       = nRangingSensor w.
Proof.
  induction n as [|n IH]; intros w Hc; cbn [repeatM].
  - cbn. auto.
  - pose proof (housekeeper_total E cfg w) as Ht.
    destruct (housekeeper_heading w) as (Hc1 & Ht1 & Hn1).
    destruct (housekeeper E cfg w) as [r w1] eqn:Hk. cbn [fst snd] in *.
    subst r. rewrite (bind_Ok _ _ _ _ _ Hk).
    destruct (IH w1 Hc1) as (Hc2 & Ht2 & Hn2).
    rewrite Ht2, Hn2. auto.
Qed.

(** X17.  After a successful construction and at least one housekeeper
    tick, the attributes a scan cycle reads before its first command
    are there: the computation of the bias, which reads [lightDiff] or
    [currHead] and [cpsTargetHead], returns, and [nRangingSensor] is
    set.  ([currHead] is assigned at line 220 of the housekeeper,
    before the blocks guarded by [USE_LOAD_SENSING] and
    [SEND_TELEMETRY].) *)
Theorem scan_ready_after_tick (vl6180x : bool) (w w' : World) (n : nat) :
  (IR_SCAN_POS w < length (heap w))%nat ->
  __init__ E cfg vl6180x w = (Ok tt, w') ->
  let w2 := after (repeatM (S n) (housekeeper E cfg)) w' in
  (exists bias, scan_bias cfg w2 = (Ok bias, w2))
  /\ (exists k, nRangingSensor w2 = Some k).
Proof.
  intros Ha H.
  pose proof (init_inv E cfg vl6180x w w' Ha H) as (_ & Hn & _).
  assert (Hsome : exists k, nRangingSensor w' = Some k).
  { destruct vl6180x; [|eexists; exact Hn].
    rewrite Hn. unfold __init__ in H.
    apply bind_Ok_inv in H as (u & w0 & H0 & _).
    unfold init_ranging in H0. rewrite bind_ret in H0.
    apply bind_Ok_inv in H0 as (k & w1 & Hk & _).
    apply attr_inv in Hk as [Hk _]. eexists; exact Hk. }
  destruct Hsome as (k & Hk).
  assert (Htarget : truthy (DO_FIND_LIGHT cfg) = false ->
                    truthy (DO_WALK_STRAIGHT cfg) = true ->
                    cpsTargetHead w' <> None).
  { intros Hl Hs. unfold __init__ in H.
    do 8 (apply bind_Ok_inv in H as (? & ? & _ & H)).
    lazymatch type of H with
    | init_attributes E cfg ?l ?w0 = _ =>
        pose proof (init_attributes_target l w0 Hl Hs) as Ht
    end.
    rewrite H in Ht. cbn [snd] in Ht. rewrite Ht. discriminate. }
  unfold after. cbn [repeatM].
  pose proof (housekeeper_total E cfg w') as Ht.
  destruct (housekeeper_heading w') as (Hc1 & Ht1 & Hn1).
  destruct (housekeeper E cfg w') as [r w1] eqn:Hh. cbn [fst snd] in *.
  subst r. rewrite (bind_Ok _ _ _ _ _ Hh).
  destruct (ticks_heading n w1 Hc1) as (Hc2 & Ht2 & Hn2).
  set (w2 := snd (repeatM n (housekeeper E cfg) w1)) in *.
  cbv zeta. split; [|exists k; rewrite Hn2, Hn1; exact Hk].
  unfold scan_bias.
  destruct (truthy (DO_FIND_LIGHT cfg)) eqn:Hl; [eexists; reflexivity|].
  destruct (truthy (DO_WALK_STRAIGHT cfg)) eqn:Hs; [|eexists; reflexivity].
  destruct (currHead w2) as [ch|] eqn:Ec; [|contradiction].
  destruct (cpsTargetHead w2) as [th|] eqn:Et.
  - unfold bind, attr. rewrite Ec, Et. eexists; reflexivity.
  - exfalso. apply (Htarget eq_refl eq_refl).
    rewrite <- Ht1. symmetry. exact Ht2.
Qed.

End ScanAfterInit.

Lemma scan_ready_after_tick_heading :
  let E := compass_env (20#1) in
  let w := imported IR_SCAN_POS_shipped in
  let w2 := after (repeatM 1 (housekeeper E heading_config)) (heading_bug E) in
  (IR_SCAN_POS w < length (heap w))%nat
  /\ __init__ E heading_config false w = (Ok tt, heading_bug E)
  /\ (exists bias, scan_bias heading_config w2 = (Ok bias, w2))
  /\ (exists k, nRangingSensor w2 = Some k).
Proof.
  intros E w w2.
  assert (Ha : (IR_SCAN_POS w < length (heap w))%nat) by (vm_compute; lia).
  assert (Hi : __init__ E heading_config false w = (Ok tt, heading_bug E))
    by (vm_compute; reflexivity).
  exact (conj Ha (conj Hi
           (scan_ready_after_tick E heading_config false w (heading_bug E)
              0%nat Ha Hi))).
Defined.

(** ** Sweep directions *)

Section Directions.

Variable E : Env.
Variable cfg : Config.

Lemma scaled_keeps_sign (pos : Q) :
  (-1 < IR_SCAN_BIAS_F cfg)%Q -> (IR_SCAN_BIAS_F cfg < 1)%Q ->
  Qltb (scaled cfg pos) 0 = Qltb pos 0.
Proof.
  intros Hlo Hhi. unfold scaled. rewrite float_round_neg.
  assert (Hf : (0 < bias_factor cfg pos)%Q).
  { apply Qltb_spec. unfold bias_factor. rewrite float_round_pos.
    apply Qltb_spec. destruct (Qltb 0 pos).
    - apply Qlt_minus_iff in Hlo.
      setoid_replace (1 + IR_SCAN_BIAS_F cfg)%Q
        with (IR_SCAN_BIAS_F cfg + - (-1))%Q by ring.
      exact Hlo.
    - apply Qlt_minus_iff in Hhi. exact Hhi. }
  set (f := bias_factor cfg pos) in *.
  destruct (Qltb pos 0) eqn:Hp.
  - apply Qltb_spec. apply Qltb_spec in Hp.
    setoid_replace 0%Q with (0 * f)%Q by ring.
    apply Qmult_lt_compat_r; assumption.
  - apply Qltb_false. apply Qltb_false in Hp.
    apply Qmult_le_0_compat; [exact Hp | apply Qlt_le_weak; exact Hf].
Qed.

(** X18.  With a bias factor strictly between -1 and 1, the scaling a
    successful construction applies to the drive times changes no sign:
    the sweep turns the head in the same direction at every position as
    the configured list says. *)
Theorem init_keeps_sweep_directions (vl6180x : bool) (w w' : World) :
  (IR_SCAN_POS w < length (heap w))%nat ->
  (-1 < IR_SCAN_BIAS_F cfg)%Q ->
  (IR_SCAN_BIAS_F cfg < 1)%Q ->
  __init__ E cfg vl6180x w = (Ok tt, w') ->
  map (scan_speed cfg) (nth (_scanPos w') (heap w') [])
  = map (scan_speed cfg) (nth (IR_SCAN_POS w) (heap w) []).
Proof.
  intros Ha Hlo Hhi H.
  pose proof (init_inv E cfg vl6180x w w' Ha H) as ((_ & Hs & _ & Hn) & _).
  rewrite Hs, Hn, map_map. apply map_ext. intros pos.
  unfold scan_speed. rewrite (scaled_keeps_sign pos Hlo Hhi). reflexivity.
Qed.

End Directions.

Lemma init_keeps_sweep_directions_biased :
  let E := quiet_env [] in
  let w := imported IR_SCAN_POS_shipped in
  let w' := after (__init__ E biased_config false) w in
  (IR_SCAN_POS w < length (heap w))%nat
  /\ (-1 < IR_SCAN_BIAS_F biased_config)%Q
  /\ (IR_SCAN_BIAS_F biased_config < 1)%Q
  /\ __init__ E biased_config false w = (Ok tt, w')
  /\ map (scan_speed biased_config) (nth (_scanPos w') (heap w') [])
     = map (scan_speed biased_config) (nth (IR_SCAN_POS w) (heap w) []).
Proof.
  intros E w w'.
  assert (Ha : (IR_SCAN_POS w < length (heap w))%nat) by (vm_compute; lia).
  assert (Hlo : (-1 < IR_SCAN_BIAS_F biased_config)%Q) by reflexivity.
  assert (Hhi : (IR_SCAN_BIAS_F biased_config < 1)%Q) by reflexivity.
  assert (Hi : __init__ E biased_config false w = (Ok tt, w'))
    by (vm_compute; reflexivity).
  exact (conj Ha (conj Hlo (conj Hhi (conj Hi
           (init_keeps_sweep_directions E biased_config false w w'
              Ha Hlo Hhi Hi))))).
Defined.

(** ** A wait that fails during the sweep *)

Section SweepFault.

Variable E : Env.
Variable cfg : Config.

Lemma housekeeper_driven_or_held (v : Z) (w : World) :
  driven_or_held v w -> driven_or_held v (snd (housekeeper E cfg w)).
Proof.
  unfold driven_or_held.
  unfold housekeeper, Compass_getHeading3D, bind, get, modify, ret. simpl.
  destruct (Qltb _ _ || Qltb _ _); destruct (truthy _); simpl; auto.
Qed.

Lemma spin_ms_no_tick (ms : Q) (w : World) :
  spin_ticks E (n_spin w) = 0%nat ->
  MotorTurn_speed (snd (spin_ms E cfg ms w)) = MotorTurn_speed w.
Proof.
  intros H. unfold spin_ms, emit, bind, modify, get.
  cbn [n_spin set_log set_n_spin]. rewrite H. cbn [repeatM ret].
  destruct (spin_fault E (n_spin w)); reflexivity.
Qed.

(** X8.  A scan cycle has no cleanup of its own: when the first wait of
    a sweep ends in an exception, the cycle ends with it, having
    commanded nothing but the turn that set the head going.  The turn
    motor is left running at the scan speed, unless a housekeeper tick
    during that wait put the robot on hold; then the motor is stopped
    and the state is [STATE_ON_HOLD]. *)
Theorem sweep_fault_leaves_motor_driven (w : World) (bias : Z) (Pos : Q)
  (rest : list Q) :
  nRangingSensor w = Some 1%nat ->
  result (scan_bias cfg) w = Ok bias ->
  nth (_scanPos w) (heap w) [] = Pos :: rest ->
  spin_fault E (n_spin w) = true ->
  result (scanForObstacleOrCliff E cfg) w = Raise Fault
  /\ (exists ms,
        logged (scanForObstacleOrCliff E cfg) w
        = [EvTurnSpeed (scan_speed cfg Pos); EvSpin ms])
  /\ driven_or_held (scan_speed cfg Pos)
       (after (scanForObstacleOrCliff E cfg) w)
  /\ (spin_ticks E (n_spin w) = 0%nat ->
      MotorTurn_speed (after (scanForObstacleOrCliff E cfg) w)
      = scan_speed cfg Pos).
Proof.
  intros Hn Hb Hp Hf. apply scan_bias_run in Hb.
  unfold result, logged, after, scanForObstacleOrCliff.
  rewrite (bind_Ok _ _ _ _ _ Hb). unfold heap_get. rewrite !bind_get.
  rewrite (bind_attr _ _ _ _ Hn). cbn [Nat.eqb]. rewrite Hp.
  cbn [sweep]. rewrite bind_bind, bind_MotorTurn, bind_bind.
  lazymatch goal with
  | |- context [bind (spin_ms E cfg ?ms) _ ?w1] =>
      destruct (spin_ms_run E cfg ms w1) as (w2 & Hrun & _ & _ & Hlog);
      pose proof (preserves_spin_ms E cfg
                    (driven_or_held (scan_speed cfg Pos))
                    (fun w0 l H0 => H0) (fun w0 k H0 => H0)
                    (housekeeper_driven_or_held (scan_speed cfg Pos))
                    ms w1) as Hq;
      pose proof (spin_ms_no_tick ms w1) as Hq0;
      pose (ms0 := ms)
  end.
  cbn [n_spin set_log set_MotorTurn_speed] in Hrun, Hq0.
  cbn [log set_log set_MotorTurn_speed] in Hlog.
  rewrite Hf in Hrun. rewrite Hrun in Hq, Hq0. cbn [snd] in Hq, Hq0.
  rewrite !(bind_Raise _ _ _ _ _ Hrun). cbn [fst snd].
  split; [reflexivity|]. split; [|split].
  - exists ms0. rewrite Hlog, <- app_assoc. apply skipn_length_app.
  - apply Hq. left. reflexivity.
  - intros H0. rewrite (Hq0 H0). reflexivity.
Qed.

End SweepFault.

Lemma sweep_fault_leaves_motor_driven_shipped :
  let E := first_wait_fails_env in
  let w := shipped_bug E in
  let scan := scanForObstacleOrCliff E hexbug_config in
  result scan w = Raise Fault
  /\ (exists ms,
        logged scan w
        = [EvTurnSpeed (scan_speed hexbug_config (-300#1)); EvSpin ms])
  /\ driven_or_held (scan_speed hexbug_config (-300#1)) (after scan w)
  /\ (spin_ticks E (n_spin w) = 0%nat ->
      MotorTurn_speed (after scan w) = scan_speed hexbug_config (-300#1)).
Proof.
  intros E w scan.
  apply (sweep_fault_leaves_motor_driven E hexbug_config w 0 (-300#1)
           [300#1; 300#1; -300#1]%Q).
  - reflexivity.
  - reflexivity.
  - vm_compute. reflexivity.
  - reflexivity.
Defined.

(** The two ways the cycle can leave the motor: two ticks on level
    ground leave it running at 40; one tick of a robot lying on its
    side stops it. *)
Example sweep_fault_motor_states :
  (let E := first_wait_fails_env in
   let w' := after (scanForObstacleOrCliff E hexbug_config) (shipped_bug E) in
   MotorTurn_speed w' = 40 /\ state w' = STATE_IDLE)
  /\ (let E := fallen_wait_fails_env in
      let scan := scanForObstacleOrCliff E hexbug_config in
      let w' := after scan (shipped_bug E) in
      result scan (shipped_bug E) = Raise Fault
      /\ MotorTurn_speed w' = 0 /\ state w' = STATE_ON_HOLD).
Proof. vm_compute. repeat split. Qed.
